(** * main.js of the foundation web site: a shallow embedding

    The script is one revealing-module object [App] made of four controllers
    ([Navigation], [DonationModal], [SmoothScroll], [StatsAnimation]) that
    bind DOM events to DOM mutations.  The embedding keeps that shape: one
    Rocq module per controller, the same function names, and the page as an
    explicit state that every handler reads and writes.

    Conventions of the model.
    - A query result that the script stores in a module-level constant
      ([document.querySelector], [getElementById]) is an [option Element]:
      [None] is JavaScript's [null].  Reading or writing a property of
      [null] throws a [TypeError]; what had been written before the throw
      stays written.
    - A [NodeList] ([querySelectorAll]) is a list of elements; a closure that
      captured one of its members refers to it by its index.
    - The host (browser) is part of the state: the listeners registered with
      [addEventListener], the pending [setTimeout] callbacks under a virtual
      clock in milliseconds, the [requestAnimationFrame] queue, whether the
      [IntersectionObserver] still observes the section, and a log of the
      calls whose only effect lies outside the page state.
    - A click travels from the element it lands on up through its
      ancestors; on each of them the listeners registered on that element
      run in registration order, whichever of the script's queries the
      element was found by.
    - JavaScript numbers are IEEE 754 binary64 values, with the operations
      of the Standard Library's [SpecFloat].
    - What the script asks of the host and the source does not fix (whether
      a string parses as a selector, how the locale writes a number) is a
      parameter of the page. *)

From Stdlib Require Import ZArith QArith Qround String Ascii List Lia.
From Stdlib Require Import SpecFloat.
From stdpp Require Import base gmap sets list strings.

(** ** Numbers *)

(** A binary64 value: [prec = 53] and [emax = 1024] in every operation. *)
Definition number : Type := spec_float.

(** The double nearest to an integer (ties to even), an infinity beyond the
    range. *)
Definition Number_of_Z (z : Z) : number := binary_normalize 53 1024 z 0 false.
Definition Number_add (x y : number) : number := SFadd 53 1024 x y.
Definition Number_div (x y : number) : number := SFdiv 53 1024 x y.
Definition Number_lt (x y : number) : bool := SFltb x y.

(** The exact value of a finite number; 0 for the others. *)
Definition value (x : number) : Q :=
  match x with
  | S754_finite s m e =>
      let v := if (0 <=? e)%Z then inject_Z (Z.pos m * 2 ^ e) else Z.pos m # 2 ^ Z.to_pos (- e) in
      if s then (- v)%Q else v
  | _ => 0%Q
  end.

(** The integer a number is, when it is one. *)
Definition integer_of (x : number) : option Z :=
  match x with
  | S754_zero _ => Some 0%Z
  | S754_finite s m e =>
      let sign (n : Z) := if s then (- n)%Z else n in
      if (0 <=? e)%Z then Some (sign (Z.pos m * 2 ^ e)%Z)
      else if (Z.pos m mod 2 ^ (- e) =? 0)%Z then Some (sign (Z.pos m / 2 ^ (- e))%Z)
      else None
  | _ => None
  end.

(** [Math.ceil]: a number with a fraction goes up to the next integer, every
    other number is returned as it is; what rounds up to zero from below is
    the negative zero. *)
Definition Math_ceil (x : number) : number :=
  match x with
  | S754_finite s m e =>
      match integer_of x with
      | Some _ => x
      | None =>
          let n := if s then (- (Z.pos m / 2 ^ (- e)))%Z
                   else (- (Z.neg m / 2 ^ (- e)))%Z in
          if (n =? 0)%Z then S754_zero s else Number_of_Z n
      end
  | _ => x
  end.

(** ** Elements *)

Record Element := mkElement {
  classList : gset string;          (* DOMTokenList *)
  attributes : gmap string string;  (* setAttribute / getAttribute *)
  innerHTML : string;
  innerText : string;
  display : string;                 (* style.display *)
  opacity : string;                 (* style.opacity *)
  disabled : bool }.

Definition with_classList (f : gset string → gset string) (e : Element) : Element :=
  mkElement (f (classList e)) (attributes e) (innerHTML e) (innerText e)
            (display e) (opacity e) (disabled e).
Definition with_attribute (k v : string) (e : Element) : Element :=
  mkElement (classList e) (<[k := v]> (attributes e)) (innerHTML e) (innerText e)
            (display e) (opacity e) (disabled e).
Definition with_innerHTML (v : string) (e : Element) : Element :=
  mkElement (classList e) (attributes e) v (innerText e)
            (display e) (opacity e) (disabled e).
Definition with_innerText (v : string) (e : Element) : Element :=
  mkElement (classList e) (attributes e) (innerHTML e) v
            (display e) (opacity e) (disabled e).
Definition with_display (v : string) (e : Element) : Element :=
  mkElement (classList e) (attributes e) (innerHTML e) (innerText e)
            v (opacity e) (disabled e).
Definition with_opacity (v : string) (e : Element) : Element :=
  mkElement (classList e) (attributes e) (innerHTML e) (innerText e)
            (display e) v (disabled e).
Definition with_disabled (v : bool) (e : Element) : Element :=
  mkElement (classList e) (attributes e) (innerHTML e) (innerText e)
            (display e) (opacity e) v.

Definition hasClass (c : string) (e : Element) : bool :=
  bool_decide (c ∈ classList e).

(** ** The page: what the module-level queries returned *)

Record Dom := mkDom {
  menuToggle : option Element;       (* querySelector('.menu-toggle') *)
  mainNav : option Element;          (* querySelector('#main-nav') *)
  modal : option Element;            (* getElementById('modal-donacion') *)
  openButtons : list Element;        (* querySelectorAll('.btn--donate') *)
  closeBtn : option Element;         (* getElementById('close-modal') *)
  amountBtns : list Element;         (* querySelectorAll('.btn-amount') *)
  processBtn : option Element;       (* getElementById('btn-process-payment') *)
  step1 : option Element;            (* getElementById('modal-step-1') *)
  step2 : option Element;            (* getElementById('modal-step-2') *)
  closeSuccessBtn : option Element;  (* getElementById('btn-close-success') *)
  links : list string;               (* querySelectorAll('a[href^="#"]'), by href *)
  statsSection : option Element;     (* querySelector('.stats-section') *)
  counters : list Element;           (* querySelectorAll('.stat-item__number') *)
  selectable : gset string;          (* the selectors for which document.querySelector
                                        finds an element *)
  validSelector : string → bool;     (* for the other strings: whether the host parses
                                        them as a selector (then the result is null)
                                        or rejects them *)
  localeString : number → string }.  (* Number.prototype.toLocaleString() of the host *)

(** The constants whose properties the script reads or writes. *)
Inductive Ref := MenuToggle | MainNav | Modal | ProcessBtn | Step1 | Step2.

Definition get (r : Ref) (d : Dom) : option Element :=
  match r with
  | MenuToggle => menuToggle d
  | MainNav => mainNav d
  | Modal => modal d
  | ProcessBtn => processBtn d
  | Step1 => step1 d
  | Step2 => step2 d
  end.

Definition put (r : Ref) (e : Element) (d : Dom) : Dom :=
  match r with
  | MenuToggle =>
      mkDom (Some e) (mainNav d) (modal d) (openButtons d) (closeBtn d) (amountBtns d)
            (processBtn d) (step1 d) (step2 d) (closeSuccessBtn d) (links d)
            (statsSection d) (counters d) (selectable d) (validSelector d)
            (localeString d)
  | MainNav =>
      mkDom (menuToggle d) (Some e) (modal d) (openButtons d) (closeBtn d) (amountBtns d)
            (processBtn d) (step1 d) (step2 d) (closeSuccessBtn d) (links d)
            (statsSection d) (counters d) (selectable d) (validSelector d)
            (localeString d)
  | Modal =>
      mkDom (menuToggle d) (mainNav d) (Some e) (openButtons d) (closeBtn d) (amountBtns d)
            (processBtn d) (step1 d) (step2 d) (closeSuccessBtn d) (links d)
            (statsSection d) (counters d) (selectable d) (validSelector d)
            (localeString d)
  | ProcessBtn =>
      mkDom (menuToggle d) (mainNav d) (modal d) (openButtons d) (closeBtn d) (amountBtns d)
            (Some e) (step1 d) (step2 d) (closeSuccessBtn d) (links d)
            (statsSection d) (counters d) (selectable d) (validSelector d)
            (localeString d)
  | Step1 =>
      mkDom (menuToggle d) (mainNav d) (modal d) (openButtons d) (closeBtn d) (amountBtns d)
            (processBtn d) (Some e) (step2 d) (closeSuccessBtn d) (links d)
            (statsSection d) (counters d) (selectable d) (validSelector d)
            (localeString d)
  | Step2 =>
      mkDom (menuToggle d) (mainNav d) (modal d) (openButtons d) (closeBtn d) (amountBtns d)
            (processBtn d) (step1 d) (Some e) (closeSuccessBtn d) (links d)
            (statsSection d) (counters d) (selectable d) (validSelector d)
            (localeString d)
  end.

Definition with_amountBtns (f : list Element → list Element) (d : Dom) : Dom :=
  mkDom (menuToggle d) (mainNav d) (modal d) (openButtons d) (closeBtn d)
        (f (amountBtns d)) (processBtn d) (step1 d) (step2 d) (closeSuccessBtn d)
        (links d) (statsSection d) (counters d) (selectable d) (validSelector d)
            (localeString d).
Definition with_counters (f : list Element → list Element) (d : Dom) : Dom :=
  mkDom (menuToggle d) (mainNav d) (modal d) (openButtons d) (closeBtn d)
        (amountBtns d) (processBtn d) (step1 d) (step2 d) (closeSuccessBtn d)
        (links d) (statsSection d) (f (counters d)) (selectable d) (validSelector d)
        (localeString d).

(** ** The host *)

(** The elements a listener can be registered on, by the query that found
    them.  [TElsewhere] is any element without a listener of its own. *)
Inductive Target :=
  | TMenuToggle | TOpenButton (i : nat) | TCloseBtn | TCloseSuccessBtn | TModal
  | TAmountBtn (i : nat) | TProcessBtn | TLink (i : nat) | TElsewhere.

(** The arrow functions handed to [addEventListener]; the index is the
    NodeList member the closure captured. *)
Inductive Listener :=
  | OnToggle | OnOpen | OnClose | OnBackdrop
  | OnAmount (i : nat) | OnProcess | OnLink (i : nat).

(** The callback handed to [setTimeout]. *)
Inductive Timeout := ShowSuccess.

(** The variables captured by one [updateCount] closure. *)
Record Closure := mkClosure {
  counter : nat;           (* index of the captured counter element *)
  target : number;
  originalText : string;
  increment : number;
  current : number }.

Inductive Effect :=
  | PreventDefault
  | ScrollIntoView (selector behavior block : string)
  | ConsoleLog (msg : string).

Inductive Error := TypeError | SyntaxError.

Record Host := mkHost {
  listeners : list (Target * Listener);  (* in registration order *)
  observing : bool;                      (* observer.observe(statsSection) in force *)
  timers : list (nat * Timeout);         (* due time, callback *)
  rafQueue : list Closure;               (* callbacks for the next frame *)
  clock : nat;                           (* virtual time, ms *)
  effects : list Effect;                 (* oldest first *)
  reported : list Error }.               (* uncaught exceptions of callbacks *)

Definition with_listeners (f : list (Target * Listener) → list (Target * Listener))
    (h : Host) : Host :=
  mkHost (f (listeners h)) (observing h) (timers h) (rafQueue h) (clock h)
         (effects h) (reported h).
Definition with_observing (b : bool) (h : Host) : Host :=
  mkHost (listeners h) b (timers h) (rafQueue h) (clock h) (effects h) (reported h).
Definition with_timers (f : list (nat * Timeout) → list (nat * Timeout)) (h : Host) : Host :=
  mkHost (listeners h) (observing h) (f (timers h)) (rafQueue h) (clock h)
         (effects h) (reported h).
Definition with_rafQueue (f : list Closure → list Closure) (h : Host) : Host :=
  mkHost (listeners h) (observing h) (timers h) (f (rafQueue h)) (clock h)
         (effects h) (reported h).
Definition with_clock (t : nat) (h : Host) : Host :=
  mkHost (listeners h) (observing h) (timers h) (rafQueue h) t (effects h) (reported h).
Definition with_effects (f : list Effect → list Effect) (h : Host) : Host :=
  mkHost (listeners h) (observing h) (timers h) (rafQueue h) (clock h)
         (f (effects h)) (reported h).
Definition with_reported (f : list Error → list Error) (h : Host) : Host :=
  mkHost (listeners h) (observing h) (timers h) (rafQueue h) (clock h)
         (effects h) (f (reported h)).

(** ** The whole state *)

Record State := mkState {
  document : Dom;
  host : Host;
  hasAnimated : bool;    (* StatsAnimation's flag *)
  animateCalls : nat }.  (* ghost: how often animateCounters has been entered *)

Definition with_document (f : Dom → Dom) (s : State) : State :=
  mkState (f (document s)) (host s) (hasAnimated s) (animateCalls s).
Definition with_host (f : Host → Host) (s : State) : State :=
  mkState (document s) (f (host s)) (hasAnimated s) (animateCalls s).
Definition with_hasAnimated (b : bool) (s : State) : State :=
  mkState (document s) (host s) b (animateCalls s).
Definition with_animateCalls (f : nat → nat) (s : State) : State :=
  mkState (document s) (host s) (hasAnimated s) (f (animateCalls s)).

(** ** Computations: state that survives a throw *)

Inductive Completion (A : Type) := Normal (a : A) | Throw (e : Error).
Arguments Normal {A} a.
Arguments Throw {A} e.

Definition M (A : Type) : Type := State → Completion A * State.

Definition ret {A} (a : A) : M A := λ s, (Normal a, s).
Definition bind {A B} (c : M A) (k : A → M B) : M B :=
  λ s, match c s with
       | (Normal a, s') => k a s'
       | (Throw e, s') => (Throw e, s')
       end.

Declare Scope js_scope.
Delimit Scope js_scope with js.
Notation "'let*' x ':=' c 'in' k" := (bind c (λ x, k))
  (at level 10, x name, c at level 100, k at level 200) : js_scope.
Notation "c ';;' k" := (bind c (λ _, k))
  (at level 100, k at level 200, right associativity) : js_scope.
Local Open Scope js_scope.

Definition modify (f : State → State) : M unit := λ s, (Normal tt, f s).
Definition read {A} (f : State → A) : M A := λ s, (Normal (f s), s).
(** Reading something off the page. *)
Definition query {A} (f : Dom → A) : M A := read (λ s, f (document s)).

(** [array.forEach(f)]: a throw of [f] ends the loop. *)
Fixpoint forEach {A} (l : list A) (f : A → M unit) : M unit :=
  match l with
  | [] => ret tt
  | x :: l' => f x ;; forEach l' f
  end.

(** The state a computation leaves, and whether it threw. *)
Definition exec {A} (c : M A) (s : State) : State := snd (c s).
Definition throws {A} (c : M A) (s : State) : bool :=
  match fst (c s) with Normal _ => false | Throw _ => true end.

Definition throw {A} (e : Error) : M A := λ s, (Throw e, s).

(** ** DOM primitives *)

(** Property access on a constant: a [TypeError] when it holds [null]. *)
Definition deref (r : Ref) : M Element :=
  λ s, match get r (document s) with
       | Some e => (Normal e, s)
       | None => throw TypeError s
       end.

Definition update (r : Ref) (f : Element → Element) : M unit :=
  let* e := deref r in modify (with_document (put r (f e))).

Definition classList_contains (r : Ref) (c : string) : M bool :=
  let* e := deref r in ret (hasClass c e).
Definition classList_add (r : Ref) (c : string) : M unit :=
  update r (with_classList (λ cs, cs ∪ {[c]})).
Definition classList_remove (r : Ref) (c : string) : M unit :=
  update r (with_classList (λ cs, cs ∖ {[c]})).
(** [classList.toggle(c)] returns whether [c] is present afterwards. *)
Definition classList_toggle (r : Ref) (c : string) : M bool :=
  let* e := deref r in
  if hasClass c e
  then classList_remove r c ;; ret false
  else classList_add r c ;; ret true.

(** [String(b)], the conversion [setAttribute] applies to a boolean. *)
Definition String_of_bool (b : bool) : string := if b then "true" else "false".
Definition setAttribute (r : Ref) (k v : string) : M unit :=
  update r (with_attribute k v).

(** The truthiness test [if (x)] on a query result. *)
Definition present (o : option Element) : bool :=
  match o with Some _ => true | None => false end.
Definition isPresent (f : Dom → option Element) : M bool := query (λ d, present (f d)).
(** The indices of a NodeList, for [forEach]. *)
Definition indices {A} (f : Dom → list A) : M (list nat) :=
  query (λ d, seq 0 (length (f d))).

Definition addEventListener (t : Target) (l : Listener) : M unit :=
  modify (with_host (with_listeners (λ ls, ls ++ [(t, l)]))).
Definition emit (e : Effect) : M unit :=
  modify (with_host (with_effects (λ es, es ++ [e]))).
Definition preventDefault : M unit := emit PreventDefault.

(** [document.querySelector(selector)], as far as the script uses the
    result: whether an element was found.  A string that the host does not
    parse as a selector throws a [SyntaxError]. *)
Definition querySelector (selector : string) : M bool :=
  let* found := query (λ d, bool_decide (selector ∈ selectable d)) in
  if found then ret true else
  let* valid := query (λ d, validSelector d selector) in
  if valid then ret false else throw SyntaxError.

(** ** Navigation *)

Module Navigation.

Definition onToggleClick : M unit :=
  let* isOpen := classList_toggle MainNav "is-open" in
  setAttribute MenuToggle "aria-expanded" (String_of_bool isOpen) ;;
  update MenuToggle (with_innerHTML (if isOpen then "✕" else "☰")).

Definition init : M unit :=
  let* hasToggle := isPresent menuToggle in
  let* hasNav := isPresent mainNav in
  if negb hasToggle || negb hasNav
  then ret tt
  else addEventListener TMenuToggle OnToggle.

Definition closeMenu : M unit :=
  let* isOpen := classList_contains MainNav "is-open" in
  if isOpen
  then classList_remove MainNav "is-open" ;;
       setAttribute MenuToggle "aria-expanded" "false" ;;
       update MenuToggle (with_innerHTML "☰")
  else ret tt.

End Navigation.

(** ** DonationModal *)

(** [setTimeout(cb, ms)]: due [ms] after the current virtual time. *)
Definition setTimeout (cb : Timeout) (ms : nat) : M unit :=
  modify (with_host (λ h, with_timers (λ ts, ts ++ [(clock h + ms, cb)]) h)).

Definition updateAmountBtn (i : nat) (f : Element → Element) : M unit :=
  modify (with_document (with_amountBtns (alter f i))).

Module DonationModal.

Definition resetModal : M unit :=
  update Step1 (with_display "block") ;;
  update Step2 (with_display "none") ;;
  let* hasProcessBtn := isPresent processBtn in
  if hasProcessBtn
  then update ProcessBtn (with_innerText "CONFIRMAR DONACIÓN") ;;
       update ProcessBtn (with_opacity "1") ;;
       update ProcessBtn (with_disabled false)
  else ret tt.

Definition onOpenClick : M unit :=
  preventDefault ;;
  classList_add Modal "is-visible" ;;
  resetModal.

Definition closeModal : M unit := classList_remove Modal "is-visible".

(** [if (e.target === modal) closeModal()] *)
Definition onBackdropClick (target : Target) : M unit :=
  match target with
  | TModal => closeModal
  | _ => ret tt
  end.

Definition onAmountClick (btn : nat) : M unit :=
  let* all := indices amountBtns in
  forEach all
    (λ b, updateAmountBtn b (with_classList (λ cs, cs ∖ {["selected"]}))) ;;
  updateAmountBtn btn (with_classList (λ cs, cs ∪ {["selected"]})).

(** The callback of the 2000 ms timer. *)
Definition onTimeout : M unit :=
  update Step1 (with_display "none") ;;
  update Step2 (with_display "block").

Definition onProcessClick : M unit :=
  let* b := deref ProcessBtn in
  let originalText := innerText b in
  update ProcessBtn (with_innerText "Procesando...") ;;
  update ProcessBtn (with_opacity "0.7") ;;
  update ProcessBtn (with_disabled true) ;;
  setTimeout ShowSuccess 2000.

Definition init : M unit :=
  let* hasModal := isPresent modal in
  if negb hasModal then ret tt else
  let* opens := indices openButtons in
  forEach opens (λ i, addEventListener (TOpenButton i) OnOpen) ;;
  let* hasCloseBtn := isPresent closeBtn in
  (if hasCloseBtn then addEventListener TCloseBtn OnClose else ret tt) ;;
  let* hasCloseSuccessBtn := isPresent closeSuccessBtn in
  (if hasCloseSuccessBtn then addEventListener TCloseSuccessBtn OnClose else ret tt) ;;
  addEventListener TModal OnBackdrop ;;
  let* amounts := indices amountBtns in
  forEach amounts (λ i, addEventListener (TAmountBtn i) (OnAmount i)) ;;
  let* hasProcessBtn := isPresent processBtn in
  if hasProcessBtn then addEventListener TProcessBtn OnProcess else ret tt.

End DonationModal.

(** ** SmoothScroll *)

Module SmoothScroll.

(** [targetId] is [link.getAttribute('href')] of the clicked link. *)
Definition onLinkClick (targetId : string) : M unit :=
  preventDefault ;;
  if String.eqb targetId "#" then ret tt else
  let* targetElement := querySelector targetId in
  if targetElement
  then emit (ScrollIntoView targetId "smooth" "start") ;;
       Navigation.closeMenu
  else ret tt.

Definition init : M unit :=
  let* all := indices links in
  forEach all (λ i, addEventListener (TLink i) (OnLink i)).

End SmoothScroll.

(** ** StatsAnimation *)

Definition is_digit (c : ascii) : bool :=
  (48 <=? nat_of_ascii c) && (nat_of_ascii c <=? 57).

(** [text.replace(/\D/g, '')] *)
Definition strip_non_digits (text : string) : string :=
  string_of_list_ascii (filter (λ c, is_digit c = true) (list_ascii_of_string text)).

Definition digit_value (c : ascii) : Z := Z.of_nat (nat_of_ascii c - 48).

(** The integer that a string of decimal digits writes; 0 for the empty
    string. *)
Definition parseDigits (digits : string) : Z :=
  fold_left (λ acc c, (10 * acc + digit_value c)%Z) (list_ascii_of_string digits) 0%Z.
(** Unary [+] on a string of decimal digits: the double nearest to the
    integer it writes. *)
Definition toNumber (digits : string) : number := Number_of_Z (parseDigits digits).

Fixpoint uint_chars (u : Decimal.uint) : list ascii :=
  match u with
  | Decimal.Nil => []
  | Decimal.D0 u => "0"%char :: uint_chars u
  | Decimal.D1 u => "1"%char :: uint_chars u
  | Decimal.D2 u => "2"%char :: uint_chars u
  | Decimal.D3 u => "3"%char :: uint_chars u
  | Decimal.D4 u => "4"%char :: uint_chars u
  | Decimal.D5 u => "5"%char :: uint_chars u
  | Decimal.D6 u => "6"%char :: uint_chars u
  | Decimal.D7 u => "7"%char :: uint_chars u
  | Decimal.D8 u => "8"%char :: uint_chars u
  | Decimal.D9 u => "9"%char :: uint_chars u
  end.

(** A separator before every group of three digits counted from the right. *)
Fixpoint group (digits : list ascii) : list ascii :=
  match digits with
  | [] => []
  | d :: rest =>
      d :: (if (0 <? length rest) && (length rest mod 3 =? 0)
            then ","%char :: group rest
            else group rest)
  end.

Definition grouped (n : Z) : string :=
  string_of_list_ascii (group (uint_chars (N.to_uint (Z.to_N n)))).

(** At most three decimals, without trailing zeros. *)
Definition fraction (thousandths : Z) : string :=
  let digit (k : Z) := ascii_of_nat (48 + Z.to_nat (k mod 10)) in
  let d1 := digit (thousandths / 100)%Z in
  let d2 := digit (thousandths / 10)%Z in
  let d3 := digit thousandths in
  if (thousandths =? 0)%Z then EmptyString
  else if (thousandths mod 100 =? 0)%Z then String "." (String d1 EmptyString)
  else if (thousandths mod 10 =? 0)%Z then String "." (String d1 (String d2 EmptyString))
  else String "." (String d1 (String d2 (String d3 EmptyString))).

(** [toLocaleString()] as the en-US locale has it, the locale of the page's
    own numbers ("1,250+"): digits in groups of three separated by commas,
    and up to three decimals, rounded half away from zero. *)
Definition en_US (x : number) : string :=
  let sign (s : bool) := if s then "-" else EmptyString in
  match x with
  | S754_nan => "NaN"
  | S754_infinity s => sign s +:+ "∞"
  | S754_zero s => sign s +:+ "0"
  | S754_finite s m e =>
      if (0 <=? e)%Z then sign s +:+ grouped (Z.pos m * 2 ^ e)
      else
        let d := (2 ^ (- e))%Z in
        let thousandths := ((2000 * Z.pos m + d) / (2 * d))%Z in
        sign s +:+ grouped (thousandths / 1000) +:+ fraction (thousandths mod 1000)
  end.

(** [x.toLocaleString()] *)
Definition toLocaleString (x : number) : M string := query (λ d, localeString d x).

Record Entry := mkEntry { isIntersecting : bool }.

Definition setCounterText (i : nat) (text : string) : M unit :=
  modify (with_document (with_counters (alter (with_innerText text) i))).
Definition requestAnimationFrame (cl : Closure) : M unit :=
  modify (with_host (with_rafQueue (λ q, q ++ [cl]))).
Definition unobserve : M unit := modify (with_host (with_observing false)).
Definition observe : M unit := modify (with_host (with_observing true)).

Module StatsAnimation.

Definition duration : number := Number_of_Z 2000.

(** One call of the closure [cl]: [current += increment], then the test. *)
Definition updateCount (cl : Closure) : M unit :=
  let current' := Number_add (current cl) (increment cl) in
  if Number_lt current' (target cl)
  then let* text := toLocaleString (Math_ceil current') in
       setCounterText (counter cl) text ;;
       requestAnimationFrame
         (mkClosure (counter cl) (target cl) (originalText cl) (increment cl) current')
  else setCounterText (counter cl) (originalText cl).

Definition animateCounter (i : nat) : M unit :=
  let* found := query (λ d, counters d !! i) in
  match found with
  | None => ret tt
  | Some counter =>
      let target := toNumber (strip_non_digits (innerText counter)) in
      let originalText := innerText counter in
      let increment := Number_div target (Number_div duration (Number_of_Z 16)) in
      updateCount (mkClosure i target originalText increment (Number_of_Z 0))
  end.

Definition animateCounters : M unit :=
  modify (with_animateCalls S) ;;
  let* all := indices counters in
  forEach all animateCounter.

(** The callback of the IntersectionObserver. *)
Definition onIntersection (entries : list Entry) : M unit :=
  forEach entries (λ entry,
    let* animated := read hasAnimated in
    if isIntersecting entry && negb animated
    then animateCounters ;;
         modify (with_hasAnimated true) ;;
         unobserve
    else ret tt).

Definition init : M unit :=
  let* hasSection := isPresent statsSection in
  if negb hasSection then ret tt else observe.

End StatsAnimation.

(** ** App *)

Module App.

Definition init : M unit :=
  Navigation.init ;;
  SmoothScroll.init ;;
  StatsAnimation.init ;;
  DonationModal.init ;;
  emit (ConsoleLog "App Fundación Inicializada correctamente.").

End App.

(** ** The event loop *)

Inductive Event :=
  | Click (t : Target) (inModal : bool)  (* a click on [t]; [inModal]: [t] lies inside the modal *)
  | ClickPath (path : list (list Target))  (* a click in general, see [deliver] *)
  | Intersection (entries : list Entry)  (* the observer reports intersection changes *)
  | AnimationFrame                       (* the display refreshes *)
  | Elapse (ms : nat).                   (* virtual time passes *)

(** The body of each registered arrow function; [target] is [e.target]. *)
Definition handle (l : Listener) (target : Target) : M unit :=
  match l with
  | OnToggle => Navigation.onToggleClick
  | OnOpen => DonationModal.onOpenClick
  | OnClose => DonationModal.closeModal
  | OnBackdrop => DonationModal.onBackdropClick target
  | OnAmount i => DonationModal.onAmountClick i
  | OnProcess => DonationModal.onProcessClick
  | OnLink i =>
      let* found := query (λ d, links d !! i) in
      match found with
      | Some href => SmoothScroll.onLinkClick href
      | None => ret tt
      end
  end.

Definition report (e : Error) : State → State :=
  with_host (with_reported (λ es, es ++ [e])).

(** The host runs a callback; an exception that escapes it is reported and
    the event loop goes on. *)
Definition callback (c : M unit) (s : State) : State :=
  match c s with
  | (Normal _, s') => s'
  | (Throw e, s') => report e s'
  end.

Global Instance Target_eq_dec : EqDecision Target.
Proof. solve_decision. Defined.

(** The listeners registered on [on] run in registration order, with
    [target] as [e.target]. *)
Definition dispatch (target on : Target) (s : State) : State :=
  fold_left
    (λ s' '(t, l), if decide (t = on) then callback (handle l target) s' else s')
    (listeners (host s)) s.

(** A click on the element found as [t], when no other query of the script
    found that element and, but for the modal, no ancestor of it carries a
    listener: the listeners on [t] run, then those on the modal when [t] lies
    inside it. *)
Definition click (t : Target) (inModal : bool) (s : State) : State :=
  let s' := dispatch t t s in
  if inModal && negb (bool_decide (t = TModal)) then dispatch t TModal s' else s'.

(** A click in general.  [path] lists the clicked element and then its
    ancestors, innermost first, each as the list of the queries that found
    it (the empty list for an element the script does not know).  The
    listeners registered on an element under any of its names run in
    registration order; [e.target] is the clicked element, which is the modal
    when [TModal] is one of its names. *)
Definition e_target (path : list (list Target)) : Target :=
  match path with
  | names :: _ => if bool_decide (TModal ∈ names) then TModal else TElsewhere
  | [] => TElsewhere
  end.

Definition dispatch_all (target : Target) (names : list Target) (s : State) : State :=
  fold_left
    (λ s' '(t, l), if bool_decide (t ∈ names) then callback (handle l target) s' else s')
    (listeners (host s)) s.

Definition deliver (path : list (list Target)) (s : State) : State :=
  fold_left (λ s' names, dispatch_all (e_target path) names s') path s.

(** The observer calls back only while it observes the section. *)
Definition intersect (entries : list Entry) (s : State) : State :=
  if observing (host s)
  then callback (StatsAnimation.onIntersection entries) s
  else s.

(** The callbacks queued for this frame run in order; what they request
    goes to the next frame. *)
Definition frame (s : State) : State :=
  fold_left
    (λ s' cl, callback (StatsAnimation.updateCount cl) s')
    (rafQueue (host s))
    (with_host (with_rafQueue (λ _, [])) s).

Definition fire (cb : Timeout) : M unit :=
  match cb with
  | ShowSuccess => DonationModal.onTimeout
  end.

Definition due (t : nat) (tm : nat * Timeout) : bool := fst tm <=? t.

(** The clock moves on by [ms]; the timers that have come due fire, oldest
    first (all timeouts of the script have the same delay). *)
Definition elapse (ms : nat) (s : State) : State :=
  let t := clock (host s) + ms in
  let ready := filter (λ tm, due t tm = true) (timers (host s)) in
  let s' := with_host (λ h, with_clock t
              (with_timers (filter (λ tm, due t tm = false)) h)) s in
  fold_left (λ s'' tm, callback (fire (snd tm)) s'') ready s'.

Definition step (s : State) (ev : Event) : State :=
  match ev with
  | Click t inModal => click t inModal s
  | ClickPath path => deliver path s
  | Intersection entries => intersect entries s
  | AnimationFrame => frame s
  | Elapse ms => elapse ms s
  end.

Definition run (evs : list Event) (s : State) : State := fold_left step evs s.

(** The state in which the script starts: nothing registered, time 0. *)
Definition load (d : Dom) : State :=
  mkState d (mkHost [] false [] [] 0 [] []) false 0.

(** The page after [DOMContentLoaded]. *)
Definition start (d : Dom) : State := callback App.init (load d).

(** * Properties *)

(** ** Rules for computations

    [relates R c]: from any state, [c] leaves a state related by [R] to the
    one it started in, whether it returns or throws.  With a reflexive and
    transitive [R] the property follows the structure of the code. *)

Definition relates {A} (R : State → State → Prop) (c : M A) : Prop :=
  ∀ s, R s (snd (c s)).

Section Relates.
Variable R : State → State → Prop.
Hypothesis R_refl : ∀ s, R s s.
Hypothesis R_trans : ∀ s1 s2 s3, R s1 s2 → R s2 s3 → R s1 s3.

Lemma relates_ret {A} (a : A) : relates R (ret a).
Proof. intros s. apply R_refl. Qed.

Lemma relates_read {A} (f : State → A) : relates R (read f).
Proof. intros s. apply R_refl. Qed.

Lemma relates_query {A} (f : Dom → A) : relates R (query f).
Proof. intros s. apply R_refl. Qed.

Lemma relates_throw {A} (e : Error) : relates R (@throw A e).
Proof. intros s. apply R_refl. Qed.

Lemma relates_bind {A B} (c : M A) (k : A → M B) :
  relates R c → (∀ a, relates R (k a)) → relates R (bind c k).
Proof.
  intros Hc Hk s. unfold bind. specialize (Hc s).
  destruct (c s) as [[a|e] s']; simpl in *; [|done].
  eapply R_trans; [exact Hc | apply Hk].
Qed.

Lemma relates_modify (f : State → State) :
  (∀ s, R s (f s)) → relates R (modify f).
Proof. intros Hf s. apply Hf. Qed.

Lemma relates_deref r : relates R (deref r).
Proof. intros s. unfold deref. destruct (get r (document s)); apply R_refl. Qed.

Lemma relates_update r f :
  (∀ s e, get r (document s) = Some e → R s (with_document (put r (f e)) s)) →
  relates R (update r f).
Proof.
  intros Hf s. unfold update, bind, deref.
  destruct (get r (document s)) eqn:E; simpl; [by apply Hf | apply R_refl].
Qed.

Lemma relates_forEach {A} (l : list A) (f : A → M unit) :
  (∀ x, relates R (f x)) → relates R (forEach l f).
Proof.
  intros Hf. induction l as [|x l IH]; simpl.
  - apply relates_ret.
  - apply relates_bind; auto.
Qed.

Lemma relates_if {A} (b : bool) (c1 c2 : M A) :
  relates R c1 → relates R c2 → relates R (if b then c1 else c2).
Proof. by destruct b. Qed.

Lemma relates_callback (c : M unit) s :
  relates R c → (∀ e s', R s' (report e s')) → R s (callback c s).
Proof.
  intros Hc Hr. unfold callback. specialize (Hc s).
  destruct (c s) as [[[]|e] s']; simpl in *; [done|].
  eapply R_trans; [exact Hc | apply Hr].
Qed.

Lemma relates_fold_left {A} (f : State → A → State) (l : list A) s :
  (∀ s' x, R s' (f s' x)) → R s (fold_left f l s).
Proof.
  intros Hf. revert s. induction l as [|x l IH]; intros s; simpl.
  - apply R_refl.
  - eapply R_trans; [apply Hf | apply IH].
Qed.

(** A click, whatever its path, is made of listener callbacks. *)
Lemma relates_dispatch_all target names s :
  (∀ l t, relates R (handle l t)) → (∀ e s', R s' (report e s')) →
  R s (dispatch_all target names s).
Proof.
  intros Hh Hr. unfold dispatch_all. apply relates_fold_left.
  intros s' [t l]. destruct (bool_decide _); [|apply R_refl].
  by apply relates_callback.
Qed.

Lemma relates_deliver path s :
  (∀ l t, relates R (handle l t)) → (∀ e s', R s' (report e s')) →
  R s (deliver path s).
Proof.
  intros Hh Hr. unfold deliver. apply relates_fold_left.
  intros s' names. by apply relates_dispatch_all.
Qed.
End Relates.

(** ** What no event changes: the shape of the page *)

Record shape (s s' : State) : Prop := mkShape {
  shape_listeners : listeners (host s') = listeners (host s);
  shape_present : ∀ r, present (get r (document s')) = present (get r (document s));
  shape_openButtons : openButtons (document s') = openButtons (document s);
  shape_closeBtn : closeBtn (document s') = closeBtn (document s);
  shape_closeSuccessBtn : closeSuccessBtn (document s') = closeSuccessBtn (document s);
  shape_links : links (document s') = links (document s);
  shape_statsSection : statsSection (document s') = statsSection (document s);
  shape_selectable : selectable (document s') = selectable (document s);
  shape_validSelector : validSelector (document s') = validSelector (document s);
  shape_localeString : localeString (document s') = localeString (document s);
  shape_amountBtns : length (amountBtns (document s')) = length (amountBtns (document s));
  shape_counters : length (counters (document s')) = length (counters (document s)) }.

Lemma shape_refl s : shape s s.
Proof. by split. Qed.

Lemma shape_trans s1 s2 s3 : shape s1 s2 → shape s2 s3 → shape s1 s3.
Proof.
  intros [] []. split; try congruence; intros r; etrans; eauto.
Qed.

Lemma shape_put r s e e' :
  get r (document s) = Some e → shape s (with_document (put r e') s).
Proof.
  intros H. split; try (by destruct r).
  intros r'. destruct r, r'; simpl in *; try done; by rewrite H.
Qed.

Lemma shape_host f s :
  (∀ h, listeners (f h) = listeners h) → shape s (with_host f s).
Proof. intros H. split; try done. apply H. Qed.

Lemma shape_report e s : shape s (report e s).
Proof. by apply shape_host. Qed.

Lemma shape_alter_amountBtn f i s :
  shape s (with_document (with_amountBtns (alter f i)) s).
Proof. split; try done. simpl. by rewrite length_alter. Qed.

Ltac relates_step R_refl R_trans :=
  lazymatch goal with
  | |- relates _ (bind _ _) => apply (relates_bind _ R_trans); [|intros ?]
  | |- relates _ (ret _) => apply (relates_ret _ R_refl)
  | |- relates _ (read _) => apply (relates_read _ R_refl)
  | |- relates _ (query _) => apply (relates_query _ R_refl)
  | |- relates _ (throw _) => apply (relates_throw _ R_refl)
  | |- relates _ (deref _) => apply (relates_deref _ R_refl)
  | |- relates _ (forEach _ _) => apply (relates_forEach _ R_refl R_trans); intros ?
  | |- relates _ (update _ _) => apply (relates_update _ R_refl); intros ? ? ?
  | |- relates _ (modify _) => apply relates_modify; intros ?
  | |- relates _ (if _ then _ else _) => apply relates_if
  | |- relates _ (match ?x with _ => _ end) => destruct x
  end.

Ltac js_handlers :=
  unfold Navigation.onToggleClick, DonationModal.onOpenClick,
    DonationModal.onBackdropClick, DonationModal.onAmountClick, DonationModal.onTimeout,
    DonationModal.closeModal,
    DonationModal.onProcessClick, SmoothScroll.onLinkClick, DonationModal.resetModal,
    Navigation.closeMenu, classList_toggle, classList_contains, classList_add,
    classList_remove, setAttribute, preventDefault, emit, setTimeout, updateAmountBtn,
    querySelector, isPresent, indices.

Ltac relates_shape := repeat relates_step shape_refl shape_trans.

Lemma shape_handle l t : relates shape (handle l t).
Proof.
  destruct l; simpl; js_handlers; relates_shape;
    first [ by eapply shape_put | by apply shape_host | apply shape_alter_amountBtn ].
Qed.

Ltac js_stats :=
  unfold StatsAnimation.onIntersection, StatsAnimation.animateCounters,
    StatsAnimation.animateCounter, StatsAnimation.updateCount, setCounterText,
    requestAnimationFrame, unobserve, observe, toLocaleString, isPresent, indices.

Ltac shape_leaf :=
  first [ by eapply shape_put | by apply shape_host | apply shape_alter_amountBtn
        | split; try done; simpl; by rewrite length_alter ].

Lemma shape_updateCount cl : relates shape (StatsAnimation.updateCount cl).
Proof. js_stats; relates_shape; shape_leaf. Qed.

Lemma shape_onIntersection entries :
  relates shape (StatsAnimation.onIntersection entries).
Proof. js_stats; relates_shape; shape_leaf. Qed.

Lemma shape_fire cb : relates shape (fire cb).
Proof. destruct cb; simpl; js_handlers; relates_shape; shape_leaf. Qed.

Lemma shape_callback c s : relates shape c → shape s (callback c s).
Proof.
  intros H. apply relates_callback; [apply shape_trans | exact H | apply shape_report].
Qed.

Lemma shape_dispatch target on s : shape s (dispatch target on s).
Proof.
  unfold dispatch. apply (relates_fold_left shape shape_refl shape_trans).
  intros s' [t l]. case_decide; [|apply shape_refl].
  apply shape_callback, shape_handle.
Qed.

Lemma shape_step s ev : shape s (step s ev).
Proof.
  destruct ev as [t inModal|path|entries| |ms]; simpl.
  - unfold click. destruct (_ && _); [|apply shape_dispatch].
    eapply shape_trans; apply shape_dispatch.
  - apply (relates_deliver shape shape_refl shape_trans);
      [apply shape_handle | apply shape_report].
  - unfold intersect. destruct (observing _); [|apply shape_refl].
    apply shape_callback, shape_onIntersection.
  - unfold frame.
    match goal with |- shape s (fold_left _ _ ?s1) => apply shape_trans with s1 end;
      [by apply shape_host|].
    apply (relates_fold_left shape shape_refl shape_trans).
    intros s' cl. apply shape_callback, shape_updateCount.
  - unfold elapse.
    match goal with |- shape s (fold_left _ _ ?s1) => apply shape_trans with s1 end;
      [by apply shape_host|].
    apply (relates_fold_left shape shape_refl shape_trans).
    intros s' tm. apply shape_callback, shape_fire.
Qed.

Lemma shape_run evs s : shape s (run evs s).
Proof.
  unfold run. apply (relates_fold_left shape shape_refl shape_trans), shape_step.
Qed.

(** ** What [App.init] registers *)

Definition add_listeners (new : list (Target * Listener)) (s : State) : State :=
  with_host (with_listeners (λ ls, ls ++ new)) s.

Ltac unfold_with :=
  unfold with_document, with_host, with_hasAnimated, with_animateCalls, with_listeners,
    with_observing, with_timers, with_rafQueue, with_clock, with_effects, with_reported,
    with_amountBtns, with_counters in *.

Lemma add_listeners_nil s : add_listeners [] s = s.
Proof.
  destruct s as [d [] a n]. unfold add_listeners; unfold_with; simpl.
  by rewrite app_nil_r.
Qed.

Lemma add_listeners_app l1 l2 s :
  add_listeners l2 (add_listeners l1 s) = add_listeners (l1 ++ l2) s.
Proof.
  destruct s as [d [] a n]. unfold add_listeners; unfold_with; simpl.
  by rewrite app_assoc.
Qed.

Lemma forEach_addEventListener (T : nat → Target) (L : nat → Listener) l s :
  forEach l (λ i, addEventListener (T i) (L i)) s
  = (Normal tt, add_listeners (map (λ i, (T i, L i)) l) s).
Proof.
  revert s. induction l as [|i l IH]; intros s; simpl.
  - by rewrite add_listeners_nil.
  - unfold bind, addEventListener at 1, modify. rewrite IH.
    f_equal. apply (add_listeners_app [_]).
Qed.

Definition navigation_listeners (d : Dom) : list (Target * Listener) :=
  if present (menuToggle d) && present (mainNav d) then [(TMenuToggle, OnToggle)] else [].

Definition scroll_listeners (d : Dom) : list (Target * Listener) :=
  map (λ i, (TLink i, OnLink i)) (seq 0 (length (links d))).

Definition modal_listeners (d : Dom) : list (Target * Listener) :=
  if present (modal d)
  then map (λ i, (TOpenButton i, OnOpen)) (seq 0 (length (openButtons d)))
       ++ (if present (closeBtn d) then [(TCloseBtn, OnClose)] else [])
       ++ (if present (closeSuccessBtn d) then [(TCloseSuccessBtn, OnClose)] else [])
       ++ [(TModal, OnBackdrop)]
       ++ map (λ i, (TAmountBtn i, OnAmount i)) (seq 0 (length (amountBtns d)))
       ++ (if present (processBtn d) then [(TProcessBtn, OnProcess)] else [])
  else [].

Definition installed (d : Dom) : list (Target * Listener) :=
  navigation_listeners d ++ scroll_listeners d ++ modal_listeners d.

Lemma Navigation_init_spec s :
  Navigation.init s = (Normal tt, add_listeners (navigation_listeners (document s)) s).
Proof.
  unfold Navigation.init, navigation_listeners, isPresent, query, read, bind.
  destruct (present (menuToggle _)), (present (mainNav _)); simpl;
    by rewrite ?add_listeners_nil.
Qed.

Lemma SmoothScroll_init_spec s :
  SmoothScroll.init s = (Normal tt, add_listeners (scroll_listeners (document s)) s).
Proof.
  unfold SmoothScroll.init, indices, query, read, bind.
  apply (forEach_addEventListener TLink OnLink).
Qed.

Lemma DonationModal_init_spec s :
  DonationModal.init s = (Normal tt, add_listeners (modal_listeners (document s)) s).
Proof.
  unfold DonationModal.init, modal_listeners, isPresent, indices, query, read.
  unfold bind at 1. destruct (present (modal _)); simpl.
  2: { unfold ret. by rewrite add_listeners_nil. }
  unfold bind at 1 2.
  rewrite (forEach_addEventListener TOpenButton (λ _, OnOpen)).
  unfold bind at 1 2; simpl.
  set (s1 := add_listeners _ s).
  assert (H1 : ∀ (b : bool) t l s',
    (if b then addEventListener t l else ret tt) s'
    = (Normal tt, add_listeners (if b then [(t, l)] else []) s')).
  { intros [] ? ? ?; [done|]. unfold ret. by rewrite add_listeners_nil. }
  rewrite H1. unfold bind at 1 2; simpl.
  rewrite H1. unfold bind at 1; simpl.
  unfold addEventListener at 1, modify.
  unfold bind at 1 2; simpl.
  rewrite (forEach_addEventListener TAmountBtn OnAmount).
  unfold bind at 1; simpl.
  rewrite H1. f_equal. unfold s1.
  change (with_host (with_listeners (λ ls, ls ++ [(TModal, OnBackdrop)])) ?s')
    with (add_listeners [(TModal, OnBackdrop)] s').
  rewrite !add_listeners_app. by rewrite <- ?app_assoc.
Qed.

Lemma App_init_spec d :
  App.init (load d)
  = (Normal tt,
     mkState d
       (mkHost (installed d) (present (statsSection d)) [] [] 0
          [ConsoleLog "App Fundación Inicializada correctamente."] [])
       false 0).
Proof.
  unfold App.init. unfold bind at 1. rewrite Navigation_init_spec.
  unfold bind at 1. rewrite SmoothScroll_init_spec.
  unfold bind at 1.
  assert (H : ∀ s, StatsAnimation.init s
    = (Normal tt, with_host (with_observing (present (statsSection (document s))
                                             || observing (host s))) s)).
  { intros [d' [] a n]. unfold StatsAnimation.init, isPresent, query, read, bind, observe.
    simpl. by destruct (present _). }
  rewrite H. unfold bind at 1. rewrite DonationModal_init_spec.
  unfold emit, modify, load, add_listeners, installed; unfold_with; simpl.
  by rewrite orb_false_r, <- app_assoc.
Qed.

Lemma start_spec d :
  start d
  = mkState d
      (mkHost (installed d) (present (statsSection d)) [] [] 0
         [ConsoleLog "App Fundación Inicializada correctamente."] [])
      false 0.
Proof. unfold start, callback. by rewrite App_init_spec. Qed.


(** ** Which listeners a click reaches *)

Definition handlers_on (on : Target) (ls : list (Target * Listener)) : list Listener :=
  omap (λ tl, if decide (fst tl = on) then Some (snd tl) else None) ls.

Definition invoke (target : Target) (s : State) (l : Listener) : State :=
  callback (handle l target) s.

Lemma dispatch_handlers target on s :
  dispatch target on s
  = fold_left (invoke target) (handlers_on on (listeners (host s))) s.
Proof.
  unfold dispatch. generalize (listeners (host s)). intros ls. revert s.
  induction ls as [|[t l] ls IH]; intros s; simpl; [done|].
  rewrite IH. by case_decide.
Qed.

Lemma handlers_on_app on l1 l2 :
  handlers_on on (l1 ++ l2) = handlers_on on l1 ++ handlers_on on l2.
Proof. apply omap_app. Qed.

Lemma handlers_on_other on (T : nat → Target) (L : nat → Listener) l :
  (∀ i, T i ≠ on) → handlers_on on (map (λ i, (T i, L i)) l) = [].
Proof.
  intros H. induction l as [|i l IH]; simpl; [done|].
  unfold handlers_on in *. simpl. case_decide; [by destruct (H i)|done].
Qed.

Lemma handlers_on_seq (T : nat → Target) (L : nat → Listener) i a n :
  (∀ j k, T j = T k → j = k) →
  handlers_on (T i) (map (λ j, (T j, L j)) (seq a n))
  = if (a <=? i) && (i <? a + n) then [L i] else [].
Proof.
  intros Hinj. revert a. induction n as [|n IH]; intros a; simpl.
  - destruct (a <=? i) eqn:E1; [|done]. simpl.
    destruct (i <? a + 0) eqn:E2; [|done].
    apply Nat.leb_le in E1. apply Nat.ltb_lt in E2. lia.
  - unfold handlers_on in *. simpl. rewrite IH. case_decide as E.
    + apply Hinj in E. subst a.
      rewrite Nat.leb_refl. replace (i <? i + S n) with true
        by (symmetry; apply Nat.ltb_lt; lia).
      replace (S i <=? i) with false by (symmetry; apply Nat.leb_gt; lia). done.
    + assert (a ≠ i) by congruence.
      destruct (a <=? i) eqn:E1, (S a <=? i) eqn:E2,
               (i <? a + S n) eqn:E3, (i <? S a + n) eqn:E4; simpl; try done;
        repeat match goal with
               | H : (_ <=? _) = true |- _ => apply Nat.leb_le in H
               | H : (_ <=? _) = false |- _ => apply Nat.leb_gt in H
               | H : (_ <? _) = true |- _ => apply Nat.ltb_lt in H
               | H : (_ <? _) = false |- _ => apply Nat.ltb_ge in H
               end; lia.
Qed.

Lemma handlers_on_if on (b : bool) t l :
  handlers_on on (if b then [(t, l)] else [])
  = if b && bool_decide (t = on) then [l] else [].
Proof.
  destruct b; [|done]. unfold handlers_on. simpl.
  case_decide; [by rewrite bool_decide_eq_true_2 | by rewrite bool_decide_eq_false_2].
Qed.

Ltac handlers_on_installed :=
  unfold installed, navigation_listeners, scroll_listeners, modal_listeners;
  repeat (rewrite ?handlers_on_app, ?handlers_on_if);
  repeat match goal with
         | |- context [present ?x] => destruct (present x)
         end;
  simpl;
  repeat (rewrite ?handlers_on_app, ?handlers_on_if; simpl);
  rewrite ?(handlers_on_other _ TLink OnLink),
          ?(handlers_on_other _ TOpenButton (λ _, OnOpen)),
          ?(handlers_on_other _ TAmountBtn OnAmount) by done;
  simpl.

Lemma handlers_on_openButton d i :
  handlers_on (TOpenButton i) (installed d)
  = if present (modal d) && (i <? length (openButtons d)) then [OnOpen] else [].
Proof.
  handlers_on_installed;
    rewrite ?(handlers_on_seq TOpenButton (λ _, OnOpen)) by congruence;
    simpl; by rewrite ?app_nil_r.
Qed.

Lemma handlers_on_amountBtn d i :
  handlers_on (TAmountBtn i) (installed d)
  = if present (modal d) && (i <? length (amountBtns d)) then [OnAmount i] else [].
Proof.
  handlers_on_installed;
    rewrite ?(handlers_on_seq TAmountBtn OnAmount) by congruence;
    simpl; by rewrite ?app_nil_r.
Qed.

Lemma handlers_on_link d i :
  handlers_on (TLink i) (installed d)
  = if i <? length (links d) then [OnLink i] else [].
Proof.
  handlers_on_installed;
    rewrite ?(handlers_on_seq TLink OnLink) by congruence;
    simpl; by rewrite ?app_nil_r.
Qed.

Lemma handlers_on_processBtn d :
  handlers_on TProcessBtn (installed d)
  = if present (modal d) && present (processBtn d) then [OnProcess] else [].
Proof. destruct d as [? ? m ? ? ? p]. by handlers_on_installed; destruct m, p. Qed.

Lemma handlers_on_modal d :
  handlers_on TModal (installed d) = if present (modal d) then [OnBackdrop] else [].
Proof. destruct d as [? ? m]. by handlers_on_installed; destruct m. Qed.

Lemma onBackdropClick_elsewhere t s :
  t ≠ TModal → callback (DonationModal.onBackdropClick t) s = s.
Proof. by destruct t. Qed.

Lemma bubble_noop d s t :
  listeners (host s) = installed d → t ≠ TModal → dispatch t TModal s = s.
Proof.
  intros Hl Ht. rewrite dispatch_handlers, Hl, handlers_on_modal.
  destruct (present _); simpl; [|done].
  by apply onBackdropClick_elsewhere.
Qed.

Lemma click_reaches d s t inModal :
  listeners (host s) = installed d → t ≠ TModal →
  click t inModal s = fold_left (invoke t) (handlers_on t (installed d)) s.
Proof.
  intros Hl Ht. unfold click.
  rewrite (bool_decide_eq_false_2 _ Ht), andb_true_r.
  rewrite <- Hl, <- dispatch_handlers.
  destruct inModal; [|done].
  apply (bubble_noop d); [|done].
  by rewrite (shape_listeners _ _ (shape_dispatch _ _ _)).
Qed.

(** A page that has been started and has seen some events. *)
Definition running (d : Dom) (s : State) : Prop := shape (start d) s.

Lemma running_run d evs : running d (run evs (start d)).
Proof. apply shape_run. Qed.

Lemma running_step d s ev : running d s → running d (step s ev).
Proof. intros H. eapply shape_trans; [exact H | apply shape_step]. Qed.

Lemma running_listeners d s : running d s → listeners (host s) = installed d.
Proof. intros H. rewrite (shape_listeners _ _ H). by rewrite start_spec. Qed.

Lemma running_present d s r :
  running d s → present (get r (document s)) = present (get r d).
Proof. intros H. rewrite (shape_present _ _ H). by rewrite start_spec. Qed.

(** ** Evaluating handlers *)

Ltac js_prims :=
  unfold classList_toggle, classList_contains, classList_add, classList_remove,
    setAttribute, preventDefault, emit, setTimeout, updateAmountBtn, isPresent, indices,
    update, deref, query, read, modify, bind, ret in *.

Ltac js_eval := js_handlers; js_prims; unfold_with; simpl.

(** Evaluate along the query results known from the hypotheses. *)
Ltac js_run :=
  js_eval;
  repeat match goal with
         | H : ?x = Some _ |- context [?x] => rewrite H; simpl
         | H : ?x = None |- context [?x] => rewrite H; simpl
         end.

Lemma hasClass_remove c e : hasClass c (with_classList (λ cs, cs ∖ {[c]}) e) = false.
Proof.
  apply bool_decide_eq_false. simpl.
  rewrite elem_of_difference, elem_of_singleton. by intros [_ []].
Qed.

Lemma hasClass_add c e : hasClass c (with_classList (λ cs, cs ∪ {[c]}) e) = true.
Proof.
  apply bool_decide_eq_true. simpl.
  rewrite elem_of_union, elem_of_singleton. by right.
Qed.

Lemma closeMenu_closed s nav :
  mainNav (document s) = Some nav → hasClass "is-open" nav = false →
  Navigation.closeMenu s = (Normal tt, s).
Proof. intros Hn Hc. js_eval. by rewrite Hn, Hc. Qed.

Lemma closeMenu_open s nav toggle :
  mainNav (document s) = Some nav → menuToggle (document s) = Some toggle →
  hasClass "is-open" nav = true →
  Navigation.closeMenu s
  = (Normal tt,
     with_document
       (put MenuToggle (with_innerHTML "☰" (with_attribute "aria-expanded" "false" toggle)))
       (with_document (put MainNav (with_classList (λ cs, cs ∖ {["is-open"]}) nav)) s)).
Proof. intros Hn Ht Hc. js_eval. rewrite Hn, Hc. simpl. by rewrite Hn, Ht. Qed.

Lemma closeMenu_null s :
  mainNav (document s) = None → Navigation.closeMenu s = (Throw TypeError, s).
Proof. intros Hn. js_eval. by rewrite Hn. Qed.

Lemma Navigation_init_absent s :
  menuToggle (document s) = None ∨ mainNav (document s) = None →
  Navigation.init s = (Normal tt, s).
Proof.
  intros H. rewrite Navigation_init_spec. unfold navigation_listeners.
  destruct H as [-> | ->]; simpl; rewrite ?andb_false_r; by rewrite add_listeners_nil.
Qed.

Lemma onLinkClick_hash s :
  SmoothScroll.onLinkClick "#" s = (Normal tt, exec preventDefault s).
Proof. done. Qed.

Lemma querySelector_spec selector s :
  querySelector selector s
  = if bool_decide (selector ∈ selectable (document s)) then (Normal true, s)
    else if validSelector (document s) selector then (Normal false, s)
    else (Throw SyntaxError, s).
Proof.
  unfold querySelector, bind, query, read. simpl.
  destruct (bool_decide _); [done|]. by destruct (validSelector _ _).
Qed.

Lemma onLinkClick_query targetId s :
  targetId ≠ "#" →
  SmoothScroll.onLinkClick targetId s
  = match querySelector targetId (exec preventDefault s) with
    | (Normal true, s') =>
        Navigation.closeMenu (exec (emit (ScrollIntoView targetId "smooth" "start")) s')
    | (Normal false, s') => (Normal tt, s')
    | (Throw e, s') => (Throw e, s')
    end.
Proof.
  intros Hne. unfold SmoothScroll.onLinkClick.
  apply String.eqb_neq in Hne. rewrite Hne.
  unfold bind at 1. unfold preventDefault at 1, emit at 1, modify at 1.
  unfold bind at 1. unfold exec, preventDefault, emit, modify. simpl.
  destruct (querySelector targetId _) as [[[]|e] s']; done.
Qed.

Lemma onLinkClick_found targetId s :
  targetId ≠ "#" → targetId ∈ selectable (document s) →
  SmoothScroll.onLinkClick targetId s
  = Navigation.closeMenu
      (exec (emit (ScrollIntoView targetId "smooth" "start")) (exec preventDefault s)).
Proof.
  intros Hne Hin. rewrite onLinkClick_query, querySelector_spec by done.
  change (document (exec preventDefault s)) with (document s).
  by rewrite bool_decide_eq_true_2.
Qed.

Lemma onLinkClick_missing targetId s :
  targetId ≠ "#" → targetId ∉ selectable (document s) →
  validSelector (document s) targetId = true →
  SmoothScroll.onLinkClick targetId s = (Normal tt, exec preventDefault s).
Proof.
  intros Hne Hin Hv. rewrite onLinkClick_query, querySelector_spec by done.
  change (document (exec preventDefault s)) with (document s).
  by rewrite bool_decide_eq_false_2, Hv.
Qed.

Lemma onLinkClick_invalid targetId s :
  targetId ≠ "#" → targetId ∉ selectable (document s) →
  validSelector (document s) targetId = false →
  SmoothScroll.onLinkClick targetId s = (Throw SyntaxError, exec preventDefault s).
Proof.
  intros Hne Hin Hv. rewrite onLinkClick_query, querySelector_spec by done.
  change (document (exec preventDefault s)) with (document s).
  by rewrite bool_decide_eq_false_2, Hv.
Qed.

Definition show_modal (m : Element) : Element :=
  with_classList (λ cs, cs ∪ {["is-visible"]}) m.
Definition default_button (b : Element) : Element :=
  with_disabled false (with_opacity "1" (with_innerText "CONFIRMAR DONACIÓN" b)).
Definition processing_button (b : Element) : Element :=
  with_disabled true (with_opacity "0.7" (with_innerText "Procesando..." b)).

Lemma resetModal_spec s e1 e2 :
  step1 (document s) = Some e1 → step2 (document s) = Some e2 →
  ∃ s', DonationModal.resetModal s = (Normal tt, s')
    ∧ step1 (document s') = Some (with_display "block" e1)
    ∧ step2 (document s') = Some (with_display "none" e2)
    ∧ processBtn (document s') = default_button <$> processBtn (document s)
    ∧ modal (document s') = modal (document s)
    ∧ host s' = host s.
Proof.
  intros H1 H2. js_eval. rewrite H1. simpl. rewrite H2. simpl.
  destruct (processBtn (document s)) as [b|] eqn:Hb; simpl; eauto 10.
Qed.

Lemma resetModal_null_step1 s :
  step1 (document s) = None → DonationModal.resetModal s = (Throw TypeError, s).
Proof. intros H. js_eval. by rewrite H. Qed.

Lemma resetModal_null_step2 s e1 :
  step1 (document s) = Some e1 → step2 (document s) = None →
  DonationModal.resetModal s
  = (Throw TypeError, with_document (put Step1 (with_display "block" e1)) s).
Proof. intros H1 H2. js_eval. rewrite H1. simpl. by rewrite H2. Qed.

Lemma onOpenClick_spec s m e1 e2 :
  modal (document s) = Some m →
  step1 (document s) = Some e1 → step2 (document s) = Some e2 →
  ∃ s', DonationModal.onOpenClick s = (Normal tt, s')
    ∧ modal (document s') = Some (show_modal m)
    ∧ step1 (document s') = Some (with_display "block" e1)
    ∧ step2 (document s') = Some (with_display "none" e2)
    ∧ processBtn (document s') = default_button <$> processBtn (document s)
    ∧ effects (host s') = effects (host s) ++ [PreventDefault]
    ∧ reported (host s') = reported (host s).
Proof.
  intros Hm H1 H2. unfold DonationModal.onOpenClick.
  unfold bind at 1, preventDefault at 1, emit at 1, modify at 1.
  unfold bind at 1, classList_add at 1, update at 1, bind at 1, deref at 1.
  unfold_with; simpl. rewrite Hm. unfold modify at 1.
  match goal with |- context [DonationModal.resetModal ?s0] =>
    destruct (resetModal_spec s0 e1 e2) as (s' & -> & ? & ? & ? & Hm' & Hh); [done..|]
  end.
  exists s'. rewrite Hh, Hm'. by unfold_with.
Qed.

Lemma onTimeout_spec s e1 e2 :
  step1 (document s) = Some e1 → step2 (document s) = Some e2 →
  DonationModal.onTimeout s
  = (Normal tt,
     with_document (put Step2 (with_display "block" e2))
       (with_document (put Step1 (with_display "none" e1)) s)).
Proof. intros H1 H2. js_eval. rewrite H1. simpl. by rewrite H2. Qed.

Lemma onTimeout_null_step1 s :
  step1 (document s) = None → DonationModal.onTimeout s = (Throw TypeError, s).
Proof. intros H. js_eval. by rewrite H. Qed.

Lemma onProcessClick_spec s b :
  processBtn (document s) = Some b →
  DonationModal.onProcessClick s
  = (Normal tt,
     with_host (with_timers (λ ts, ts ++ [(clock (host s) + 2000, ShowSuccess)]))
       (with_document (put ProcessBtn (processing_button b)) s)).
Proof. intros H. js_run. done. Qed.

(** ** What a handler leaves alone *)

Definition same {A} (f : State → A) (s s' : State) : Prop := f s' = f s.

Lemma same_refl {A} (f : State → A) s : same f s s.
Proof. done. Qed.

Lemma same_trans {A} (f : State → A) s1 s2 s3 :
  same f s1 s2 → same f s2 s3 → same f s1 s3.
Proof. unfold same. congruence. Qed.

Ltac relates_same f :=
  repeat relates_step (same_refl f) (same_trans f);
  try match goal with
      | |- same _ _ (with_document (put ?r _) _) => by destruct r
      | |- same _ _ _ => reflexivity
      end.

Lemma same_callback {A} (f : State → A) c s :
  relates (same f) c → (∀ e s', f (report e s') = f s') → f (callback c s) = f s.
Proof.
  intros Hc Hr.
  exact (relates_callback (same f) (same_trans f) c s Hc Hr).
Qed.

Lemma same_fold_left {A B} (f : State → A) (g : State → B → State) l s :
  (∀ s' x, f (g s' x) = f s') → f (fold_left g l s) = f s.
Proof.
  intros H. exact (relates_fold_left (same f) (same_refl f) (same_trans f) g l s H).
Qed.

Lemma same_deliver {A} (f : State → A) path s :
  (∀ l t, relates (same f) (handle l t)) → (∀ e s', f (report e s') = f s') →
  f (deliver path s) = f s.
Proof.
  intros Hh Hr.
  exact (relates_deliver (same f) (same_refl f) (same_trans f) path s Hh Hr).
Qed.

(** The timer callback touches the two step containers only. *)
Definition but_steps (s : State) :=
  (menuToggle (document s), mainNav (document s), modal (document s),
   amountBtns (document s), processBtn (document s), counters (document s),
   listeners (host s), observing (host s), timers (host s), rafQueue (host s),
   clock (host s), effects (host s), hasAnimated s, animateCalls s).

Lemma fire_but_steps cb : relates (same but_steps) (fire cb).
Proof. destruct cb; simpl. js_handlers. relates_same but_steps. Qed.

(** StatsAnimation's variables belong to the observer callback alone. *)
Definition stats_vars (s : State) := (hasAnimated s, animateCalls s, observing (host s)).

Lemma handle_stats_vars l t : relates (same stats_vars) (handle l t).
Proof. destruct l; simpl; js_handlers; relates_same stats_vars. Qed.

Lemma updateCount_stats_vars cl : relates (same stats_vars) (StatsAnimation.updateCount cl).
Proof. js_stats. relates_same stats_vars. Qed.

Lemma fire_stats_vars cb : relates (same stats_vars) (fire cb).
Proof. destruct cb; simpl. js_handlers. relates_same stats_vars. Qed.

Lemma step_stats_vars s ev :
  (∀ entries, ev ≠ Intersection entries) → stats_vars (step s ev) = stats_vars s.
Proof.
  intros Hev. destruct ev as [t inModal|path|entries| |ms]; simpl.
  - assert (H : ∀ on s', stats_vars (dispatch t on s') = stats_vars s').
    { intros on s'. unfold dispatch. apply same_fold_left. intros s'' [t' l].
      case_decide; [|done]. apply same_callback; [apply handle_stats_vars|done]. }
    unfold click. destruct (_ && _); by rewrite ?H.
  - apply same_deliver; [apply handle_stats_vars|done].
  - by destruct (Hev entries).
  - unfold frame. etrans; [apply same_fold_left|done].
    intros s' cl. apply same_callback; [apply updateCount_stats_vars|done].
  - unfold elapse. etrans; [apply same_fold_left|done].
    intros s' tm. apply same_callback; [apply fire_stats_vars|done].
Qed.

(** ** Computations that cannot throw *)

Definition safe {A} (c : M A) : Prop := ∀ s, throws c s = false.

Lemma safe_ret {A} (a : A) : safe (ret a).
Proof. done. Qed.

Lemma safe_read {A} (f : State → A) : safe (read f).
Proof. done. Qed.

Lemma safe_query {A} (f : Dom → A) : safe (query f).
Proof. done. Qed.

Lemma safe_modify f : safe (modify f).
Proof. done. Qed.

Lemma safe_bind {A B} (c : M A) (k : A → M B) :
  safe c → (∀ a, safe (k a)) → safe (bind c k).
Proof.
  intros Hc Hk s. specialize (Hc s). unfold throws, bind in *.
  destruct (c s) as [[a|e] s']; simpl in *; [apply Hk | done].
Qed.

Lemma safe_forEach {A} (l : list A) (f : A → M unit) :
  (∀ x, safe (f x)) → safe (forEach l f).
Proof.
  intros Hf. induction l; simpl; [apply safe_ret | by apply safe_bind].
Qed.

Lemma safe_if {A} (b : bool) (c1 c2 : M A) : safe c1 → safe c2 → safe (if b then c1 else c2).
Proof. by destruct b. Qed.

Lemma safe_normal (c : M unit) s : safe c → c s = (Normal tt, exec c s).
Proof.
  intros H. specialize (H s). unfold throws, exec in *.
  by destruct (c s) as [[[]|e] s'].
Qed.

Lemma safe_callback (c : M unit) s : safe c → callback c s = exec c s.
Proof. intros H. unfold callback. by rewrite (safe_normal c s H). Qed.

Ltac safe_step :=
  lazymatch goal with
  | |- safe (bind _ _) => apply safe_bind; [|intros ?]
  | |- safe (ret _) => apply safe_ret
  | |- safe (read _) => apply safe_read
  | |- safe (query _) => apply safe_query
  | |- safe (modify _) => apply safe_modify
  | |- safe (forEach _ _) => apply safe_forEach; intros ?
  | |- safe (if _ then _ else _) => apply safe_if
  | |- safe (match ?x with _ => _ end) => destruct x
  end.

Lemma updateCount_safe cl : safe (StatsAnimation.updateCount cl).
Proof. js_stats. repeat safe_step. Qed.

Lemma animateCounters_safe : safe StatsAnimation.animateCounters.
Proof. js_stats. repeat safe_step. Qed.

Lemma onIntersection_safe entries : safe (StatsAnimation.onIntersection entries).
Proof. js_stats. repeat safe_step. Qed.

Lemma onAmountClick_safe i : safe (DonationModal.onAmountClick i).
Proof. js_handlers. repeat safe_step. Qed.

(** ** The one-shot guard *)

Lemma animateCounters_vars s :
  stats_vars (exec StatsAnimation.animateCounters s)
  = (hasAnimated s, S (animateCalls s), observing (host s)).
Proof.
  unfold StatsAnimation.animateCounters, exec. unfold bind at 1, modify at 1.
  match goal with |- stats_vars (snd (?c ?s0)) = _ =>
    assert (H : relates (same stats_vars) c) by (js_stats; relates_same stats_vars);
    exact (H s0)
  end.
Qed.

Definition triggers (entries : list Entry) : bool := existsb isIntersecting entries.

Lemma onIntersection_vars entries s :
  stats_vars (exec (StatsAnimation.onIntersection entries) s)
  = if triggers entries && negb (hasAnimated s)
    then (true, S (animateCalls s), false)
    else stats_vars s.
Proof.
  revert s. unfold StatsAnimation.onIntersection.
  induction entries as [|[b] entries IH]; intros s; [done|].
  unfold exec in *. simpl. unfold bind at 1, bind at 1, read at 1. simpl.
  destruct b, (hasAnimated s) eqn:Ha; simpl.
  - unfold ret at 1. rewrite IH, Ha. by rewrite andb_false_r.
  - unfold bind at 1. rewrite (safe_normal _ _ animateCounters_safe).
    unfold bind at 1, modify at 1, unobserve, modify at 1.
    rewrite IH. simpl. rewrite andb_false_r.
    pose proof (animateCounters_vars s) as Hv. unfold stats_vars in *.
    unfold_with; simpl. congruence.
  - unfold ret at 1. rewrite IH, Ha. simpl. by rewrite andb_false_r.
  - unfold ret at 1. rewrite IH, Ha. by destruct (triggers entries).
Qed.

Definition intersecting (ev : Event) : bool :=
  match ev with
  | Intersection entries => triggers entries
  | _ => false
  end.

Lemma step_vars s ev :
  stats_vars (step s ev)
  = if intersecting ev && observing (host s) && negb (hasAnimated s)
    then (true, S (animateCalls s), false)
    else stats_vars s.
Proof.
  destruct ev as [t inModal|path|entries| |ms];
    try (rewrite step_stats_vars by done; done).
  simpl. unfold intersect. destruct (observing (host s)) eqn:Ho.
  - rewrite (safe_callback _ _ (onIntersection_safe entries)).
    rewrite onIntersection_vars. by rewrite andb_true_r.
  - by rewrite andb_false_r.
Qed.

Lemma run_vars_done evs s :
  observing (host s) = false → stats_vars (run evs s) = stats_vars s.
Proof.
  revert s. induction evs as [|ev evs IH]; intros s Ho; [done|].
  simpl. pose proof (step_vars s ev) as Hs.
  rewrite Ho, andb_false_r in Hs. simpl in Hs.
  rewrite IH; [done|]. unfold stats_vars in Hs. congruence.
Qed.

Lemma run_vars_fresh evs s :
  observing (host s) = true → hasAnimated s = false →
  stats_vars (run evs s)
  = if existsb intersecting evs
    then (true, S (animateCalls s), false)
    else (false, animateCalls s, true).
Proof.
  revert s. induction evs as [|ev evs IH]; intros s Ho Ha.
  - simpl. unfold stats_vars. by rewrite Ho, Ha.
  - simpl. pose proof (step_vars s ev) as Hs. rewrite Ho, Ha in Hs.
    rewrite !andb_true_r in Hs. destruct (intersecting ev); simpl.
    + rewrite run_vars_done; [done|]. unfold stats_vars in Hs. congruence.
    + unfold stats_vars in Hs. rewrite IH by congruence.
      replace (animateCalls (step s ev)) with (animateCalls s) by congruence. done.
Qed.

(** ** Amount selection *)

Definition unmark (e : Element) : Element :=
  with_classList (λ cs, cs ∖ {["selected"]}) e.
Definition mark (e : Element) : Element :=
  with_classList (λ cs, cs ∪ {["selected"]}) e.

Lemma forEach_updateAmountBtn f l s :
  forEach l (λ b, updateAmountBtn b f) s
  = (Normal tt,
     with_document (with_amountBtns (λ btns, foldl (λ bs b, alter f b bs) btns l)) s).
Proof.
  revert s. induction l as [|b l IH]; intros s; simpl.
  - by destruct s as [[] h a n].
  - unfold bind, updateAmountBtn at 1, modify. rewrite IH.
    by destruct s as [[] h a n].
Qed.

Lemma lookup_alter_seq {A} (f : A → A) (l : list A) a n i :
  foldl (λ bs b, alter f b bs) l (seq a n) !! i
  = if decide (a ≤ i < a + n) then f <$> l !! i else l !! i.
Proof.
  revert a l. induction n as [|n IH]; intros a l; simpl.
  - case_decide; [lia|done].
  - rewrite IH. destruct (decide (a = i)) as [->|Hne].
    + rewrite list_lookup_alter_eq. repeat case_decide; try lia; done.
    + rewrite list_lookup_alter_ne by done. repeat case_decide; try lia; done.
Qed.

Lemma alter_all {A} (f : A → A) (l : list A) :
  foldl (λ bs b, alter f b bs) l (seq 0 (length l)) = f <$> l.
Proof.
  apply list_eq. intros i. rewrite lookup_alter_seq, list_lookup_fmap.
  case_decide as H; [done|].
  rewrite lookup_ge_None_2 by lia. done.
Qed.

Lemma onAmountClick_spec btn s :
  DonationModal.onAmountClick btn s
  = (Normal tt,
     with_document (with_amountBtns (λ btns, alter mark btn (unmark <$> btns))) s).
Proof.
  unfold DonationModal.onAmountClick. unfold bind at 1, indices, query, read.
  unfold bind at 1. rewrite forEach_updateAmountBtn.
  unfold updateAmountBtn, modify. unfold_with; simpl.
  by rewrite alter_all.
Qed.

(** Whether amount button [i] carries the marker. *)
Definition selected (s : State) (i : nat) : bool :=
  match amountBtns (document s) !! i with
  | Some e => hasClass "selected" e
  | None => false
  end.

Lemma selected_onAmountClick btn s i :
  btn < length (amountBtns (document s)) →
  selected (exec (DonationModal.onAmountClick btn) s) i = bool_decide (i = btn).
Proof.
  intros Hlt. unfold exec. rewrite onAmountClick_spec. unfold selected; simpl.
  destruct (decide (i = btn)) as [->|Hne].
  - rewrite bool_decide_eq_true_2 by done.
    rewrite list_lookup_alter_eq, list_lookup_fmap.
    destruct (lookup_lt_is_Some_2 _ _ Hlt) as [e ->]. simpl. apply hasClass_add.
  - rewrite bool_decide_eq_false_2 by done.
    rewrite list_lookup_alter_ne, list_lookup_fmap by done.
    destruct (amountBtns (document s) !! i); simpl; [apply hasClass_remove|done].
Qed.

Lemma click_amountBtn d s i inModal :
  running d s →
  step s (Click (TAmountBtn i) inModal)
  = if present (modal d) && (i <? length (amountBtns d))
    then exec (DonationModal.onAmountClick i) s
    else s.
Proof.
  intros Hr. simpl. rewrite (click_reaches d) by (done || by apply running_listeners).
  rewrite handlers_on_amountBtn. destruct (_ && _); [|done].
  simpl. unfold invoke. simpl. apply safe_callback, onAmountClick_safe.
Qed.

Lemma running_amountBtns d s :
  running d s → length (amountBtns (document s)) = length (amountBtns d).
Proof. intros H. rewrite (shape_amountBtns _ _ H). by rewrite start_spec. Qed.

Definition amount_clicks (clicks : list (nat * bool)) : list Event :=
  map (λ c, Click (TAmountBtn (fst c)) (snd c)) clicks.

Definition at_most_one_selected (s : State) : Prop :=
  ∀ i j, selected s i = true → selected s j = true → i = j.

Lemma at_most_one_step d s c :
  running d s → at_most_one_selected s →
  at_most_one_selected (step s (Click (TAmountBtn (fst c)) (snd c))).
Proof.
  intros Hr Hs. rewrite (click_amountBtn d) by done.
  destruct (present (modal d) && (fst c <? length (amountBtns d))) eqn:E; [|done].
  apply andb_true_iff in E as [_ E%Nat.ltb_lt].
  intros i j. rewrite !selected_onAmountClick by (by rewrite (running_amountBtns d)).
  intros ->%bool_decide_eq_true ->%bool_decide_eq_true. done.
Qed.

Lemma run_app evs1 evs2 s : run (evs1 ++ evs2) s = run evs2 (run evs1 s).
Proof. apply fold_left_app. Qed.

Lemma running_run_from d evs s : running d s → running d (run evs s).
Proof. intros H. eapply shape_trans; [exact H | apply shape_run]. Qed.

Lemma at_most_one_run d s clicks :
  running d s → at_most_one_selected s →
  at_most_one_selected (run (amount_clicks clicks) s).
Proof.
  revert s. induction clicks as [|c clicks IH]; intros s Hr Hs; [done|].
  change (at_most_one_selected
            (run (amount_clicks clicks) (step s (Click (TAmountBtn (fst c)) (snd c))))).
  apply IH; [by apply running_step | by apply (at_most_one_step d)].
Qed.

(** ** The selection is never read *)

(** The state with the "selected" marker wiped from every amount button. *)
Definition forget_selection (s : State) : State :=
  with_document (with_amountBtns (fmap unmark)) s.

(** Two states that differ at most in which amount buttons are marked. *)
Definition agree (s1 s2 : State) : Prop := forget_selection s1 = forget_selection s2.

Definition blind {A} (c : M A) : Prop :=
  ∀ s1 s2, agree s1 s2 → fst (c s1) = fst (c s2) ∧ agree (snd (c s1)) (snd (c s2)).

Lemma agree_on {A} (f : State → A) s1 s2 :
  (∀ s, f (forget_selection s) = f s) → agree s1 s2 → f s1 = f s2.
Proof. intros Hf H. rewrite <- (Hf s1), <- (Hf s2). by rewrite H. Qed.

Lemma blind_ret {A} (a : A) : blind (ret a).
Proof. by intros s1 s2 H. Qed.

Lemma blind_throw {A} (e : Error) : blind (@throw A e).
Proof. by intros s1 s2 H. Qed.

Lemma blind_bind {A B} (c : M A) (k : A → M B) :
  blind c → (∀ a, blind (k a)) → blind (bind c k).
Proof.
  intros Hc Hk s1 s2 H. destruct (Hc s1 s2 H) as [Hr Hs]. unfold bind.
  destruct (c s1) as [[a1|e1] s1'], (c s2) as [[a2|e2] s2']; simpl in *;
    try discriminate.
  - injection Hr as ->. by apply Hk.
  - split; [congruence | done].
Qed.

Lemma blind_read {A} (f : State → A) :
  (∀ s, f (forget_selection s) = f s) → blind (read f).
Proof. intros Hf s1 s2 H. split; [|done]. simpl. f_equal. by apply agree_on. Qed.

Lemma blind_query {A} (f : Dom → A) :
  (∀ d, f (with_amountBtns (fmap unmark) d) = f d) → blind (query f).
Proof. intros Hf. apply blind_read. intros s. apply Hf. Qed.

Lemma blind_modify_commute g :
  (∀ s, forget_selection (g s) = g (forget_selection s)) → blind (modify g).
Proof.
  intros Hg s1 s2 H. split; [done|]. unfold agree in *. simpl. by rewrite !Hg, H.
Qed.

Lemma blind_modify_absorb g :
  (∀ s, forget_selection (g s) = forget_selection s) → blind (modify g).
Proof. intros Hg s1 s2 H. split; [done|]. unfold agree in *. simpl. by rewrite !Hg. Qed.

Lemma blind_deref r : blind (deref r).
Proof.
  intros s1 s2 H. unfold deref.
  rewrite (agree_on (λ s, get r (document s)) s1 s2) by (done || by destruct r).
  by destruct (get r (document s2)).
Qed.

Lemma blind_update r f : blind (update r f).
Proof.
  apply blind_bind; [apply blind_deref|]. intros e.
  apply blind_modify_commute. intros s. by destruct r.
Qed.

Lemma blind_forEach {A} (l : list A) (f : A → M unit) :
  (∀ x, blind (f x)) → blind (forEach l f).
Proof.
  intros Hf. induction l; simpl; [apply blind_ret | by apply blind_bind].
Qed.

Lemma blind_if {A} (b : bool) (c1 c2 : M A) :
  blind c1 → blind c2 → blind (if b then c1 else c2).
Proof. by destruct b. Qed.

Lemma unmark_unmark e : unmark (unmark e) = unmark e.
Proof.
  destruct e. unfold unmark, with_classList; simpl. f_equal.
  apply set_eq. intros x. rewrite !elem_of_difference. tauto.
Qed.

Lemma unmark_mark e : unmark (mark e) = unmark e.
Proof.
  destruct e. unfold unmark, mark, with_classList; simpl. f_equal.
  apply set_eq. intros x. rewrite !elem_of_difference, elem_of_union. tauto.
Qed.

Lemma fmap_alter_absorb {A} (f g : A → A) i (l : list A) :
  (∀ x, f (g x) = f x) → f <$> alter g i l = f <$> l.
Proof.
  intros H. apply list_eq. intros j. rewrite !list_lookup_fmap.
  destruct (decide (i = j)) as [->|Hne].
  - rewrite list_lookup_alter_eq. destruct (l !! j); simpl; by rewrite ?H.
  - by rewrite list_lookup_alter_ne.
Qed.

Lemma forget_updateAmountBtn f i s :
  (∀ e, unmark (f e) = unmark e) →
  forget_selection (with_document (with_amountBtns (alter f i)) s) = forget_selection s.
Proof.
  intros H. destruct s as [[] h a n]. unfold forget_selection; unfold_with; simpl.
  by rewrite fmap_alter_absorb.
Qed.

Ltac blind_step :=
  lazymatch goal with
  | |- blind (bind _ _) => apply blind_bind; [|intros ?]
  | |- blind (ret _) => apply blind_ret
  | |- blind (throw _) => apply blind_throw
  | |- blind (read _) => apply blind_read; intros ?
  | |- blind (query _) => apply blind_query; intros ?
  | |- blind (deref _) => apply blind_deref
  | |- blind (forEach _ _) => apply blind_forEach; intros ?
  | |- blind (update _ _) => apply blind_update
  | |- blind (modify (with_document (with_amountBtns (alter _ _)))) =>
      apply blind_modify_absorb; intros ?; apply forget_updateAmountBtn;
      first [apply unmark_unmark | apply unmark_mark]
  | |- blind (modify _) => apply blind_modify_commute; intros ?
  | |- blind (if _ then _ else _) => apply blind_if
  | |- blind (match ?x with _ => _ end) => destruct x
  end.

Ltac blind_leaf :=
  try match goal with
      | |- forget_selection _ = _ => reflexivity
      | |- _ (forget_selection ?s) = _ => reflexivity
      | |- context [with_amountBtns _ ?d] =>
          destruct d; simpl; by rewrite ?length_fmap
      end.

Lemma handle_blind l t : blind (handle l t).
Proof.
  destruct l; simpl; js_handlers; repeat blind_step; blind_leaf.
Qed.

Lemma updateCount_blind cl : blind (StatsAnimation.updateCount cl).
Proof. js_stats; repeat blind_step; blind_leaf. Qed.

Lemma onIntersection_blind entries : blind (StatsAnimation.onIntersection entries).
Proof. js_stats; repeat blind_step; blind_leaf. Qed.

Lemma fire_blind cb : blind (fire cb).
Proof. destruct cb; simpl; js_handlers; repeat blind_step; blind_leaf. Qed.

Lemma agree_refl s : agree s s.
Proof. done. Qed.

Lemma agree_trans s1 s2 s3 : agree s1 s2 → agree s2 s3 → agree s1 s3.
Proof. unfold agree. congruence. Qed.

Lemma agree_host s1 s2 : agree s1 s2 → host s1 = host s2.
Proof. by apply (agree_on host). Qed.

Lemma agree_callback c s1 s2 :
  blind c → agree s1 s2 → agree (callback c s1) (callback c s2).
Proof.
  intros Hc H. destruct (Hc s1 s2 H) as [Hr Hs]. unfold callback.
  destruct (c s1) as [[[]|e1] s1'], (c s2) as [[[]|e2] s2']; simpl in *;
    try discriminate; [done|].
  injection Hr as ->. unfold agree in *.
  change (report e2 (forget_selection s1') = report e2 (forget_selection s2')).
  by rewrite Hs.
Qed.

Lemma agree_fold_left {A} (f : State → A → State) l s1 s2 :
  (∀ x s s', agree s s' → agree (f s x) (f s' x)) →
  agree s1 s2 → agree (fold_left f l s1) (fold_left f l s2).
Proof.
  intros Hf. revert s1 s2. induction l as [|x l IH]; intros s1 s2 H; simpl; [done|].
  by apply IH, Hf.
Qed.

Lemma agree_dispatch target on s1 s2 :
  agree s1 s2 → agree (dispatch target on s1) (dispatch target on s2).
Proof.
  intros H. unfold dispatch. rewrite (agree_host s1 s2 H).
  apply agree_fold_left; [|done]. intros [t l] s s' Hs.
  case_decide; [|done]. by apply agree_callback, Hs; apply handle_blind.
Qed.

Lemma agree_dispatch_all target names s1 s2 :
  agree s1 s2 → agree (dispatch_all target names s1) (dispatch_all target names s2).
Proof.
  intros H. unfold dispatch_all. rewrite (agree_host s1 s2 H).
  apply agree_fold_left; [|done]. intros [t l] s s' Hs.
  destruct (bool_decide _); [|done]. by apply agree_callback, Hs; apply handle_blind.
Qed.

Lemma agree_step s1 s2 ev : agree s1 s2 → agree (step s1 ev) (step s2 ev).
Proof.
  intros H. destruct ev as [t inModal|path|entries| |ms]; simpl.
  - unfold click. destruct (_ && _); by repeat apply agree_dispatch.
  - unfold deliver. apply agree_fold_left; [|done].
    intros names s s' Hs. by apply agree_dispatch_all.
  - unfold intersect. rewrite (agree_host s1 s2 H).
    destruct (observing _); [|done].
    by apply agree_callback; [apply onIntersection_blind|].
  - unfold frame. rewrite (agree_host s1 s2 H). apply agree_fold_left.
    + intros cl s s' Hs. by apply agree_callback; [apply updateCount_blind|].
    + unfold agree in *.
      change (with_host (with_rafQueue (λ _, [])) (forget_selection s1)
              = with_host (with_rafQueue (λ _, [])) (forget_selection s2)).
      by rewrite H.
  - unfold elapse. rewrite (agree_host s1 s2 H). apply agree_fold_left.
    + intros tm s s' Hs. by apply agree_callback; [apply fire_blind|].
    + unfold agree in *.
      match goal with |- forget_selection (with_host ?f s1) = _ =>
        change (with_host f (forget_selection s1) = with_host f (forget_selection s2))
      end.
      by rewrite H.
Qed.

Lemma agree_run evs s1 s2 : agree s1 s2 → agree (run evs s1) (run evs s2).
Proof.
  intros H. unfold run. apply agree_fold_left; [|done].
  intros ev s s' Hs. by apply agree_step.
Qed.

Lemma agree_onAmountClick i s : agree (exec (DonationModal.onAmountClick i) s) s.
Proof.
  unfold exec. rewrite onAmountClick_spec. unfold agree, forget_selection.
  destruct s as [[] h a n]. unfold_with; simpl. do 2 f_equal.
  rewrite (fmap_alter_absorb unmark mark) by apply unmark_mark.
  rewrite <- list_fmap_compose. apply list_fmap_ext. intros _ e _. apply unmark_unmark.
Qed.

Lemma agree_amount_clicks d s clicks :
  running d s → agree (run (amount_clicks clicks) s) s.
Proof.
  revert s. induction clicks as [|c clicks IH]; intros s Hr; [done|].
  change (agree (run (amount_clicks clicks) (step s (Click (TAmountBtn (fst c)) (snd c)))) s).
  eapply agree_trans; [apply IH; by apply running_step|].
  rewrite (click_amountBtn d) by done.
  destruct (_ && _); [apply agree_onAmountClick | done].
Qed.

(** ** Timers: nothing cancels one *)

(** No handler moves the clock or removes a pending timer. *)
Record timers_kept (s s' : State) : Prop := mkKept {
  kept_clock : clock (host s') = clock (host s);
  kept_timers : timers (host s) ⊆ timers (host s') }.

Lemma timers_kept_refl s : timers_kept s s.
Proof. by split. Qed.

Lemma timers_kept_trans s1 s2 s3 :
  timers_kept s1 s2 → timers_kept s2 s3 → timers_kept s1 s3.
Proof. intros [] []. split; [congruence | by etrans]. Qed.

Ltac relates_timers :=
  repeat relates_step timers_kept_refl timers_kept_trans;
  try match goal with
      | |- timers_kept _ (with_document (put ?r _) _) => by destruct r
      | |- timers_kept _ _ =>
          split; [done | simpl; first [done | by apply list_subseteq_app_l]]
      end.

Lemma handle_timers l t : relates timers_kept (handle l t).
Proof. destruct l; simpl; js_handlers; relates_timers. Qed.

Lemma updateCount_timers cl : relates timers_kept (StatsAnimation.updateCount cl).
Proof. js_stats; relates_timers. Qed.

Lemma onIntersection_timers entries :
  relates timers_kept (StatsAnimation.onIntersection entries).
Proof. js_stats; relates_timers. Qed.

Lemma fire_timers cb : relates timers_kept (fire cb).
Proof. destruct cb; simpl; js_handlers; relates_timers. Qed.

Lemma timers_kept_callback c s : relates timers_kept c → timers_kept s (callback c s).
Proof.
  intros H. apply relates_callback; [apply timers_kept_trans | exact H | by split].
Qed.

(** The virtual time an event takes. *)
Definition duration_of (ev : Event) : nat :=
  match ev with
  | Elapse ms => ms
  | _ => 0
  end.

Definition elapsed (evs : list Event) : nat := sum_list (duration_of <$> evs).

Lemma step_timers s ev :
  clock (host (step s ev)) = clock (host s) + duration_of ev
  ∧ ∀ tm, tm ∈ timers (host s) → clock (host s) + duration_of ev < fst tm →
          tm ∈ timers (host (step s ev)).
Proof.
  assert (Hfold : ∀ {A} (f : State → A → State) (l : list A) s0,
    (∀ s' x, timers_kept s' (f s' x)) → timers_kept s0 (fold_left f l s0)).
  { intros A f l s0. apply relates_fold_left;
      [apply timers_kept_refl | apply timers_kept_trans]. }
  assert (Hdispatch : ∀ t on s', timers_kept s' (dispatch t on s')).
  { intros t on s'. apply Hfold. intros s'' [t' l].
    case_decide; [|apply timers_kept_refl]. apply timers_kept_callback, handle_timers. }
  assert (Hkept : ∀ s', timers_kept s s' → duration_of ev = 0 →
    clock (host s') = clock (host s) + duration_of ev
    ∧ ∀ tm, tm ∈ timers (host s) → clock (host s) + duration_of ev < fst tm →
            tm ∈ timers (host s')).
  { intros s' [Hc Ht] ->. split; [lia|]. intros tm Hin _. by apply Ht. }
  destruct ev as [t inModal|path|entries| |ms]; simpl.
  - apply Hkept; [|done]. unfold click. destruct (_ && _); [|apply Hdispatch].
    eapply timers_kept_trans; apply Hdispatch.
  - apply Hkept; [|done].
    apply (relates_deliver timers_kept timers_kept_refl timers_kept_trans);
      [apply handle_timers | by split].
  - apply Hkept; [|done]. unfold intersect.
    destruct (observing _); [|apply timers_kept_refl].
    apply timers_kept_callback, onIntersection_timers.
  - apply Hkept; [|done]. unfold frame.
    match goal with |- timers_kept s (fold_left _ _ ?s1) =>
      apply timers_kept_trans with s1; [by split|] end.
    apply Hfold. intros s' cl. apply timers_kept_callback, updateCount_timers.
  - unfold elapse.
    match goal with |- context [fold_left ?f ?l ?s1] =>
      destruct (Hfold _ f l s1) as [Hc Ht] end.
    { intros s' tm. apply timers_kept_callback, fire_timers. }
    simpl in Hc, Ht. split; [done|]. intros tm Hin Hlt. apply Ht.
    apply list_elem_of_filter. split; [|done].
    unfold due. apply Nat.leb_gt. simpl in *. lia.
Qed.

Lemma run_cons ev evs s : run (ev :: evs) s = run evs (step s ev).
Proof. done. Qed.

Lemma run_timers evs s :
  clock (host (run evs s)) = clock (host s) + elapsed evs
  ∧ ∀ tm, tm ∈ timers (host s) → clock (host s) + elapsed evs < fst tm →
          tm ∈ timers (host (run evs s)).
Proof.
  revert s. induction evs as [|ev evs IH]; intros s.
  - unfold elapsed; simpl. split; [lia|done].
  - rewrite run_cons. destruct (IH (step s ev)) as [Hc Ht].
    destruct (step_timers s ev) as [Hc' Ht'].
    change (elapsed (ev :: evs)) with (duration_of ev + elapsed evs).
    split; [lia|].
    intros tm Hin Hlt. apply Ht; [apply Ht'; [done|lia] | lia].
Qed.

(** Firing: every due callback hides step 1 and shows step 2. *)
Lemma fire_all (ready : list (nat * Timeout)) s e1 e2 :
  step1 (document s) = Some e1 → step2 (document s) = Some e2 →
  let s' := fold_left (λ s'' tm, callback (fire (snd tm)) s'') ready s in
  reported (host s') = reported (host s)
  ∧ ∃ e1' e2', step1 (document s') = Some e1' ∧ step2 (document s') = Some e2'
      ∧ (ready ≠ [] → display e1' = "none" ∧ display e2' = "block").
Proof.
  revert s e1 e2. induction ready as [|[t []] ready IH]; intros s e1 e2 H1 H2; simpl.
  - split; [done|]. by exists e1, e2.
  - assert (Hcb : callback DonationModal.onTimeout s
                  = with_document (put Step2 (with_display "block" e2))
                      (with_document (put Step1 (with_display "none" e1)) s))
      by (unfold callback; by rewrite (onTimeout_spec s e1 e2)).
    rewrite Hcb.
    match goal with |- context [fold_left _ ready ?s1] =>
      destruct (IH s1 (with_display "none" e1) (with_display "block" e2))
        as (Hr & e1' & e2' & H1' & H2' & Hd); [done..|] end.
    split; [by rewrite Hr|]. exists e1', e2'. split; [done|]. split; [done|].
    intros _. destruct ready as [|tm ready']; [|by apply Hd].
    simpl in H1', H2'. by simplify_eq.
Qed.

Lemma elapse_fires s ms tm e1 e2 :
  tm ∈ timers (host s) → fst tm ≤ clock (host s) + ms →
  step1 (document s) = Some e1 → step2 (document s) = Some e2 →
  let s' := step s (Elapse ms) in
  display <$> step1 (document s') = Some "none"
  ∧ display <$> step2 (document s') = Some "block"
  ∧ processBtn (document s') = processBtn (document s)
  ∧ reported (host s') = reported (host s)
  ∧ tm ∉ timers (host s').
Proof.
  intros Hin Hdue H1 H2. simpl. unfold elapse.
  set (t := clock (host s) + ms).
  set (ready := filter (λ tm', due t tm' = true) (timers (host s))).
  set (s0 := with_host _ s).
  assert (Hready : ready ≠ []).
  { assert (tm ∈ ready) as Hr; [|by intros E; rewrite E in Hr; apply not_elem_of_nil in Hr].
    apply list_elem_of_filter. split; [|done]. unfold due. by apply Nat.leb_le. }
  destruct (fire_all ready s0 e1 e2) as (Hrep & e1' & e2' & H1' & H2' & Hd); [done..|].
  destruct (Hd Hready) as [Hd1 Hd2].
  assert (Hsame : but_steps (fold_left (λ s'' tm', callback (fire (snd tm')) s'') ready s0)
                  = but_steps s0).
  { apply same_fold_left. intros s' tm'.
    apply same_callback; [apply fire_but_steps | done]. }
  unfold but_steps in Hsame. simplify_eq.
  rewrite H1', H2'. simpl. rewrite Hd1, Hd2. repeat split; try done.
  match goal with H : timers _ = timers (host s0) |- _ => rewrite H end.
  simpl. rewrite list_elem_of_filter. intros [Hnd _].
  unfold due in Hnd. apply Nat.leb_gt in Hnd. unfold t in Hnd. lia.
Qed.

(** ** Clicks on a running page *)

Lemma click_processBtn d s b inModal :
  running d s → present (modal d) = true → processBtn (document s) = Some b →
  step s (Click TProcessBtn inModal)
  = with_host (with_timers (λ ts, ts ++ [(clock (host s) + 2000, ShowSuccess)]))
      (with_document (put ProcessBtn (processing_button b)) s).
Proof.
  intros Hr Hm Hb. simpl. rewrite (click_reaches d) by (done || by apply running_listeners).
  rewrite handlers_on_processBtn, Hm.
  pose proof (running_present d s ProcessBtn Hr) as Hp. simpl in Hp.
  rewrite Hb in Hp. rewrite <- Hp. simpl. unfold invoke, callback. simpl.
  by rewrite (onProcessClick_spec s b).
Qed.

Lemma click_openButton d s i inModal :
  running d s → present (modal d) = true → i < length (openButtons d) →
  step s (Click (TOpenButton i) inModal) = callback DonationModal.onOpenClick s.
Proof.
  intros Hr Hm Hi. simpl. rewrite (click_reaches d) by (done || by apply running_listeners).
  rewrite handlers_on_openButton, Hm.
  by rewrite (proj2 (Nat.ltb_lt _ _) Hi).
Qed.

Lemma running_links d s : running d s → links (document s) = links d.
Proof. intros H. rewrite (shape_links _ _ H). by rewrite start_spec. Qed.

Lemma click_link d s i href inModal :
  running d s → links d !! i = Some href →
  step s (Click (TLink i) inModal) = callback (SmoothScroll.onLinkClick href) s.
Proof.
  intros Hr Hi. simpl. rewrite (click_reaches d) by (done || by apply running_listeners).
  rewrite handlers_on_link.
  rewrite (proj2 (Nat.ltb_lt _ _) (lookup_lt_Some _ _ _ Hi)). simpl.
  unfold invoke, callback. simpl. unfold bind at 1, query, read.
  by rewrite (running_links d), Hi.
Qed.

Lemma running_present_Some d s r e :
  running d s → get r d = Some e → ∃ e', get r (document s) = Some e'.
Proof.
  intros Hr He. pose proof (running_present d s r Hr) as Hp. rewrite He in Hp.
  destruct (get r (document s)) as [e'|]; [by exists e' | done].
Qed.

Lemma running_present_back d s r e :
  running d s → get r (document s) = Some e → ∃ e', get r d = Some e'.
Proof.
  intros Hr He. pose proof (running_present d s r Hr) as Hp. rewrite He in Hp.
  destruct (get r d) as [e'|]; [by exists e' | done].
Qed.

(** ** The counting animation: one counter *)

Definition targetOf (text : string) : number := toNumber (strip_non_digits text).
Definition incrementOf (text : string) : number :=
  Number_div (targetOf text) (Number_div StatsAnimation.duration (Number_of_Z 16)).

(** [current] after [n] calls of [updateCount], as long as every call has
    found it below the target; [None] from the call on that has not. *)
Fixpoint accumulator (text : string) (n : nat) : option number :=
  match n with
  | 0 => Some (Number_of_Z 0)
  | S n =>
      match accumulator text n with
      | Some current =>
          let current' := Number_add current (incrementOf text) in
          if Number_lt current' (targetOf text) then Some current' else None
      | None => None
      end
  end.

(** The text a counter shows after [n] calls of its [updateCount], on a host
    that writes numbers with [fmt]. *)
Definition shown (fmt : number → string) (text : string) (n : nat) : string :=
  match accumulator text n with
  | Some current => fmt (Math_ceil current)
  | None => text
  end.

(** The closure of counter [i] that holds [current], and what the counter
    has queued after [n] calls. *)
Definition closureAt (i : nat) (text : string) (current : number) : Closure :=
  mkClosure i (targetOf text) text (incrementOf text) current.
Definition chainAt (i : nat) (text : string) (n : nat) : list Closure :=
  match accumulator text n with
  | Some current => [closureAt i text current]
  | None => []
  end.

(** What concerns counter [i]: its text and its pending frame callbacks. *)
Definition view (i : nat) (s : State) : option string * list Closure :=
  (innerText <$> counters (document s) !! i,
   filter (λ cl, counter cl = i) (rafQueue (host s))).

(** One call of [cl] as seen on its own counter. *)
Definition advance (fmt : number → string) (v : option string * list Closure)
    (cl : Closure) : option string * list Closure :=
  let current' := Number_add (current cl) (increment cl) in
  if Number_lt current' (target cl)
  then (Some (fmt (Math_ceil current')),
        snd v ++ [mkClosure (counter cl) (target cl) (originalText cl) (increment cl) current'])
  else (Some (originalText cl), snd v).

Lemma view_updateCount_own cl s :
  counter cl < length (counters (document s)) →
  view (counter cl) (exec (StatsAnimation.updateCount cl) s)
  = advance (localeString (document s)) (view (counter cl) s) cl.
Proof.
  intros Hlt. destruct (lookup_lt_is_Some_2 _ _ Hlt) as [e He].
  unfold exec, StatsAnimation.updateCount, advance, view.
  destruct (Number_lt _ _); js_stats; js_prims; unfold_with; simpl.
  - rewrite list_lookup_alter_eq, He, filter_app. simpl.
    rewrite filter_cons_True, filter_nil by done. done.
  - by rewrite list_lookup_alter_eq, He.
Qed.

Lemma view_updateCount_other i cl s :
  counter cl ≠ i → view i (exec (StatsAnimation.updateCount cl) s) = view i s.
Proof.
  intros Hne. unfold exec, StatsAnimation.updateCount, view.
  destruct (Number_lt _ _); js_stats; js_prims; unfold_with; simpl.
  - rewrite list_lookup_alter_ne, filter_app by done. simpl.
    rewrite filter_cons_False, filter_nil by done. by rewrite app_nil_r.
  - by rewrite list_lookup_alter_ne.
Qed.

Lemma updateCount_counters_length cl s :
  length (counters (document (exec (StatsAnimation.updateCount cl) s)))
  = length (counters (document s)).
Proof. apply (shape_counters _ _ (shape_updateCount cl s)). Qed.

Lemma updateCount_localeString cl s :
  localeString (document (exec (StatsAnimation.updateCount cl) s))
  = localeString (document s).
Proof. apply (shape_localeString _ _ (shape_updateCount cl s)). Qed.

Lemma view_frames i q s :
  i < length (counters (document s)) →
  view i (fold_left (λ s' cl, callback (StatsAnimation.updateCount cl) s') q s)
  = fold_left (advance (localeString (document s)))
              (filter (λ cl, counter cl = i) q) (view i s).
Proof.
  revert s. induction q as [|cl q IH]; intros s Hlt; simpl; [done|].
  rewrite (safe_callback _ _ (updateCount_safe cl)).
  rewrite IH by (by rewrite updateCount_counters_length).
  rewrite updateCount_localeString.
  destruct (decide (counter cl = i)) as [<-|Hne].
  - rewrite filter_cons_True by done. simpl. by rewrite view_updateCount_own.
  - rewrite filter_cons_False by done. by rewrite view_updateCount_other.
Qed.

Lemma view_frame i s :
  i < length (counters (document s)) →
  view i (frame s)
  = fold_left (advance (localeString (document s))) (snd (view i s)) (fst (view i s), []).
Proof. intros Hlt. unfold frame. by rewrite view_frames. Qed.

Lemma accumulator_stops text n :
  accumulator text n = None → accumulator text (S n) = None.
Proof. intros H. simpl. by rewrite H. Qed.

(** A frame takes counter [i] from call [n] to call [n + 1]. *)
Lemma view_frame_next i text n s :
  i < length (counters (document s)) →
  view i s = (Some (shown (localeString (document s)) text n), chainAt i text n) →
  view i (frame s)
  = (Some (shown (localeString (document s)) text (S n)), chainAt i text (S n)).
Proof.
  intros Hlt Hv. rewrite view_frame, Hv by done. simpl fst. simpl snd.
  unfold chainAt at 1. destruct (accumulator text n) as [current|] eqn:E.
  - simpl fold_left. unfold advance, shown, chainAt, closureAt.
    simpl accumulator. rewrite E. simpl.
    by destruct (Number_lt (Number_add current (incrementOf text)) (targetOf text)).
  - simpl fold_left. unfold shown, chainAt. by rewrite (accumulator_stops _ _ E), E.
Qed.

Lemma animateCounter_exec j s :
  exec (StatsAnimation.animateCounter j) s
  = match counters (document s) !! j with
    | Some e =>
        exec (StatsAnimation.updateCount (closureAt j (innerText e) (Number_of_Z 0))) s
    | None => s
    end.
Proof.
  unfold exec, StatsAnimation.animateCounter, bind, query, read. simpl.
  by destruct (counters (document s) !! j).
Qed.

Lemma animateCounter_safe j : safe (StatsAnimation.animateCounter j).
Proof. js_stats. repeat safe_step. Qed.

Lemma shape_animateCounter j : relates shape (StatsAnimation.animateCounter j).
Proof. js_stats; relates_shape; shape_leaf. Qed.

Lemma advance_first fmt i text chain :
  advance fmt (Some text, chain) (closureAt i text (Number_of_Z 0))
  = (Some (shown fmt text 1), chain ++ chainAt i text 1).
Proof.
  unfold advance, shown, chainAt, closureAt. simpl.
  destruct (Number_lt _ _); [done|].
  by rewrite app_nil_r.
Qed.

Lemma view_animateCounter i j s text :
  i < length (counters (document s)) → fst (view i s) = Some text →
  view i (exec (StatsAnimation.animateCounter j) s)
  = if decide (j = i)
    then (Some (shown (localeString (document s)) text 1),
          snd (view i s) ++ chainAt i text 1)
    else view i s.
Proof.
  intros Hlt Ht. rewrite animateCounter_exec. case_decide as E.
  - subst j. unfold view in Ht. simpl in Ht.
    destruct (counters (document s) !! i) as [e|] eqn:He; [|done].
    simpl in Ht. injection Ht as <-.
    pose proof (view_updateCount_own (closureAt i (innerText e) (Number_of_Z 0)) s Hlt)
      as Hown.
    simpl counter in Hown. rewrite Hown, <- advance_first. f_equal.
  - destruct (counters (document s) !! j); [|done].
    by rewrite view_updateCount_other.
Qed.

Lemma view_animate_range i a n s text :
  i < length (counters (document s)) → fst (view i s) = Some text →
  view i (exec (forEach (seq a n) StatsAnimation.animateCounter) s)
  = if decide (a ≤ i < a + n)
    then (Some (shown (localeString (document s)) text 1),
          snd (view i s) ++ chainAt i text 1)
    else view i s.
Proof.
  revert a s text. induction n as [|n IH]; intros a s text Hlt Ht.
  - simpl. case_decide; [lia|done].
  - simpl seq. simpl forEach. unfold exec in *. unfold bind.
    rewrite (safe_normal _ _ (animateCounter_safe a)).
    fold (exec (StatsAnimation.animateCounter a) s).
    set (s1 := exec (StatsAnimation.animateCounter a) s).
    assert (Hlt1 : i < length (counters (document s1))).
    { unfold s1, exec. by rewrite (shape_counters _ _ (shape_animateCounter a s)). }
    assert (Hfmt : localeString (document s1) = localeString (document s)).
    { unfold s1, exec. by rewrite (shape_localeString _ _ (shape_animateCounter a s)). }
    pose proof (view_animateCounter i a s text Hlt Ht) as Hv. fold s1 in Hv.
    destruct (decide (a = i)) as [->|Hne].
    + rewrite (IH (S i) s1 (shown (localeString (document s)) text 1))
        by (done || by rewrite Hv).
      rewrite Hv. repeat case_decide; try lia; done.
    + rewrite (IH (S a) s1 text) by (done || by rewrite Hv).
      rewrite Hv, Hfmt. repeat case_decide; try lia; done.
Qed.

Lemma view_animateCounters i s e :
  counters (document s) !! i = Some e →
  view i (exec StatsAnimation.animateCounters s)
  = (Some (shown (localeString (document s)) (innerText e) 1),
     snd (view i s) ++ chainAt i (innerText e) 1).
Proof.
  intros He. pose proof (lookup_lt_Some _ _ _ He) as Hlt.
  unfold StatsAnimation.animateCounters, exec, bind, modify, indices, query, read. simpl.
  set (s1 := with_animateCalls S s).
  pose proof (view_animate_range i 0 (length (counters (document s))) s1 (innerText e))
    as Hv.
  unfold exec in Hv. rewrite Hv.
  - case_decide; [done|]. simpl in *. lia.
  - done.
  - unfold view. simpl. by rewrite He.
Qed.

(** What the observer callback does as a whole. *)
Lemma onIntersection_exec entries s :
  exec (StatsAnimation.onIntersection entries) s
  = if triggers entries && negb (hasAnimated s)
    then with_host (with_observing false)
           (with_hasAnimated true (exec StatsAnimation.animateCounters s))
    else s.
Proof.
  revert s. unfold StatsAnimation.onIntersection.
  induction entries as [|[b] entries IH]; intros s; [done|].
  unfold exec in *. simpl forEach. unfold bind at 1, bind at 1, read at 1. simpl.
  destruct b, (hasAnimated s) eqn:Ha; simpl.
  - unfold ret at 1. rewrite IH, Ha. by rewrite andb_false_r.
  - unfold bind at 1. rewrite (safe_normal _ _ animateCounters_safe).
    unfold bind at 1, modify at 1, unobserve, modify at 1.
    rewrite IH. simpl. by rewrite andb_false_r.
  - unfold ret at 1. rewrite IH, Ha. simpl. by rewrite andb_false_r.
  - unfold ret at 1. rewrite IH, Ha. by destruct (triggers entries).
Qed.

(** Frame after frame. *)
Lemma view_frames_run fmt i text n k s :
  i < length (counters (document s)) → localeString (document s) = fmt →
  view i s = (Some (shown fmt text n), chainAt i text n) →
  view i (run (repeat AnimationFrame k) s)
  = (Some (shown fmt text (n + k)), chainAt i text (n + k)).
Proof.
  revert n s. induction k as [|k IH]; intros n s Hlt Hfmt Hv.
  - by rewrite Nat.add_0_r.
  - simpl repeat. rewrite run_cons.
    replace (n + S k) with (S n + k) by lia. apply IH.
    + by rewrite (shape_counters _ _ (shape_step s AnimationFrame)).
    + by rewrite (shape_localeString _ _ (shape_step s AnimationFrame)).
    + subst fmt. by apply view_frame_next.
Qed.

Lemma view_trigger d i e entries :
  present (statsSection d) = true → counters d !! i = Some e →
  triggers entries = true →
  view i (step (start d) (Intersection entries))
  = (Some (shown (localeString d) (innerText e) 1), chainAt i (innerText e) 1).
Proof.
  intros Hp He Ht. simpl. unfold intersect. rewrite start_spec. simpl. rewrite Hp.
  rewrite (safe_callback _ _ (onIntersection_safe entries)).
  rewrite onIntersection_exec, Ht. simpl.
  match goal with |- view i (with_host _ (with_hasAnimated _ ?s2)) = _ =>
    change (view i s2
            = (Some (shown (localeString d) (innerText e) 1), chainAt i (innerText e) 1))
  end.
  by rewrite (view_animateCounters i _ e).
Qed.

Lemma view_animation d i e entries k :
  present (statsSection d) = true → counters d !! i = Some e →
  triggers entries = true →
  view i (run (Intersection entries :: repeat AnimationFrame k) (start d))
  = (Some (shown (localeString d) (innerText e) (S k)), chainAt i (innerText e) (S k)).
Proof.
  intros Hp He Ht. rewrite run_cons.
  apply (view_frames_run (localeString d) i (innerText e) 1 k).
  - rewrite (shape_counters _ _ (shape_step (start d) (Intersection entries))).
    rewrite start_spec. simpl. by apply (lookup_lt_Some _ _ e).
  - rewrite (shape_localeString _ _ (shape_step (start d) (Intersection entries))).
    by rewrite start_spec.
  - by apply view_trigger.
Qed.


(** ** Numbers: what the operations compute *)

Lemma pow_pos_Z e : (e < 0)%Z → Z.pos (2 ^ Z.to_pos (- e)) = (2 ^ (- e))%Z.
Proof. intros He. rewrite Pos2Z.inj_pow. f_equal. apply Z2Pos.id. lia. Qed.

Lemma integer_of_value x n : integer_of x = Some n → (value x == inject_Z n)%Q.
Proof.
  destruct x as [s|s| |s m e]; simpl; try done.
  - intros [= <-]. reflexivity.
  - destruct (0 <=? e)%Z eqn:He.
    + intros [= <-]. destruct s; [|reflexivity].
      unfold Qeq. simpl. lia.
    + apply Z.leb_gt in He.
      destruct (_ =? 0)%Z eqn:Hr; [|done]. apply Z.eqb_eq in Hr.
      intros [= <-].
      assert (Hd : (0 < 2 ^ (- e))%Z) by (apply Z.pow_pos_nonneg; lia).
      pose proof (Z.div_mod (Z.pos m) (2 ^ (- e)) ltac:(lia)) as Hdm.
      destruct s; unfold Qeq; simpl; rewrite pow_pos_Z by done; nia.
Qed.

Lemma digits2_pos_lower m : (2 ^ (Z.pos (digits2_pos m) - 1) ≤ Z.pos m)%Z.
Proof.
  induction m as [m IH|m IH|]; simpl digits2_pos; [| |done].
  - rewrite Pos2Z.inj_succ. replace (Z.succ (Z.pos (digits2_pos m)) - 1)%Z
      with (Z.succ (Z.pos (digits2_pos m) - 1)) by lia.
    rewrite Z.pow_succ_r by lia. lia.
  - rewrite Pos2Z.inj_succ. replace (Z.succ (Z.pos (digits2_pos m)) - 1)%Z
      with (Z.succ (Z.pos (digits2_pos m) - 1)) by lia.
    rewrite Z.pow_succ_r by lia. lia.
Qed.

Lemma digits2_pos_bound m k :
  (0 ≤ k)%Z → (Z.pos m < 2 ^ k)%Z → (Z.pos (digits2_pos m) ≤ k)%Z.
Proof.
  intros Hk Hm. pose proof (digits2_pos_lower m) as Hl.
  destruct (Z_le_gt_dec (Z.pos (digits2_pos m)) k) as [|Hgt]; [done|].
  assert (2 ^ k ≤ 2 ^ (Z.pos (digits2_pos m) - 1))%Z by (apply Z.pow_le_mono_r; lia).
  lia.
Qed.

Lemma iter_xO_digits m k : digits2_pos (Pos.iter xO m k) = (digits2_pos m + k)%positive.
Proof.
  induction k as [|k IH] using Pos.peano_ind.
  - simpl. lia.
  - rewrite Pos.iter_succ. simpl. rewrite IH. lia.
Qed.

Lemma iter_xO_value m k : Z.pos (Pos.iter xO m k) = (Z.pos m * 2 ^ Z.pos k)%Z.
Proof.
  induction k as [|k IH] using Pos.peano_ind.
  - simpl. lia.
  - rewrite Pos.iter_succ, Pos2Z.inj_xO, IH, Pos2Z.inj_succ, Z.pow_succ_r by lia. lia.
Qed.

(** Below 2^53 every integer is a number. *)
Lemma Number_of_Z_exact n :
  (0 ≤ n < 2 ^ 53)%Z → integer_of (Number_of_Z n) = Some n.
Proof.
  intros [Hn Hlt]. destruct n as [|m|m]; [done| |lia].
  pose proof (digits2_pos_bound m 53 ltac:(lia) Hlt) as Hd.
  unfold Number_of_Z, binary_normalize, binary_round.
  set (d := digits2_pos m) in *.
  assert (Hf : fexp 53 1024 (Z.pos d + 0) = (Z.pos d - 53)%Z).
  { unfold fexp, emin. lia. }
  rewrite Hf. unfold shl_align.
  assert (Haux : ∀ mz ez, digits2_pos mz = 53%positive → (-52 ≤ ez ≤ 0)%Z →
    binary_round_aux 53 1024 false (Z.pos mz) ez loc_Exact = S754_finite false mz ez).
  { intros mz ez Hmz Hez. unfold binary_round_aux, shr_fexp. simpl Zdigits2. rewrite Hmz.
    assert (Hf' : (fexp 53 1024 (53 + ez) - ez = 0)%Z) by (unfold fexp, emin; lia).
    rewrite Hf'. simpl. rewrite Hmz.
    rewrite Hf'. simpl.
    destruct (ez <=? 1024 - 53)%Z eqn:E; [done|]. apply Z.leb_gt in E. lia. }
  destruct (Z.pos d - 53 - 0)%Z as [|k|k] eqn:Hk.
  - rewrite Haux; [|subst d; lia|lia]. simpl. f_equal. lia.
  - lia.
  - rewrite Haux.
    + simpl. assert (He : (0 <=? Z.pos d - 53)%Z = false) by (apply Z.leb_gt; lia).
      rewrite He. rewrite iter_xO_value.
      replace (- (Z.pos d - 53))%Z with (Z.pos k) by lia.
      rewrite Z.mod_mul, Z.div_mul by lia. done.
    + rewrite iter_xO_digits. fold d. lia.
    + lia.
Qed.

(** ** The counting algorithm in the words of the specification *)

Module Spec.

(** "stripping all non-digit characters from that text" *)
Definition is_decimal_digit (c : ascii) : bool :=
  match c with
  | "0" | "1" | "2" | "3" | "4" | "5" | "6" | "7" | "8" | "9" => true
  | _ => false
  end%char.

Fixpoint digits (text : string) : string :=
  match text with
  | EmptyString => EmptyString
  | String c rest => if is_decimal_digit c then String c (digits rest) else digits rest
  end.

(** "derive a numeric target": the integer that the digits write, most
    significant digit first, as a number. *)
Definition digit (c : ascii) : Z :=
  match c with
  | "1"%char => 1 | "2"%char => 2 | "3"%char => 3
  | "4"%char => 4 | "5"%char => 5 | "6"%char => 6
  | "7"%char => 7 | "8"%char => 8 | "9"%char => 9
  | _ => 0
  end%Z.

Fixpoint written (ds : string) : Z :=
  match ds with
  | EmptyString => 0
  | String c rest => digit c * 10 ^ Z.of_nat (String.length rest) + written rest
  end.

Definition target (text : string) : number := Number_of_Z (written (digits text)).

(** "a per-frame increment as target divided by (2000 ms / 16 ms)" *)
Definition increment (text : string) : number :=
  Number_div (target text) (Number_div (Number_of_Z 2000) (Number_of_Z 16)).

(** "On each animation frame, accumulate the increment; while the
    accumulated value is below target, ... schedule the next frame": the
    accumulated value after [n] frames, [None] when the animation is over. *)
Fixpoint accumulated (text : string) (n : nat) : option number :=
  match n with
  | 0 => Some (Number_of_Z 0)
  | S n =>
      match accumulated text n with
      | Some before =>
          let now := Number_add before (increment text) in
          if Number_lt now (target text) then Some now else None
      | None => None
      end
  end.

(** "the rounded-up current value": [y] is [x] rounded up when it is [x]
    itself for an [x] without a fraction, and otherwise the number of the one
    integer between [x] and [x + 1]. *)
Definition rounds_up (x y : number) : Prop :=
  match integer_of x, x with
  | None, S754_finite s _ _ =>
      ∃ n : Z, (inject_Z (n - 1) < value x)%Q ∧ (value x < inject_Z n)%Q
               ∧ y = if (n =? 0)%Z then S754_zero s else Number_of_Z n
  | _, _ => y = x
  end.

(** "display the rounded-up current value formatted with locale-appropriate
    grouping separators ...; once the accumulated value reaches or exceeds
    target, display the original captured text verbatim" *)
Definition display (fmt : number → string) (text : string) (n : nat) : string :=
  match accumulated text n with
  | Some now => fmt (Math_ceil now)
  | None => text
  end.

End Spec.

Lemma Math_ceil_rounds_up x : Spec.rounds_up x (Math_ceil x).
Proof.
  unfold Spec.rounds_up. destruct (integer_of x) as [n|] eqn:Hi.
  - destruct x; simpl; try done. simpl in Hi. by rewrite Hi.
  - destruct x as [s|s| |s m e]; try done.
    unfold Math_ceil. rewrite Hi. simpl in Hi.
    destruct (0 <=? e)%Z eqn:He; [done|]. pose proof (proj1 (Z.leb_gt _ _) He) as He'.
    destruct (_ =? 0)%Z eqn:Hr; [done|]. apply Z.eqb_neq in Hr.
    assert (Hd : (0 < 2 ^ (- e))%Z) by (apply Z.pow_pos_nonneg; lia).
    pose proof (Z.div_mod (Z.pos m) (2 ^ (- e)) ltac:(lia)) as Hdm.
    pose proof (Z.mod_pos_bound (Z.pos m) (2 ^ (- e)) Hd) as Hb.
    pose proof (Z.div_mod (Z.neg m) (2 ^ (- e)) ltac:(lia)) as Hdm'.
    pose proof (Z.mod_pos_bound (Z.neg m) (2 ^ (- e)) Hd) as Hb'.
    assert (Hr' : (Z.neg m mod 2 ^ (- e) ≠ 0)%Z).
    { intros E. apply Hr. change (Z.neg m) with (- Z.pos m)%Z in E.
      apply Z.mod_opp_l_z in E; [|lia]. rewrite Z.opp_involutive in E. done. }
    eexists. split; [|split; [|reflexivity]].
    + simpl value. rewrite He.
      destruct s; unfold Qlt; simpl; rewrite pow_pos_Z by done; nia.
    + simpl value. rewrite He.
      destruct s; unfold Qlt; simpl; rewrite pow_pos_Z by done; nia.
Qed.

Lemma is_digit_decimal c : is_digit c = Spec.is_decimal_digit c.
Proof. by destruct c as [[] [] [] [] [] [] [] []]. Qed.

Lemma strip_non_digits_spec text : strip_non_digits text = Spec.digits text.
Proof.
  unfold strip_non_digits. induction text as [|c text IH]; [done|].
  simpl list_ascii_of_string. simpl Spec.digits. rewrite <- is_digit_decimal.
  destruct (is_digit c) eqn:E.
  - rewrite filter_cons_True by done. simpl. by rewrite IH.
  - rewrite filter_cons_False by (by rewrite E). done.
Qed.

Lemma digits_decimal text :
  forallb Spec.is_decimal_digit (list_ascii_of_string (Spec.digits text)) = true.
Proof.
  induction text as [|c text IH]; [done|]. simpl.
  destruct (Spec.is_decimal_digit c) eqn:E; [|done]. simpl. by rewrite E.
Qed.

Lemma digit_value_decimal c :
  Spec.is_decimal_digit c = true → digit_value c = Spec.digit c.
Proof. by destruct c as [[] [] [] [] [] [] [] []]. Qed.

Lemma parseDigits_written ds :
  forallb Spec.is_decimal_digit (list_ascii_of_string ds) = true →
  parseDigits ds = Spec.written ds.
Proof.
  unfold parseDigits.
  assert (H : ∀ acc,
    forallb Spec.is_decimal_digit (list_ascii_of_string ds) = true →
    fold_left (λ acc c, (10 * acc + digit_value c)%Z) (list_ascii_of_string ds) acc
    = (acc * 10 ^ Z.of_nat (String.length ds) + Spec.written ds)%Z).
  { induction ds as [|c ds IH]; intros acc Hd; simpl in *; [lia|].
    apply andb_true_iff in Hd as [Hc Hd].
    rewrite IH by done. rewrite (digit_value_decimal _ Hc).
    rewrite Nat2Z.inj_succ, Z.pow_succ_r by lia. lia. }
  intros Hd. rewrite H by done. lia.
Qed.

Lemma written_nonneg ds : (0 ≤ Spec.written ds)%Z.
Proof.
  induction ds as [|c ds IH]; simpl; [done|].
  assert (0 ≤ Spec.digit c)%Z by (by destruct c as [[] [] [] [] [] [] [] []]).
  assert (0 ≤ 10 ^ Z.of_nat (String.length ds))%Z by (apply Z.pow_nonneg; lia).
  nia.
Qed.

Lemma targetOf_spec text : targetOf text = Spec.target text.
Proof.
  unfold targetOf, toNumber, Spec.target.
  by rewrite strip_non_digits_spec, parseDigits_written by apply digits_decimal.
Qed.

Lemma incrementOf_spec text : incrementOf text = Spec.increment text.
Proof. unfold incrementOf, Spec.increment. by rewrite targetOf_spec. Qed.

Lemma accumulator_spec text n : accumulator text n = Spec.accumulated text n.
Proof.
  induction n as [|n IH]; simpl; [done|].
  by rewrite IH, incrementOf_spec, targetOf_spec.
Qed.

Lemma shown_spec fmt text n : shown fmt text n = Spec.display fmt text n.
Proof. unfold shown, Spec.display. by rewrite accumulator_spec. Qed.

Lemma chainAt_spec i text n :
  chainAt i text n
  = match Spec.accumulated text n with
    | Some now => [mkClosure i (Spec.target text) text (Spec.increment text) now]
    | None => []
    end.
Proof.
  unfold chainAt, closureAt.
  by rewrite accumulator_spec, targetOf_spec, incrementOf_spec.
Qed.

Lemma accumulator_over text n k :
  accumulator text n = None → accumulator text (n + k) = None.
Proof.
  intros H. induction k as [|k IH]; [by rewrite Nat.add_0_r|].
  rewrite Nat.add_succ_r. by apply accumulator_stops.
Qed.

(** ** Digits and commas *)

Definition digit_or_comma (c : ascii) : bool := is_digit c || Ascii.eqb c ",".

(** Decimal digits and grouping commas only. *)
Definition grouped_digits (text : string) : bool :=
  forallb digit_or_comma (list_ascii_of_string text).

Lemma uint_chars_digits u : forallb is_digit (uint_chars u) = true.
Proof. induction u; simpl; auto. Qed.

Lemma group_digits l :
  forallb is_digit l = true → forallb digit_or_comma (group l) = true.
Proof.
  induction l as [|c l IH]; simpl; [done|].
  intros [Hc Hl]%andb_true_iff. unfold digit_or_comma at 1. rewrite Hc. simpl.
  destruct (_ && _); simpl; by apply IH.
Qed.

Lemma grouped_is_grouped n : grouped_digits (grouped n) = true.
Proof.
  unfold grouped, grouped_digits.
  rewrite list_ascii_of_string_of_list_ascii.
  apply group_digits, uint_chars_digits.
Qed.

Lemma grouped_digits_no_plus text :
  grouped_digits text = true → ¬ In "+"%char (list_ascii_of_string text).
Proof.
  unfold grouped_digits. rewrite forallb_forall. intros H Hin.
  by specialize (H _ Hin).
Qed.

(** The counter that starts from "1,250+", on an en-US host. *)
Lemma shown_1250 n :
  1 ≤ n < 125 → shown en_US "1,250+" n = grouped (10 * Z.of_nat n).
Proof.
  intros Hn.
  assert (H : forallb (λ n, String.eqb (shown en_US "1,250+" n) (grouped (10 * Z.of_nat n)))
                      (seq 1 124) = true) by (vm_compute; reflexivity).
  rewrite forallb_forall in H. apply String.eqb_eq, H, in_seq. lia.
Qed.

Lemma shown_1250_end fmt n : 125 ≤ n → shown fmt "1,250+" n = "1,250+".
Proof.
  intros Hn. unfold shown.
  replace n with (125 + (n - 125)) by lia.
  rewrite accumulator_over; [done|]. vm_compute. reflexivity.
Qed.

(** * The claims *)

(** Whether a string is "#" followed by a plain name: a letter, then
    letters, digits, "-" or "_".  The host of the sample pages parses these
    strings as selectors and rejects the others, as a browser does with every
    href that occurs below ("#equipo", "#nada" and "#1", and "#" alone, which
    the handler never passes on). *)
Definition is_letter (c : ascii) : bool :=
  let n := nat_of_ascii c in
  ((65 <=? n) && (n <=? 90)) || ((97 <=? n) && (n <=? 122)).
Definition id_selector (selector : string) : bool :=
  match selector with
  | String "#" (String c name) =>
      is_letter c
      && forallb (λ c, is_letter c || is_digit c || Ascii.eqb c "-" || Ascii.eqb c "_")
                 (list_ascii_of_string name)
  | _ => false
  end.

(** A page with every element the script looks for, on an en-US host. *)
Definition blank : Element := mkElement ∅ ∅ "" "" "" "" false.
Definition labelled (text : string) : Element := with_innerText text blank.
Definition sample_page : Dom :=
  mkDom (Some (with_innerHTML "☰" blank)) (Some blank) (Some blank)
        [labelled "Donar"] (Some blank)
        [labelled "10"; labelled "20"; labelled "50"]
        (Some (labelled "CONFIRMAR DONACIÓN")) (Some blank) (Some blank) (Some blank)
        ["#"; "#equipo"; "#nada"] (Some blank)
        [labelled "1,250+"; labelled "98%"] {["#equipo"]} id_selector en_US.

(** The same page without the step-1 container. *)
Definition page_without_step1 : Dom :=
  mkDom (menuToggle sample_page) (mainNav sample_page) (modal sample_page)
        (openButtons sample_page) (closeBtn sample_page) (amountBtns sample_page)
        (processBtn sample_page) None (step2 sample_page) (closeSuccessBtn sample_page)
        (links sample_page) (statsSection sample_page) (counters sample_page)
        (selectable sample_page) (validSelector sample_page) (localeString sample_page).

(** The same page without the navigation panel. *)
Definition page_without_nav : Dom :=
  mkDom (menuToggle sample_page) None (modal sample_page)
        (openButtons sample_page) (closeBtn sample_page) (amountBtns sample_page)
        (processBtn sample_page) (step1 sample_page) (step2 sample_page)
        (closeSuccessBtn sample_page) (links sample_page) (statsSection sample_page)
        (counters sample_page) (selectable sample_page)
        (validSelector sample_page) (localeString sample_page).

(** C1 (the code departs from it): with the modal root present and the
    step-1 container missing, the component is initialised all the same, and
    both a click on an open-donation trigger and the firing of the payment
    timer end in an uncaught TypeError instead of doing nothing.  [resetModal]
    and the timer callback dereference [step1] and [step2] without the guard
    that [processBtn], [closeBtn] and [closeSuccessBtn] get. *)
Theorem missing_step_container_throws :
  handlers_on (TOpenButton 0) (listeners (host (start page_without_step1))) = [OnOpen]
  ∧ DonationModal.resetModal (start page_without_step1)
    = (Throw TypeError, start page_without_step1)
  ∧ reported (host (run [Click (TOpenButton 0) false] (start page_without_step1)))
    = [TypeError]
  ∧ reported (host (run [Click TProcessBtn true; Elapse 2000] (start page_without_step1)))
    = [TypeError].
Proof.
  split; [vm_compute; reflexivity|].
  split; [apply resetModal_null_step1; vm_compute; reflexivity|].
  split; vm_compute; reflexivity.
Qed.

(** C3: the counter animation runs at most once per page load.  Whatever
    the events, [animateCounters] has been entered at most once; with the
    stats section present it has been entered exactly once as soon as one
    intersecting entry has been reported, the flag is then set and the
    section no longer observed, and before that it has not been entered at
    all.  Without the section it never runs. *)
Theorem animation_runs_once (d : Dom) (evs : list Event) :
  let s := run evs (start d) in
  animateCalls s ≤ 1
  ∧ (statsSection d = None → animateCalls s = 0)
  ∧ (present (statsSection d) = true →
     if existsb intersecting evs
     then animateCalls s = 1 ∧ hasAnimated s = true ∧ observing (host s) = false
     else animateCalls s = 0 ∧ hasAnimated s = false ∧ observing (host s) = true).
Proof.
  intros s. subst s. rewrite start_spec.
  set (s0 := mkState _ _ _ _).
  destruct (present (statsSection d)) eqn:Hp.
  - pose proof (run_vars_fresh evs s0 eq_refl eq_refl) as Hv. simpl in Hv.
    unfold stats_vars in Hv.
    destruct (existsb intersecting evs); injection Hv as -> -> ->.
    + split; [lia|]. split; [intros E; by rewrite E in Hp | done].
    + split; [lia|]. split; [intros E; by rewrite E in Hp | done].
  - pose proof (run_vars_done evs s0 eq_refl) as Hv. unfold stats_vars in Hv.
    simpl in Hv. injection Hv as -> -> ->.
    split; [lia|]. split; done.
Qed.

Lemma animation_runs_once_witness :
  let s := run [Intersection [mkEntry false]; Intersection [mkEntry true];
                Intersection [mkEntry false]; Intersection [mkEntry true]]
               (start sample_page) in
  present (statsSection sample_page) = true
  ∧ animateCalls s = 1 ∧ hasAnimated s = true ∧ observing (host s) = false.
Proof.
  split; [reflexivity|].
  exact (proj2 (proj2 (animation_runs_once sample_page
    [Intersection [mkEntry false]; Intersection [mkEntry true];
     Intersection [mkEntry false]; Intersection [mkEntry true]])) eq_refl).
Defined.





(** The sample page with one more link, to the fragment "#1". *)
Definition page_with_numbered_fragment : Dom :=
  mkDom (menuToggle sample_page) (mainNav sample_page) (modal sample_page)
        (openButtons sample_page) (closeBtn sample_page) (amountBtns sample_page)
        (processBtn sample_page) (step1 sample_page) (step2 sample_page)
        (closeSuccessBtn sample_page) (links sample_page ++ ["#1"])
        (statsSection sample_page) (counters sample_page) (selectable sample_page)
        (validSelector sample_page) (localeString sample_page).

(** C6 (the code departs from it): the handler passes the href to
    [document.querySelector] as it is and guards only against "#".  For the
    link to "#1", a fragment that is no selector, the lookup throws: the
    click has cancelled the default navigation, nothing is scrolled, the menu
    stays open, and the click ends in an uncaught SyntaxError, where the claim
    has no scroll, no menu close and no error.  The link to "#nada", a
    selector without an element, does behave as the claim says. *)
Theorem invalid_fragment_throws :
  let s := step (start page_with_numbered_fragment) (Click TMenuToggle false) in
  let s' := step s (Click (TLink 3) false) in
  links page_with_numbered_fragment !! 3 = Some "#1"
  ∧ handlers_on (TLink 3) (listeners (host s)) = [OnLink 3]
  ∧ SmoothScroll.onLinkClick "#1" s = (Throw SyntaxError, exec preventDefault s)
  ∧ s' = report SyntaxError (exec preventDefault s)
  ∧ reported (host s') = [SyntaxError]
  ∧ hasClass "is-open" <$> mainNav (document s') = Some true
  ∧ step s (Click (TLink 2) false) = exec preventDefault s.
Proof.
  intros s s'.
  assert (Hr : running page_with_numbered_fragment s) by apply running_step, shape_refl.
  assert (Hne : "#1" ≠ "#") by discriminate.
  assert (Hne' : "#nada" ≠ "#") by discriminate.
  assert (Hout : "#1" ∉ selectable (document s))
    by (apply (bool_decide_unpack _); vm_compute; exact I).
  assert (Hout' : "#nada" ∉ selectable (document s))
    by (apply (bool_decide_unpack _); vm_compute; exact I).
  assert (Hbad : validSelector (document s) "#1" = false) by (vm_compute; reflexivity).
  assert (Hgood : validSelector (document s) "#nada" = true) by (vm_compute; reflexivity).
  assert (Hs' : s' = report SyntaxError (exec preventDefault s)).
  { unfold s'. rewrite (click_link page_with_numbered_fragment s 3 "#1") by done.
    unfold callback. by rewrite onLinkClick_invalid. }
  split; [reflexivity|]. split; [vm_compute; reflexivity|].
  split; [by apply onLinkClick_invalid|]. split; [exact Hs'|].
  split; [vm_compute; reflexivity|]. split; [vm_compute; reflexivity|].
  rewrite (click_link page_with_numbered_fragment s 2 "#nada") by done.
  unfold callback. by rewrite onLinkClick_missing.
Qed.

(** C7: with the navigation panel and the toggle button present,
    [closeMenu] does not throw; on a panel without the open class it changes
    nothing at all; otherwise it removes the open class, sets aria-expanded
    to "false" and restores the closed glyph; and a second call changes
    nothing. *)
Theorem closeMenu_idempotent (s : State) (nav toggle : Element) :
  mainNav (document s) = Some nav → menuToggle (document s) = Some toggle →
  let s' := exec Navigation.closeMenu s in
  throws Navigation.closeMenu s = false
  ∧ (hasClass "is-open" nav = false → s' = s)
  ∧ (hasClass "is-open" nav = true →
     mainNav (document s') = Some (with_classList (λ cs, cs ∖ {["is-open"]}) nav)
     ∧ menuToggle (document s')
       = Some (with_innerHTML "☰" (with_attribute "aria-expanded" "false" toggle)))
  ∧ Navigation.closeMenu s' = (Normal tt, s').
Proof.
  intros Hn Ht s'. subst s'. unfold exec, throws.
  destruct (hasClass "is-open" nav) eqn:Hc.
  - rewrite (closeMenu_open s nav toggle) by done. simpl.
    split; [done|]. split; [done|]. split; [done|].
    eapply closeMenu_closed; [done|]. apply hasClass_remove.
  - rewrite (closeMenu_closed s nav) by done. simpl.
    split; [done|]. split; [done|]. split; [done|].
    by apply (closeMenu_closed s nav).
Qed.

Lemma closeMenu_idempotent_witness :
  let s := step (start sample_page) (Click TMenuToggle false) in
  let s' := exec Navigation.closeMenu s in
  (mainNav (document s) = Some (with_classList (λ cs, cs ∪ {["is-open"]}) blank)
   ∧ menuToggle (document s)
     = Some (with_innerHTML "✕" (with_attribute "aria-expanded" "true"
               (with_innerHTML "☰" blank))))
  ∧ hasClass "is-open" <$> mainNav (document s') = Some false
  ∧ (attributes <$> menuToggle (document s')) ≫= (.!! "aria-expanded") = Some "false"
  ∧ innerHTML <$> menuToggle (document s') = Some "☰"
  ∧ Navigation.closeMenu s' = (Normal tt, s')
  ∧ exec Navigation.closeMenu (start sample_page) = start sample_page.
Proof.
  intros s s'.
  assert (Hn : mainNav (document s) = Some (with_classList (λ cs, cs ∪ {["is-open"]}) blank))
    by (vm_compute; reflexivity).
  assert (Ht : menuToggle (document s)
               = Some (with_innerHTML "✕" (with_attribute "aria-expanded" "true"
                         (with_innerHTML "☰" blank)))) by (vm_compute; reflexivity).
  pose proof (closeMenu_idempotent s _ _ Hn Ht) as (_ & _ & Hopen & Hagain).
  pose proof (Hopen (hasClass_add _ _)) as [Hn' Ht'].
  pose proof (closeMenu_idempotent (start sample_page) blank (with_innerHTML "☰" blank)
                eq_refl eq_refl) as (_ & Hclosed & _).
  split; [by split|]. fold s' in Hn', Ht', Hagain.
  rewrite Hn', Ht'.
  split; [vm_compute; reflexivity|]. split; [vm_compute; reflexivity|].
  split; [reflexivity|]. split; [exact Hagain|].
  apply Hclosed. vm_compute; reflexivity.
Defined.

(** C8: on a running page whose modal is present, after any sequence of
    clicks on amount buttons that ends with a click on button [B], button [B]
    carries the selected marker and no other amount button does.  Amount
    clicks never lead from a page with at most one selected button to one
    with two. *)
Theorem single_selection (d : Dom) (s : State) (clicks : list (nat * bool))
    (B : nat) (inModal : bool) :
  running d s → present (modal d) = true → B < length (amountBtns d) →
  let s' := run (amount_clicks clicks ++ [Click (TAmountBtn B) inModal]) s in
  (∀ i, selected s' i = bool_decide (i = B))
  ∧ at_most_one_selected s'
  ∧ (at_most_one_selected s →
     ∀ clicks', at_most_one_selected (run (amount_clicks clicks') s)).
Proof.
  intros Hr Hm HB s'.
  assert (Hsel : ∀ i, selected s' i = bool_decide (i = B)).
  { intros i. unfold s'. rewrite run_app.
    set (s1 := run (amount_clicks clicks) s).
    assert (Hr1 : running d s1) by (by apply running_run_from).
    rewrite run_cons. change (run [] ?x) with x.
    rewrite (click_amountBtn d) by done.
    rewrite Hm, (proj2 (Nat.ltb_lt _ _) HB). simpl.
    apply selected_onAmountClick. by rewrite (running_amountBtns d). }
  split; [done|]. split.
  - intros i j. rewrite !Hsel.
    intros ->%bool_decide_eq_true ->%bool_decide_eq_true. done.
  - intros Hs clicks'. by apply (at_most_one_run d).
Qed.

Lemma single_selection_witness :
  let s := step (start sample_page) (Click (TOpenButton 0) false) in
  let s' := run (amount_clicks [(0, true); (2, true); (0, true)]
                 ++ [Click (TAmountBtn 1) true]) s in
  (present (modal sample_page) = true ∧ 1 < length (amountBtns sample_page))
  ∧ selected s' 0 = false ∧ selected s' 1 = true ∧ selected s' 2 = false.
Proof.
  intros s s'.
  assert (Hr : running sample_page s) by apply running_step, shape_refl.
  assert (Hl : 1 < length (amountBtns sample_page)) by (simpl; lia).
  pose proof (single_selection sample_page s [(0, true); (2, true); (0, true)] 1 true
                Hr eq_refl Hl) as (Hsel & _).
  split; [by split|]. fold s' in Hsel. by rewrite !Hsel.
Defined.

(** C9: [Navigation.init] is a no-op when the toggle button or the panel is
    missing, but [closeMenu] is not guarded: with the panel missing it throws
    a TypeError, and so does SmoothScroll's handler for a fragment that
    exists, after it has cancelled the default action and issued the scroll;
    on a running page the click ends with that TypeError reported. *)
Theorem closeMenu_unguarded (s : State) :
  (menuToggle (document s) = None ∨ mainNav (document s) = None →
   Navigation.init s = (Normal tt, s))
  ∧ (mainNav (document s) = None →
     Navigation.closeMenu s = (Throw TypeError, s)
     ∧ ∀ targetId, targetId ≠ "#" → targetId ∈ selectable (document s) →
       SmoothScroll.onLinkClick targetId s
       = (Throw TypeError,
          exec (emit (ScrollIntoView targetId "smooth" "start")) (exec preventDefault s))
       ∧ ∀ d i inModal, running d s → links d !! i = Some targetId →
         reported (host (step s (Click (TLink i) inModal)))
         = reported (host s) ++ [TypeError]).
Proof.
  split; [apply Navigation_init_absent|].
  intros Hn. split; [by apply closeMenu_null|].
  intros targetId Hne Hin.
  assert (Hclick : SmoothScroll.onLinkClick targetId s
    = (Throw TypeError,
       exec (emit (ScrollIntoView targetId "smooth" "start")) (exec preventDefault s))).
  { rewrite onLinkClick_found by done. by apply closeMenu_null. }
  split; [done|]. intros d i inModal Hr Hi.
  rewrite (click_link d s i targetId) by done.
  unfold callback. by rewrite Hclick.
Qed.

Lemma closeMenu_unguarded_witness :
  let s := start page_without_nav in
  (mainNav (document s) = None ∧ "#equipo" ≠ "#" ∧ "#equipo" ∈ selectable (document s))
  ∧ Navigation.closeMenu s = (Throw TypeError, s)
  ∧ listeners (host (exec Navigation.init (load page_without_nav))) = []
  ∧ reported (host (step s (Click (TLink 1) false))) = [TypeError]
  ∧ effects (host (step s (Click (TLink 1) false)))
    = effects (host s) ++ [PreventDefault; ScrollIntoView "#equipo" "smooth" "start"].
Proof.
  intros s.
  assert (Hn : mainNav (document s) = None) by (vm_compute; reflexivity).
  assert (Hne : "#equipo" ≠ "#") by discriminate.
  assert (Hin : "#equipo" ∈ selectable (document s))
    by (apply (bool_decide_unpack _); vm_compute; exact I).
  pose proof (closeMenu_unguarded s) as [_ Hc].
  pose proof (closeMenu_unguarded (load page_without_nav)) as [Hi _].
  destruct (Hc Hn) as [Hclose Hlink].
  destruct (Hlink "#equipo" Hne Hin) as [_ Hrep].
  split; [by repeat split|]. split; [exact Hclose|].
  split; [unfold exec; by rewrite (Hi (or_intror eq_refl))|].
  split; [by rewrite (Hrep page_without_nav 1 false (shape_refl _) eq_refl)|].
  vm_compute. reflexivity.
Defined.

(** C10: which amount buttons are marked is never read.  Two runs that
    start from the same running page and differ only in the amount-button
    clicks made first stay equal, through any further events, in everything
    but the markers themselves; in particular a payment simulation (click on
    the payment button, 2000 ms) leaves the same payment button, step 1 and
    step 2, the same host state and the same reported errors in both. *)
Theorem selection_never_read (d : Dom) (s : State)
    (clicks1 clicks2 : list (nat * bool)) (evs : list Event) (inModal : bool) :
  running d s →
  let s1 := run (amount_clicks clicks1) s in
  let s2 := run (amount_clicks clicks2) s in
  let pay := [Click TProcessBtn inModal; Elapse 2000] in
  forget_selection (run evs s1) = forget_selection (run evs s2)
  ∧ processBtn (document (run pay s1)) = processBtn (document (run pay s2))
  ∧ step1 (document (run pay s1)) = step1 (document (run pay s2))
  ∧ step2 (document (run pay s1)) = step2 (document (run pay s2))
  ∧ host (run pay s1) = host (run pay s2).
Proof.
  intros Hr s1 s2 pay.
  assert (H : agree s1 s2).
  { eapply agree_trans; [by apply (agree_amount_clicks d)|].
    symmetry. by apply (agree_amount_clicks d). }
  split; [by apply agree_run|].
  pose proof (agree_run pay s1 s2 H) as Hp.
  split; [by apply (agree_on (λ s, processBtn (document s)))|].
  split; [by apply (agree_on (λ s, step1 (document s)))|].
  split; [by apply (agree_on (λ s, step2 (document s)))|].
  by apply agree_host.
Qed.

Lemma selection_never_read_witness :
  let s := step (start sample_page) (Click (TOpenButton 0) false) in
  let s1 := run (amount_clicks [(0, true); (2, true)]) s in
  let s2 := run (amount_clicks [(1, true)]) s in
  let pay := [Click TProcessBtn true; Elapse 2000] in
  (selected s1 2 = true ∧ selected s2 2 = false)
  ∧ processBtn (document (run pay s1)) = processBtn (document (run pay s2))
  ∧ step1 (document (run pay s1)) = step1 (document (run pay s2))
  ∧ step2 (document (run pay s1)) = step2 (document (run pay s2)).
Proof.
  intros s s1 s2 pay.
  assert (Hr : running sample_page s) by apply running_step, shape_refl.
  pose proof (selection_never_read sample_page s [(0, true); (2, true)] [(1, true)]
                [] true Hr) as (_ & Hb & H1 & H2 & _).
  split; [split; vm_compute; reflexivity|].
  split; [exact Hb|]. split; [exact H1 | exact H2].
Defined.

(** C2: the counting animation of one counter, in binary64 arithmetic.
    What is captured: stripping keeps exactly the decimal digits of the text
    the counter shows when the animation starts; the target is the number
    nearest to the integer they write, that integer itself below 2^53; the
    increment is target / (2000 / 16); [Math.ceil] rounds up.  What happens:
    the accumulator starts at 0 and grows by the increment with every call of
    the frame callback, the first call being made at once; after each call
    the counter shows the rounded-up accumulator as the host's locale writes
    it as long as the accumulator is below the target, with the next frame
    requested, and the captured text from the first call on at which the
    accumulator has reached the target, with nothing requested any more.  For
    "1,250+" the target is 1250 and, on an en-US host, calls 1 to 124 show
    10, 20, ..., 1,240 in digits and commas only, and from call 125 on the
    counter shows "1,250+". *)
Theorem counting_animation (d : Dom) (i : nat) (e : Element)
    (entries : list Entry) (k : nat) :
  present (statsSection d) = true → counters d !! i = Some e →
  triggers entries = true →
  let text := innerText e in
  let s := run (Intersection entries :: repeat AnimationFrame k) (start d) in
  let display := innerText <$> counters (document s) !! i in
  let integer := Spec.written (Spec.digits text) in
  strip_non_digits text = Spec.digits text
  ∧ targetOf text = Number_of_Z integer
  ∧ ((integer < 2 ^ 53)%Z → integer_of (targetOf text) = Some integer)
  ∧ incrementOf text = Spec.increment text
  ∧ (∀ x, Spec.rounds_up x (Math_ceil x))
  ∧ display = Some (Spec.display (localeString d) text (S k))
  ∧ filter (λ cl, counter cl = i) (rafQueue (host s))
    = match Spec.accumulated text (S k) with
      | Some now => [mkClosure i (Spec.target text) text (Spec.increment text) now]
      | None => []
      end
  ∧ (text = "1,250+" → localeString d = en_US →
     targetOf text = Number_of_Z 1250
     ∧ (S k < 125 →
        display = Some (grouped (10 * Z.of_nat (S k)))
        ∧ grouped_digits (grouped (10 * Z.of_nat (S k))) = true
        ∧ ¬ In "+"%char (list_ascii_of_string (grouped (10 * Z.of_nat (S k)))))
     ∧ (125 ≤ S k → display = Some "1,250+")).
Proof.
  intros Hp He Ht text s display integer.
  pose proof (view_animation d i e entries k Hp He Ht) as Hv.
  fold text in Hv. fold s in Hv. unfold view in Hv.
  injection Hv as Hd Hq. fold display in Hd.
  split; [apply strip_non_digits_spec|].
  split; [apply targetOf_spec|].
  split.
  { intros Hlt. rewrite targetOf_spec. apply Number_of_Z_exact.
    split; [apply written_nonneg | exact Hlt]. }
  split; [apply incrementOf_spec|].
  split; [apply Math_ceil_rounds_up|].
  split; [by rewrite Hd, shown_spec|].
  split; [by rewrite Hq, chainAt_spec|].
  intros Htext Hfmt. split; [by rewrite Htext|].
  rewrite Hd, Htext, Hfmt. split.
  - intros Hlt. rewrite shown_1250 by lia.
    split; [done|].
    pose proof (grouped_is_grouped (10 * Z.of_nat (S k))) as Hg.
    split; [done | by apply grouped_digits_no_plus].
  - intros Hge. by rewrite shown_1250_end.
Qed.

Lemma counting_animation_witness :
  let frames n := run (Intersection [mkEntry true] :: repeat AnimationFrame n)
                    (start sample_page) in
  let shows n j := innerText <$> counters (document (frames n)) !! j in
  (present (statsSection sample_page) = true
   ∧ counters sample_page !! 0 = Some (labelled "1,250+")
   ∧ counters sample_page !! 1 = Some (labelled "98%")
   ∧ triggers [mkEntry true] = true)
  ∧ shows 0 0 = Some "10"
  ∧ shows 123 0 = Some "1,240"
  ∧ shows 124 0 = Some "1,250+"
  ∧ shows 200 0 = Some "1,250+"
  ∧ shows 0 1 = Some "1"
  ∧ shows 123 1 = Some "98"
  ∧ shows 200 1 = Some "98%".
Proof.
  intros frames shows.
  pose proof (λ k, counting_animation sample_page 0 (labelled "1,250+") [mkEntry true] k
                     eq_refl eq_refl eq_refl) as H.
  pose proof (λ k, counting_animation sample_page 1 (labelled "98%") [mkEntry true] k
                     eq_refl eq_refl eq_refl) as H'.
  split; [split; [|split; [|split]]; reflexivity|]. unfold shows, frames.
  destruct (H 0) as (_ & _ & _ & _ & _ & _ & _ & H0).
  destruct (H0 eq_refl eq_refl) as (_ & Hlow0 & _).
  destruct (H 123) as (_ & _ & _ & _ & _ & _ & _ & H1).
  destruct (H1 eq_refl eq_refl) as (_ & Hlow1 & _).
  destruct (H 124) as (_ & _ & _ & _ & _ & _ & _ & H2).
  destruct (H2 eq_refl eq_refl) as (_ & _ & Hend2).
  destruct (H 200) as (_ & _ & _ & _ & _ & _ & _ & H3).
  destruct (H3 eq_refl eq_refl) as (_ & _ & Hend3).
  destruct (H' 0) as (_ & _ & _ & _ & _ & Hd0 & _).
  destruct (H' 123) as (_ & _ & _ & _ & _ & Hd1 & _).
  destruct (H' 200) as (_ & _ & _ & _ & _ & Hd2 & _).
  assert (L0 : 1 < 125) by lia. assert (L1 : 124 < 125) by lia.
  assert (L2 : 125 ≤ 125) by lia. assert (L3 : 125 ≤ 201) by lia.
  rewrite (proj1 (Hlow0 L0)), (proj1 (Hlow1 L1)), (Hend2 L2), (Hend3 L3).
  rewrite Hd0, Hd1, Hd2.
  split; [vm_compute; reflexivity|]. split; [vm_compute; reflexivity|].
  split; [reflexivity|]. split; [reflexivity|].
  split; [vm_compute; reflexivity|]. split; vm_compute; reflexivity.
Defined.


(** * Further properties of the script *)

(** ** Who listens where *)

(** What a listener registered by [App.init] on page [d] can rely on. *)
Definition registered_for (d : Dom) (t : Target) (l : Listener) : Prop :=
  match l with
  | OnToggle =>
      t = TMenuToggle ∧ present (menuToggle d) = true ∧ present (mainNav d) = true
  | OnOpen => (∃ i, t = TOpenButton i ∧ i < length (openButtons d))
              ∧ present (modal d) = true
  | OnClose => ((t = TCloseBtn ∧ present (closeBtn d) = true)
                ∨ (t = TCloseSuccessBtn ∧ present (closeSuccessBtn d) = true))
               ∧ present (modal d) = true
  | OnBackdrop => t = TModal ∧ present (modal d) = true
  | OnAmount i => t = TAmountBtn i ∧ i < length (amountBtns d)
                  ∧ present (modal d) = true
  | OnProcess => t = TProcessBtn ∧ present (modal d) = true
                 ∧ present (processBtn d) = true
  | OnLink i => t = TLink i ∧ i < length (links d)
  end.

Lemma installed_registered d t l : (t, l) ∈ installed d → registered_for d t l.
Proof.
  unfold installed, navigation_listeners, scroll_listeners, modal_listeners.
  rewrite !elem_of_app.
  intros [H|[H|H]].
  - destruct (present (menuToggle d)) eqn:E1, (present (mainNav d)) eqn:E2;
      simpl in H; try by apply elem_of_nil in H.
    apply list_elem_of_singleton in H. by simplify_eq.
  - apply list_elem_of_fmap in H as (i & Heq & Hi). simplify_eq.
    apply elem_of_seq in Hi. simpl. split; [done|lia].
  - destruct (present (modal d)) eqn:Em; [|by apply elem_of_nil in H].
    rewrite !elem_of_app in H.
    destruct H as [H|[H|[H|[H|[H|H]]]]].
    + apply list_elem_of_fmap in H as (i & Heq & Hi). simplify_eq.
      apply elem_of_seq in Hi. simpl. split; [|done]. exists i. split; [done|lia].
    + destruct (present (closeBtn d)) eqn:E; [|by apply elem_of_nil in H].
      apply list_elem_of_singleton in H. simplify_eq. simpl. split; [|done]. by left.
    + destruct (present (closeSuccessBtn d)) eqn:E; [|by apply elem_of_nil in H].
      apply list_elem_of_singleton in H. simplify_eq. simpl. split; [|done]. by right.
    + apply list_elem_of_singleton in H. by simplify_eq.
    + apply list_elem_of_fmap in H as (i & Heq & Hi). simplify_eq.
      apply elem_of_seq in Hi. simpl. split; [done|]. split; [lia|done].
    + destruct (present (processBtn d)) eqn:E; [|by apply elem_of_nil in H].
      apply list_elem_of_singleton in H. by simplify_eq.
Qed.

(** Induction over the listeners a dispatch runs. *)
Lemma dispatch_relates (R : State → State → Prop) target on s :
  (∀ s', R s' s') → (∀ s1 s2 s3, R s1 s2 → R s2 s3 → R s1 s3) →
  (∀ l s', (on, l) ∈ listeners (host s) → R s' (callback (handle l target) s')) →
  R s (dispatch target on s).
Proof.
  intros Hrefl Htrans. unfold dispatch.
  assert (H : ∀ ls s0,
    (∀ l s', (on, l) ∈ ls → R s' (callback (handle l target) s')) →
    R s0 (fold_left (λ s' '(t, l),
            if decide (t = on) then callback (handle l target) s' else s') ls s0));
    [|by apply H].
  induction ls as [|[t l] ls IH]; intros s0 H; simpl; [done|].
  eapply Htrans; [|apply IH].
  - case_decide; [subst t; apply H; by left | done].
  - intros l' s' Hin. apply H. by right.
Qed.

Lemma dispatch_all_relates (R : State → State → Prop) target names s :
  (∀ s', R s' s') → (∀ s1 s2 s3, R s1 s2 → R s2 s3 → R s1 s3) →
  (∀ t l s', (t, l) ∈ listeners (host s) → t ∈ names →
             R s' (callback (handle l target) s')) →
  R s (dispatch_all target names s).
Proof.
  intros Hrefl Htrans. unfold dispatch_all.
  assert (H : ∀ ls s0,
    (∀ t l s', (t, l) ∈ ls → t ∈ names → R s' (callback (handle l target) s')) →
    R s0 (fold_left (λ s' '(t, l),
            if bool_decide (t ∈ names) then callback (handle l target) s' else s') ls s0));
    [|by apply H].
  induction ls as [|[t l] ls IH]; intros s0 H; simpl; [done|].
  eapply Htrans; [|apply IH].
  - case_bool_decide; [apply (H t); [by left | done] | done].
  - intros t' l' s' Hin. apply H. by right.
Qed.

Lemma running_selectable d s : running d s → selectable (document s) = selectable d.
Proof. intros H. rewrite (shape_selectable _ _ H). by rewrite start_spec. Qed.

Lemma running_validSelector d s :
  running d s → validSelector (document s) = validSelector d.
Proof. intros H. rewrite (shape_validSelector _ _ H). by rewrite start_spec. Qed.

Lemma running_localeString d s :
  running d s → localeString (document s) = localeString d.
Proof. intros H. rewrite (shape_localeString _ _ H). by rewrite start_spec. Qed.

(** ** A page with its navigation, its step elements and sound links never throws *)

(** [sound d c]: on a running page [d], [c] does not throw. *)
Definition sound {A} (d : Dom) (c : M A) : Prop :=
  ∀ s, running d s → throws c s = false.

Lemma running_exec {A} d (c : M A) s :
  relates shape c → running d s → running d (exec c s).
Proof. intros Hc Hr. eapply shape_trans; [exact Hr | apply Hc]. Qed.

Lemma sound_ret {A} d (a : A) : sound d (ret a).
Proof. done. Qed.

Lemma sound_read {A} d (f : State → A) : sound d (read f).
Proof. done. Qed.

Lemma sound_query {A} d (f : Dom → A) : sound d (query f).
Proof. done. Qed.

Lemma sound_modify d f : sound d (modify f).
Proof. done. Qed.

Lemma sound_bind {A B} d (c : M A) (k : A → M B) :
  sound d c → relates shape c → (∀ a, sound d (k a)) → sound d (bind c k).
Proof.
  intros Hc Hs Hk s Hr. pose proof (Hc s Hr) as Ht.
  pose proof (running_exec d c s Hs Hr) as Hr'.
  unfold throws, bind, exec in *.
  destruct (c s) as [[a|e] s']; simpl in *; [by apply Hk | done].
Qed.

Lemma sound_deref d r : present (get r d) = true → sound d (deref r).
Proof.
  intros Hp s Hr. rewrite <- (running_present d s r Hr) in Hp.
  unfold throws, deref. by destruct (get r (document s)).
Qed.

Lemma sound_update d r f : present (get r d) = true → sound d (update r f).
Proof.
  intros Hp. apply sound_bind; [by apply sound_deref | | intros e; apply sound_modify].
  apply relates_deref, shape_refl.
Qed.

Lemma sound_forEach {A} d (l : list A) (f : A → M unit) :
  (∀ x, sound d (f x)) → (∀ x, relates shape (f x)) → sound d (forEach l f).
Proof.
  intros Hf Hs. induction l; simpl; [apply sound_ret | by apply sound_bind].
Qed.

Lemma sound_if {A} d (b : bool) (c1 c2 : M A) :
  sound d c1 → sound d c2 → sound d (if b then c1 else c2).
Proof. by destruct b. Qed.

Lemma sound_safe {A} d (c : M A) : safe c → sound d c.
Proof. intros H s _. apply H. Qed.

(** [if (x) { ... }] on a query result: the body runs only when it exists. *)
Lemma sound_guard d r (c1 c2 : M unit) :
  (present (get r d) = true → sound d c1) → sound d c2 →
  sound d (bind (query (λ d', present (get r d'))) (λ b, if b then c1 else c2)).
Proof.
  intros H1 H2 s Hr. unfold throws, bind, query, read. simpl.
  rewrite (running_present d s r Hr).
  destruct (present (get r d)); [by apply H1 | by apply H2].
Qed.

Ltac sound_step :=
  lazymatch goal with
  | |- sound ?d (bind (query (λ d', present (processBtn d'))) _) =>
      apply (sound_guard d ProcessBtn); [intros ?|]
  | |- sound _ (bind _ _) => apply sound_bind; [| |intros ?]
  | |- sound _ (ret _) => apply sound_ret
  | |- sound _ (read _) => apply sound_read
  | |- sound _ (query _) => apply sound_query
  | |- sound _ (modify _) => apply sound_modify
  | |- sound _ (deref _) => apply sound_deref
  | |- sound _ (update _ _) => apply sound_update
  | |- sound _ (forEach _ _) => apply sound_forEach; intros ?
  | |- sound _ (if _ then _ else _) => apply sound_if
  | |- sound _ (match ?x with _ => _ end) => destruct x
  | |- relates shape _ => relates_shape; shape_leaf
  end.

(** A fragment that [document.querySelector] accepts: one with an element,
    or a selector without one; and "#", which the handler does not look up. *)
Definition sound_fragment (d : Dom) (href : string) : Prop :=
  href = "#" ∨ href ∈ selectable d ∨ validSelector d href = true.

(** The navigation panel, its toggle and both step containers exist, and
    every link has a sound fragment. *)
Definition complete (d : Dom) : Prop :=
  present (menuToggle d) = true ∧ present (mainNav d) = true
  ∧ present (step1 d) = true ∧ present (step2 d) = true
  ∧ ∀ href, href ∈ links d → sound_fragment d href.

Lemma closeMenu_sound d :
  present (menuToggle d) = true → present (mainNav d) = true →
  sound d Navigation.closeMenu.
Proof. intros Htog Hnav. js_handlers; repeat sound_step; done. Qed.

Lemma onLinkClick_sound d href :
  present (menuToggle d) = true → present (mainNav d) = true →
  sound_fragment d href → sound d (SmoothScroll.onLinkClick href).
Proof.
  intros Htog Hnav Hf s Hr. unfold throws.
  destruct (decide (href = "#")) as [->|Hne]; [by rewrite onLinkClick_hash|].
  rewrite onLinkClick_query, querySelector_spec by done.
  change (document (exec preventDefault s)) with (document s).
  rewrite (running_selectable d s Hr), (running_validSelector d s Hr).
  case_bool_decide as Hin.
  - apply (closeMenu_sound d Htog Hnav).
    eapply shape_trans; [exact Hr|].
    eapply shape_trans; by apply shape_host.
  - destruct Hf as [?|[?|Hv]]; [done|done|]. by rewrite Hv.
Qed.

Lemma handle_sound d on l t :
  complete d → registered_for d on l → sound d (handle l t).
Proof.
  intros (Htog & Hnav & H1 & H2 & Hl) Hreg.
  destruct l as [| | | |i| |i]; simpl in Hreg; simpl handle;
    try (js_handlers; repeat sound_step; try done; tauto).
  intros s Hr. unfold throws, bind, query, read. simpl.
  rewrite (running_links d s Hr).
  destruct (links d !! i) as [href|] eqn:Hi; [|done].
  apply (onLinkClick_sound d href Htog Hnav); [|done].
  apply Hl. by apply (list_elem_of_lookup_2 _ i).
Qed.

Definition errors (s : State) : list Error := reported (host s).

Lemma handle_errors l t : relates (same errors) (handle l t).
Proof. destruct l; simpl; js_handlers; relates_same errors. Qed.

Lemma updateCount_errors cl : relates (same errors) (StatsAnimation.updateCount cl).
Proof. js_stats; relates_same errors. Qed.

Lemma onIntersection_errors entries :
  relates (same errors) (StatsAnimation.onIntersection entries).
Proof. js_stats; relates_same errors. Qed.

Lemma fire_errors cb : relates (same errors) (fire cb).
Proof. destruct cb; simpl; js_handlers; relates_same errors. Qed.

Lemma fire_sound d cb : complete d → sound d (fire cb).
Proof.
  intros (_ & _ & H1 & H2 & _). destruct cb; simpl; js_handlers; repeat sound_step; done.
Qed.

(** Running a callback that does not throw: nothing is reported. *)
Definition quiet (d : Dom) (s s' : State) : Prop :=
  running d s → running d s' ∧ errors s' = errors s.

Lemma quiet_refl d s : quiet d s s.
Proof. by intros Hr. Qed.

Lemma quiet_trans d s1 s2 s3 : quiet d s1 s2 → quiet d s2 s3 → quiet d s1 s3.
Proof.
  intros H12 H23 Hr. destruct (H12 Hr) as [Hr2 He2]. destruct (H23 Hr2) as [Hr3 He3].
  split; [done | congruence].
Qed.

Lemma quiet_callback d (c : M unit) s :
  sound d c → relates shape c → relates (same errors) c → quiet d s (callback c s).
Proof.
  intros Hc Hs He Hr. specialize (Hc s Hr). specialize (Hs s). specialize (He s).
  unfold callback, throws, same in *.
  destruct (c s) as [[[]|e] s']; simpl in *; [|done].
  split; [by eapply shape_trans | done].
Qed.

Lemma quiet_fold_left {A} d (f : State → A → State) l s :
  (∀ s' x, quiet d s' (f s' x)) → quiet d s (fold_left f l s).
Proof.
  intros H. apply (relates_fold_left (quiet d)); [apply quiet_refl | apply quiet_trans | done].
Qed.

Lemma quiet_dispatch d t on s :
  complete d → running d s → quiet d s (dispatch t on s).
Proof.
  intros Hc Hr.
  apply dispatch_relates; [apply quiet_refl | apply quiet_trans |].
  intros l s' Hin. rewrite (running_listeners d s Hr) in Hin.
  apply quiet_callback; [|apply shape_handle|apply handle_errors].
  eapply handle_sound; [done | by apply installed_registered].
Qed.

Lemma quiet_dispatch_all d t names s : complete d → quiet d s (dispatch_all t names s).
Proof.
  intros Hc Hr. pose proof (running_listeners d s Hr) as Hl. revert Hr.
  change (quiet d s (dispatch_all t names s)).
  apply dispatch_all_relates; [apply quiet_refl | apply quiet_trans |].
  intros t' l s' Hin _. rewrite Hl in Hin.
  apply quiet_callback; [|apply shape_handle|apply handle_errors].
  eapply handle_sound; [done | by apply installed_registered].
Qed.

Lemma quiet_host d f s :
  (∀ h, listeners (f h) = listeners h) → (∀ h, reported (f h) = reported h) →
  quiet d s (with_host f s).
Proof.
  intros Hl He Hr. split.
  - eapply shape_trans; [exact Hr|]. by apply shape_host.
  - unfold errors. simpl. apply He.
Qed.

Lemma quiet_step d s ev : complete d → quiet d s (step s ev).
Proof.
  intros Hc. destruct ev as [t inModal|path|entries| |ms]; simpl.
  - intros Hr. unfold click. destruct (quiet_dispatch d t t s Hc Hr Hr) as [Hr1 He1].
    destruct (_ && _); [|done].
    destruct (quiet_dispatch d t TModal _ Hc Hr1 Hr1) as [Hr2 He2].
    split; [done | congruence].
  - unfold deliver. apply quiet_fold_left. intros s' names.
    by apply quiet_dispatch_all.
  - unfold intersect. destruct (observing _); [|apply quiet_refl].
    apply (quiet_callback d); [|apply shape_onIntersection|apply onIntersection_errors].
    apply sound_safe, onIntersection_safe.
  - unfold frame.
    apply (quiet_trans d _ (with_host (with_rafQueue (λ _, [])) s));
      [by apply quiet_host|].
    apply quiet_fold_left. intros s' cl.
    apply quiet_callback; [|apply shape_updateCount|apply updateCount_errors].
    apply sound_safe, updateCount_safe.
  - unfold elapse.
    match goal with |- context [fold_left ?f ?l ?s1] =>
      apply (quiet_trans d _ s1); [by apply quiet_host|] end.
    apply quiet_fold_left. intros s' tm.
    apply quiet_callback; [|apply shape_fire|apply fire_errors].
    by apply fire_sound.
Qed.

(** X1: on a page that has the navigation panel, its toggle button and both
    step containers, and on which the fragment of every link is "#", has an
    element, or at least parses as a selector, no listener, timer, frame or
    observer callback ever throws: whatever the events, clicks on elements
    found by several queries or nested in one another included, nothing is
    reported. *)
Theorem complete_page_never_throws (d : Dom) (evs : list Event) :
  complete d → reported (host (run evs (start d))) = [].
Proof.
  intros Hc.
  assert (H : quiet d (start d) (run evs (start d))).
  { unfold run. apply quiet_fold_left. intros s ev. by apply quiet_step. }
  destruct (H (shape_refl _)) as [_ He]. unfold errors in He.
  rewrite He, start_spec. done.
Qed.

Lemma complete_page_never_throws_witness :
  complete sample_page
  ∧ reported (host (run [Click (TLink 2) false; ClickPath [[TOpenButton 0; TLink 1]];
                         Click TProcessBtn true; Elapse 2000; Intersection [mkEntry true];
                         AnimationFrame]
                        (start sample_page))) = [].
Proof.
  assert (Hc : complete sample_page).
  { split; [reflexivity|]. split; [reflexivity|]. split; [reflexivity|].
    split; [reflexivity|]. intros href Hin. unfold sound_fragment.
    apply elem_of_cons in Hin as [->|Hin]; [by left|].
    apply elem_of_cons in Hin as [->|Hin];
      [right; left; apply (bool_decide_unpack _); vm_compute; exact I|].
    apply elem_of_cons in Hin as [->|Hin]; [by right; right|].
    by apply elem_of_nil in Hin. }
  split; [exact Hc|].
  exact (complete_page_never_throws sample_page _ Hc).
Defined.

(** ** The menu toggle *)

Definition toggled_nav (b : bool) (nav : Element) : Element :=
  with_classList (λ cs, if b then cs ∪ {["is-open"]} else cs ∖ {["is-open"]}) nav.
Definition toggled_button (b : bool) (toggle : Element) : Element :=
  with_innerHTML (if b then "✕" else "☰")
    (with_attribute "aria-expanded" (String_of_bool b) toggle).

Lemma onToggleClick_spec s nav toggle :
  mainNav (document s) = Some nav → menuToggle (document s) = Some toggle →
  let b := negb (hasClass "is-open" nav) in
  Navigation.onToggleClick s
  = (Normal tt,
     with_document (put MenuToggle (toggled_button b toggle))
       (with_document (put MainNav (toggled_nav b nav)) s)).
Proof.
  intros Hn Ht. js_eval. rewrite Hn. simpl. destruct (hasClass "is-open" nav); simpl;
    rewrite Hn; simpl; by rewrite Ht.
Qed.

(** Whether the menu is open, and whether the button says so. *)
Definition menu_open (s : State) : option bool :=
  hasClass "is-open" <$> mainNav (document s).
Definition button_says (s : State) (b : bool) : Prop :=
  (attributes <$> menuToggle (document s)) ≫= (.!! "aria-expanded")
    = Some (String_of_bool b)
  ∧ innerHTML <$> menuToggle (document s) = Some (if b then "✕" else "☰").

Lemma click_toggle d s inModal nav toggle :
  running d s →
  mainNav (document s) = Some nav → menuToggle (document s) = Some toggle →
  step s (Click TMenuToggle inModal)
  = with_document (put MenuToggle (toggled_button (negb (hasClass "is-open" nav)) toggle))
      (with_document (put MainNav (toggled_nav (negb (hasClass "is-open" nav)) nav)) s).
Proof.
  intros Hr Hn Ht. simpl.
  rewrite (click_reaches d) by (done || by apply running_listeners).
  pose proof (running_present d s MainNav Hr) as Hpn.
  pose proof (running_present d s MenuToggle Hr) as Hpt.
  simpl in Hpn, Hpt. rewrite Hn in Hpn. rewrite Ht in Hpt.
  assert (Hh : handlers_on TMenuToggle (installed d) = [OnToggle]).
  { handlers_on_installed; by rewrite <- ?Hpn, <- ?Hpt. }
  rewrite Hh. simpl. unfold invoke, callback. simpl.
  by rewrite (onToggleClick_spec s nav toggle).
Qed.

Lemma hasClass_toggled b nav : hasClass "is-open" (toggled_nav b nav) = b.
Proof. destruct b; [apply hasClass_add | apply hasClass_remove]. Qed.

Lemma click_toggle_flips d s inModal b :
  running d s → present (menuToggle d) = true → menu_open s = Some b →
  let s' := step s (Click TMenuToggle inModal) in
  menu_open s' = Some (negb b) ∧ button_says s' (negb b).
Proof.
  intros Hr Hpt Ho s'. subst s'. unfold menu_open in Ho.
  destruct (mainNav (document s)) as [nav|] eqn:Hn; [|done].
  simpl in Ho. injection Ho as <-.
  destruct (running_present_Some d s MenuToggle) with (e := default blank (menuToggle d))
    as [toggle Ht]; [done| |].
  { simpl. by destruct (menuToggle d). }
  simpl in Ht. rewrite (click_toggle d s inModal nav toggle) by done.
  unfold menu_open, button_says. simpl.
  rewrite hasClass_toggled. split; [done|]. split; [|done].
  by rewrite lookup_insert_eq.
Qed.

Definition toggle_clicks (n : nat) : list Event := repeat (Click TMenuToggle false) n.

(** X2: on a running page with the toggle button and the panel, [n] clicks
    on the toggle button leave the panel open exactly when its state before
    and the parity of [n] say so, and after at least one click the button's
    aria-expanded attribute and glyph show that state.  An even number of
    clicks on a closed menu ends with the menu closed, "false" and the
    closed glyph. *)
Theorem toggle_parity (d : Dom) (s : State) (b : bool) (n : nat) :
  running d s → present (menuToggle d) = true → menu_open s = Some b →
  let s' := run (toggle_clicks n) s in
  menu_open s' = Some (xorb b (Nat.odd n))
  ∧ (0 < n → button_says s' (xorb b (Nat.odd n))).
Proof.
  intros Hr Hpt. revert s b Hr. induction n as [|n IH]; intros s b Hr Ho s'.
  - subst s'. simpl. rewrite xorb_false_r. split; [done | lia].
  - subst s'. unfold toggle_clicks. simpl repeat. rewrite run_cons.
    destruct (click_toggle_flips d s false b Hr Hpt Ho) as [Ho1 Hb1].
    destruct (IH _ (negb b) (running_step d s _ Hr) Ho1) as [Hon Hbn].
    fold (toggle_clicks n).
    assert (Hx : xorb (negb b) (Nat.odd n) = xorb b (Nat.odd (S n))).
    { rewrite Nat.odd_succ, <- Nat.negb_odd. by destruct b, (Nat.odd n). }
    rewrite <- Hx. split; [done|]. intros _.
    destruct n as [|n]; [|apply Hbn; lia].
    simpl. by rewrite xorb_false_r.
Qed.

Lemma toggle_parity_witness :
  let s := run (toggle_clicks 4) (start sample_page) in
  (present (menuToggle sample_page) = true ∧ menu_open (start sample_page) = Some false)
  ∧ menu_open s = Some false ∧ button_says s false.
Proof.
  intros s.
  pose proof (toggle_parity sample_page (start sample_page) false 4
                (shape_refl _) eq_refl eq_refl) as [Ho Hb].
  assert (L : 0 < 4) by lia.
  split; [by split|]. split; [exact Ho | exact (Hb L)].
Defined.

(** X3: on an open menu (the panel carries the open class, the toggle
    button exists) [closeMenu] does exactly what a click on the toggle button
    does: the two handlers return the same state. *)
Theorem closeMenu_is_toggle (s : State) (nav toggle : Element) :
  mainNav (document s) = Some nav → menuToggle (document s) = Some toggle →
  hasClass "is-open" nav = true →
  Navigation.closeMenu s = Navigation.onToggleClick s.
Proof.
  intros Hn Ht Hc.
  rewrite (closeMenu_open s nav toggle), (onToggleClick_spec s nav toggle) by done.
  by rewrite Hc.
Qed.

Lemma closeMenu_is_toggle_witness :
  let s := step (start sample_page) (Click TMenuToggle false) in
  menu_open s = Some true
  ∧ Navigation.closeMenu s = Navigation.onToggleClick s
  ∧ menu_open (exec Navigation.closeMenu s) = Some false.
Proof.
  intros s.
  assert (Hn : mainNav (document s) = Some (with_classList (λ cs, cs ∪ {["is-open"]}) blank))
    by (vm_compute; reflexivity).
  assert (Ht : menuToggle (document s)
               = Some (with_innerHTML "✕" (with_attribute "aria-expanded" "true"
                         (with_innerHTML "☰" blank)))) by (vm_compute; reflexivity).
  pose proof (closeMenu_is_toggle s _ _ Hn Ht (hasClass_add _ _)) as H.
  split; [vm_compute; reflexivity|]. split; [exact H|]. vm_compute; reflexivity.
Defined.

(** X4: with the toggle button missing, [closeMenu] is not all-or-nothing:
    on a closed panel it returns without a change, but on a panel that
    carries the open class it removes the class and then throws a TypeError
    when it reaches the button, so the panel is closed and the error escapes. *)
Theorem closeMenu_without_toggle (s : State) (nav : Element) :
  mainNav (document s) = Some nav → menuToggle (document s) = None →
  Navigation.closeMenu s
  = if hasClass "is-open" nav
    then (Throw TypeError,
          with_document (put MainNav (with_classList (λ cs, cs ∖ {["is-open"]}) nav)) s)
    else (Normal tt, s).
Proof.
  intros Hn Ht. destruct (hasClass "is-open" nav) eqn:Hc.
  - js_eval. rewrite Hn, Hc. simpl. rewrite Hn. simpl. by rewrite Ht.
  - by apply (closeMenu_closed s nav).
Qed.

(** A page whose panel is open in the markup and that has no toggle button. *)
Definition page_open_without_toggle : Dom :=
  mkDom None (Some (with_classList (λ cs, cs ∪ {["is-open"]}) blank))
        (modal sample_page) (openButtons sample_page) (closeBtn sample_page)
        (amountBtns sample_page) (processBtn sample_page) (step1 sample_page)
        (step2 sample_page) (closeSuccessBtn sample_page) (links sample_page)
        (statsSection sample_page) (counters sample_page) (selectable sample_page)
        (validSelector sample_page) (localeString sample_page).

Lemma closeMenu_without_toggle_witness :
  let s := start page_open_without_toggle in
  let s' := step s (Click (TLink 1) false) in
  (menuToggle (document s) = None ∧ menu_open s = Some true)
  ∧ throws Navigation.closeMenu s = true
  ∧ menu_open (exec Navigation.closeMenu s) = Some false
  ∧ menu_open s' = Some false ∧ reported (host s') = [TypeError].
Proof.
  intros s s'.
  pose proof (closeMenu_without_toggle s
                (with_classList (λ cs, cs ∪ {["is-open"]}) blank) eq_refl eq_refl) as H.
  rewrite hasClass_add in H.
  split; [split; vm_compute; reflexivity|].
  unfold throws, exec. rewrite H.
  split; [reflexivity|]. split; [vm_compute; reflexivity|].
  split; vm_compute; reflexivity.
Defined.

(** ** A click by its path *)

(** The path of the click that [Click t inModal] stands for. *)
Definition path_of_click (t : Target) (inModal : bool) : list (list Target) :=
  if inModal && negb (bool_decide (t = TModal)) then [[t]; [TModal]] else [[t]].

Lemma fold_left_ext_in {A} (F G : State → A → State) l s :
  (∀ s' x, x ∈ l → F s' x = G s' x) → fold_left F l s = fold_left G l s.
Proof.
  revert s. induction l as [|x l IH]; intros s H; simpl; [done|].
  rewrite H by (by left). apply IH. intros s' y Hy. apply H. by right.
Qed.

(** A listener sees of [e.target] only whether it is the modal. *)
Lemma handle_target l t :
  handle l t = handle l (if bool_decide (t = TModal) then TModal else TElsewhere).
Proof. destruct l; try done. simpl. by destruct t. Qed.

Lemma dispatch_single target on s :
  dispatch target on s
  = dispatch_all (if bool_decide (target = TModal) then TModal else TElsewhere) [on] s.
Proof.
  unfold dispatch, dispatch_all. apply fold_left_ext_in. intros s' [t l] _.
  rewrite <- handle_target. case_decide as E.
  - subst. rewrite bool_decide_eq_true_2; [done | by left].
  - rewrite bool_decide_eq_false_2; [done|]. by intros ->%list_elem_of_singleton.
Qed.

(** [Click] is the click with the shortest path. *)
Lemma click_is_deliver t inModal s :
  step s (Click t inModal) = step s (ClickPath (path_of_click t inModal)).
Proof.
  change (click t inModal s = deliver (path_of_click t inModal) s).
  unfold click, path_of_click, deliver.
  assert (E : e_target [[t]] = if bool_decide (t = TModal) then TModal else TElsewhere).
  { simpl. case_bool_decide as H1; case_bool_decide as H2; try done.
    - by apply list_elem_of_singleton in H1.
    - destruct H1. subst. by left. }
  destruct (inModal && _).
  - change (e_target [[t]; [TModal]]) with (e_target [[t]]). rewrite E.
    simpl fold_left. by rewrite !dispatch_single.
  - rewrite E. simpl fold_left. by rewrite dispatch_single.
Qed.

(** The listeners on an element that the script found under [names], in
    registration order. *)
Definition named (names : list Target) (ls : list (Target * Listener)) : list Listener :=
  snd <$> filter (λ tl, fst tl ∈ names) ls.
Definition listeners_at (d : Dom) (names : list Target) : list Listener :=
  named names (installed d).

Lemma dispatch_all_named target names s :
  dispatch_all target names s
  = fold_left (invoke target) (named names (listeners (host s))) s.
Proof.
  unfold dispatch_all, named. generalize (listeners (host s)). intros ls. revert s.
  induction ls as [|[t l] ls IH]; intros s; simpl; [done|].
  rewrite IH. rewrite filter_cons. simpl. case_bool_decide as E.
  - by rewrite decide_True.
  - by rewrite decide_False.
Qed.

Lemma named_app names l1 l2 : named names (l1 ++ l2) = named names l1 ++ named names l2.
Proof. unfold named. by rewrite filter_app, fmap_app. Qed.

Lemma named_only names ls t :
  (∀ t' l, (t', l) ∈ ls → t' ∈ names → t' = t) → t ∈ names →
  named names ls = handlers_on t ls.
Proof.
  intros H Ht. unfold named, handlers_on.
  induction ls as [|[t' l] ls IH]; [done|].
  assert (IH' : snd <$> filter (λ tl, fst tl ∈ names) ls
                = omap (λ tl, if decide (fst tl = t) then Some (snd tl) else None) ls).
  { apply IH. intros t'' l' Hin. apply (H t'' l'). by right. }
  rewrite filter_cons. simpl. destruct (decide (t' = t)) as [->|E].
  - rewrite decide_True by done. simpl. f_equal. exact IH'.
  - rewrite decide_False; [exact IH'|].
    intros Hin. apply E. apply (H t' l); [by left | done].
Qed.

Lemma named_none names ls : (∀ t l, (t, l) ∈ ls → t ∉ names) → named names ls = [].
Proof.
  intros H. unfold named. induction ls as [|[t l] ls IH]; [done|].
  rewrite filter_cons. simpl. rewrite decide_False by (apply (H t l); by left).
  apply IH. intros t' l' Hin. apply (H t' l'). by right.
Qed.

Lemma named_single names t ls :
  (∀ t', t' ∈ names ↔ t' = t) → named names ls = handlers_on t ls.
Proof.
  intros H. apply named_only; [|by apply H]. intros t' l _ Hin. by apply H.
Qed.

Lemma named_elem_of names ls l :
  l ∈ named names ls ↔ ∃ t, t ∈ names ∧ l ∈ handlers_on t ls.
Proof.
  unfold named, handlers_on. rewrite list_elem_of_fmap. split.
  - intros ([t l'] & -> & Hin). apply list_elem_of_filter in Hin as [Hn Hin].
    exists t. split; [done|]. apply list_elem_of_omap. exists (t, l').
    split; [done|]. simpl. by rewrite decide_True.
  - intros (t & Ht & Hin). apply list_elem_of_omap in Hin as ([t' l'] & Hin & Heq).
    simpl in Heq. destruct (decide (t' = t)) as [E|E]; [|done].
    injection Heq as E'. subst. exists (t, l).
    split; [done|]. by apply list_elem_of_filter.
Qed.

Lemma listeners_at_single d t : listeners_at d [t] = handlers_on t (installed d).
Proof. apply named_single. intros t'. apply list_elem_of_singleton. Qed.

(** ** What [App.init] registers, and on what *)

Lemma handlers_on_menuToggle d :
  handlers_on TMenuToggle (installed d)
  = if present (menuToggle d) && present (mainNav d) then [OnToggle] else [].
Proof. destruct d as [t n m]. by handlers_on_installed; destruct t, n, m. Qed.

Lemma handlers_on_closeBtn d :
  handlers_on TCloseBtn (installed d)
  = if present (modal d) && present (closeBtn d) then [OnClose] else [].
Proof. destruct d as [? ? m ? c]. by handlers_on_installed; destruct m, c. Qed.

Lemma handlers_on_closeSuccessBtn d :
  handlers_on TCloseSuccessBtn (installed d)
  = if present (modal d) && present (closeSuccessBtn d) then [OnClose] else [].
Proof.
  destruct d as [? ? m ? ? ? ? ? ? c]. by handlers_on_installed; destruct m, c.
Qed.

Lemma handlers_on_elsewhere d : handlers_on TElsewhere (installed d) = [].
Proof. by handlers_on_installed. Qed.

(** The names under which the three initialisers register. *)
Definition modal_target (t : Target) : bool :=
  match t with
  | TOpenButton _ | TCloseBtn | TCloseSuccessBtn | TModal | TAmountBtn _ | TProcessBtn => true
  | _ => false
  end.

Lemma navigation_listeners_targets d t l :
  (t, l) ∈ navigation_listeners d → t = TMenuToggle.
Proof.
  unfold navigation_listeners. destruct (_ && _); [|by intros ?%elem_of_nil].
  intros H%list_elem_of_singleton. by simplify_eq.
Qed.

Lemma scroll_listeners_targets d t l :
  (t, l) ∈ scroll_listeners d → ∃ i, t = TLink i.
Proof.
  unfold scroll_listeners. intros (i & Heq & _)%list_elem_of_fmap. simplify_eq. by exists i.
Qed.

Lemma modal_listeners_targets d t l : (t, l) ∈ modal_listeners d → modal_target t = true.
Proof.
  unfold modal_listeners. destruct (present (modal d)); [|by intros ?%elem_of_nil].
  rewrite !elem_of_app. intros [H|[H|[H|[H|[H|H]]]]].
  - apply list_elem_of_fmap in H as (i & Heq & _). by simplify_eq.
  - destruct (present (closeBtn d)); [|by apply elem_of_nil in H].
    apply list_elem_of_singleton in H. by simplify_eq.
  - destruct (present (closeSuccessBtn d)); [|by apply elem_of_nil in H].
    apply list_elem_of_singleton in H. by simplify_eq.
  - apply list_elem_of_singleton in H. by simplify_eq.
  - apply list_elem_of_fmap in H as (i & Heq & _). by simplify_eq.
  - destruct (present (processBtn d)); [|by apply elem_of_nil in H].
    apply list_elem_of_singleton in H. by simplify_eq.
Qed.

(** The listeners on an element that is found by two queries. *)
Lemma listeners_at_link_and d t j :
  modal_target t = true →
  listeners_at d [t; TLink j]
  = handlers_on (TLink j) (installed d) ++ handlers_on t (installed d).
Proof.
  intros Ht. unfold listeners_at.
  assert (Hnames : ∀ t', t' ∈ [t; TLink j] ↔ t' = t ∨ t' = TLink j).
  { intros t'. rewrite elem_of_cons, list_elem_of_singleton. done. }
  unfold installed. rewrite !named_app, !handlers_on_app.
  rewrite (named_none _ (navigation_listeners d)).
  2:{ intros t' l ->%navigation_listeners_targets [E|E]%Hnames; subst; done. }
  rewrite (named_only _ (scroll_listeners d) (TLink j)).
  2:{ intros t' l [i ->]%scroll_listeners_targets [E|E]%Hnames; subst; done. }
  2:{ apply Hnames. by right. }
  rewrite (named_only _ (modal_listeners d) t).
  2:{ intros t' l Hm%modal_listeners_targets [E|E]%Hnames; subst; done. }
  2:{ apply Hnames. by left. }
  assert (H1 : handlers_on (TLink j) (navigation_listeners d) = []).
  { unfold navigation_listeners. by rewrite handlers_on_if, andb_false_r. }
  assert (H2 : handlers_on (TLink j) (modal_listeners d) = []).
  {    rewrite <- (named_single [TLink j]) by (intros t'; apply list_elem_of_singleton).
    apply named_none. intros t' l Hm%modal_listeners_targets E%list_elem_of_singleton.
    by subst. }
  assert (H3 : handlers_on t (navigation_listeners d) = []).
  { unfold navigation_listeners. rewrite handlers_on_if.
    rewrite bool_decide_eq_false_2, andb_false_r; [done|]. by intros <-. }
  assert (H4 : handlers_on t (scroll_listeners d) = []).
  { rewrite <- (named_single [t]) by (intros t'; apply list_elem_of_singleton).
    apply named_none. intros t' l [i ->]%scroll_listeners_targets E%list_elem_of_singleton.
    by subst. }
  rewrite H1, H2, H3, H4. simpl. by rewrite app_nil_r.
Qed.

Lemma listeners_at_toggle_link d j :
  listeners_at d [TMenuToggle; TLink j]
  = handlers_on TMenuToggle (installed d) ++ handlers_on (TLink j) (installed d).
Proof.
  unfold listeners_at.
  assert (Hnames : ∀ t', t' ∈ [TMenuToggle; TLink j] ↔ t' = TMenuToggle ∨ t' = TLink j).
  { intros t'. rewrite elem_of_cons, list_elem_of_singleton. done. }
  unfold installed. rewrite !named_app, !handlers_on_app.
  rewrite (named_only _ (navigation_listeners d) TMenuToggle).
  2:{ by intros t' l ->%navigation_listeners_targets _. }
  2:{ apply Hnames. by left. }
  rewrite (named_only _ (scroll_listeners d) (TLink j)).
  2:{ intros t' l [i ->]%scroll_listeners_targets [E|E]%Hnames; subst; done. }
  2:{ apply Hnames. by right. }
  rewrite (named_none _ (modal_listeners d)).
  2:{ intros t' l Hm%modal_listeners_targets [E|E]%Hnames; subst; done. }
  assert (H1 : handlers_on (TLink j) (navigation_listeners d) = []).
  { unfold navigation_listeners. by rewrite handlers_on_if, andb_false_r. }
  assert (H2 : handlers_on (TLink j) (modal_listeners d) = []).
  { rewrite <- (named_single [TLink j]) by (intros t'; apply list_elem_of_singleton).
    apply named_none. intros t' l Hm%modal_listeners_targets E%list_elem_of_singleton.
    by subst. }
  assert (H3 : handlers_on TMenuToggle (scroll_listeners d) = []).
  { rewrite <- (named_single [TMenuToggle]) by (intros t'; apply list_elem_of_singleton).
    apply named_none. intros t' l [i ->]%scroll_listeners_targets E%list_elem_of_singleton.
    by subst. }
  assert (H4 : handlers_on TMenuToggle (modal_listeners d) = []).
  { rewrite <- (named_single [TMenuToggle]) by (intros t'; apply list_elem_of_singleton).
    apply named_none. intros t' l Hm%modal_listeners_targets E%list_elem_of_singleton.
    by subst. }
  rewrite H1, H2, H3, H4. simpl. by rewrite !app_nil_r.
Qed.

(** X5: what [App.init] does on a freshly loaded page.  It does not throw
    and does not touch the page; it logs its one line; the observer observes
    exactly when the stats section exists; and it registers one listener for
    each element that a query found, or none when the guard fails: for the
    toggle button only with both navigation elements, for every fragment
    link always, and for the donation triggers, close controls, backdrop,
    amount buttons and payment button only when the modal root exists (and
    the control itself, for the optional ones).  The listeners are counted by
    query: an element that two queries found has the listeners of both, in
    the order of the initialisers, so that a donation trigger that is also a
    fragment link has the link's listener first and then the trigger's, and a
    toggle button that is also a link the toggle's first. *)
Theorem init_registers (d : Dom) :
  let s := start d in
  let ls := listeners (host s) in
  let on_modal (b : bool) (l : Listener) :=
    if present (modal d) && b then [l] else [] in
  throws App.init (load d) = false
  ∧ document s = d
  ∧ effects (host s) = [ConsoleLog "App Fundación Inicializada correctamente."]
  ∧ observing (host s) = present (statsSection d)
  ∧ handlers_on TMenuToggle ls
    = (if present (menuToggle d) && present (mainNav d) then [OnToggle] else [])
  ∧ (∀ i, handlers_on (TLink i) ls = if i <? length (links d) then [OnLink i] else [])
  ∧ (∀ i, handlers_on (TOpenButton i) ls = on_modal (i <? length (openButtons d)) OnOpen)
  ∧ handlers_on TCloseBtn ls = on_modal (present (closeBtn d)) OnClose
  ∧ handlers_on TCloseSuccessBtn ls = on_modal (present (closeSuccessBtn d)) OnClose
  ∧ handlers_on TModal ls = on_modal true OnBackdrop
  ∧ (∀ i, handlers_on (TAmountBtn i) ls
          = on_modal (i <? length (amountBtns d)) (OnAmount i))
  ∧ handlers_on TProcessBtn ls = on_modal (present (processBtn d)) OnProcess
  ∧ handlers_on TElsewhere ls = []
  ∧ (∀ names l, l ∈ named names ls ↔ ∃ t, t ∈ names ∧ l ∈ handlers_on t ls)
  ∧ (∀ t, named [t] ls = handlers_on t ls)
  ∧ (∀ t j, modal_target t = true →
            named [t; TLink j] ls = handlers_on (TLink j) ls ++ handlers_on t ls)
  ∧ (∀ j, named [TMenuToggle; TLink j] ls
          = handlers_on TMenuToggle ls ++ handlers_on (TLink j) ls).
Proof.
  intros s ls on_modal. unfold ls, s, on_modal, throws.
  rewrite App_init_spec, start_spec. simpl.
  split; [done|]. split; [done|]. split; [done|]. split; [done|].
  split; [apply handlers_on_menuToggle|].
  split; [apply handlers_on_link|]. split; [apply handlers_on_openButton|].
  split; [apply handlers_on_closeBtn|]. split; [apply handlers_on_closeSuccessBtn|].
  split; [by rewrite handlers_on_modal, andb_true_r|].
  split; [apply handlers_on_amountBtn|]. split; [apply handlers_on_processBtn|].
  split; [apply handlers_on_elsewhere|].
  split; [intros names l; apply named_elem_of|].
  split; [apply listeners_at_single|]. split; [apply listeners_at_link_and|].
  apply listeners_at_toggle_link.
Qed.

(** X6: after initialisation nothing changes the set-up of the page.
    Whatever the events, the registered listeners are those of [App.init],
    every element the script queried is present or absent as it was at load
    time, the amount buttons and the counters are as many as before, and the
    links and their targets are the same: no handler registers or removes a
    listener or an element. *)
Theorem setup_is_fixed (d : Dom) (evs : list Event) :
  let s := run evs (start d) in
  listeners (host s) = listeners (host (start d))
  ∧ (∀ r, present (get r (document s)) = present (get r d))
  ∧ present (closeBtn (document s)) = present (closeBtn d)
  ∧ present (closeSuccessBtn (document s)) = present (closeSuccessBtn d)
  ∧ present (statsSection (document s)) = present (statsSection d)
  ∧ length (amountBtns (document s)) = length (amountBtns d)
  ∧ length (counters (document s)) = length (counters d)
  ∧ length (openButtons (document s)) = length (openButtons d)
  ∧ links (document s) = links d
  ∧ selectable (document s) = selectable d.
Proof.
  intros s.
  pose proof (shape_run evs (start d)) as [Hl Hp Ho Hc Hcs Hli Hst Hse _ _ Ha Hco].
  fold s in Hl, Hp, Ho, Hc, Hcs, Hli, Hst, Hse, Ha, Hco.
  rewrite start_spec in Hp, Ho, Hc, Hcs, Hli, Hst, Hse, Ha, Hco. simpl in *.
  rewrite Hc, Hcs, Hst, Ho. by repeat (split; [done|]).
Qed.

(** ** Initialising twice *)

Lemma App_init_any s :
  ∃ b, App.init s
  = (Normal tt,
     with_host (with_effects (λ es, es ++ [ConsoleLog "App Fundación Inicializada correctamente."]))
       (add_listeners (modal_listeners (document s))
          (with_host (with_observing b)
             (add_listeners (scroll_listeners (document s))
                (add_listeners (navigation_listeners (document s)) s))))).
Proof.
  assert (H : ∀ s0, ∃ b, StatsAnimation.init s0
    = (Normal tt, with_host (with_observing b) s0)).
  { intros [d' [] a n]. unfold StatsAnimation.init, isPresent, query, read, bind, observe.
    simpl. destruct (present _); simpl; eauto. }
  destruct (H (add_listeners (scroll_listeners (document s))
                 (add_listeners (navigation_listeners (document s)) s))) as [b Hb].
  exists b.
  unfold App.init. unfold bind at 1. rewrite Navigation_init_spec.
  unfold bind at 1. rewrite SmoothScroll_init_spec.
  unfold bind at 1. simpl document. rewrite Hb.
  unfold bind at 1. rewrite DonationModal_init_spec. done.
Qed.

Lemma App_init_listeners s :
  throws App.init s = false
  ∧ listeners (host (exec App.init s)) = listeners (host s) ++ installed (document s)
  ∧ document (exec App.init s) = document s
  ∧ reported (host (exec App.init s)) = reported (host s).
Proof.
  destruct (App_init_any s) as [b Hb]. unfold throws, exec. rewrite Hb.
  unfold add_listeners, installed; unfold_with; simpl.
  by rewrite <- !app_assoc.
Qed.

(** X7: [App.init] is not idempotent.  Run a second time it registers every
    listener again, so each element then has two; a click on the toggle
    button toggles the panel twice and leaves it as it was. *)
Theorem second_init_doubles_listeners (d : Dom) (nav toggle : Element) (inModal : bool) :
  mainNav d = Some nav → menuToggle d = Some toggle →
  let s := exec App.init (start d) in
  listeners (host s) = installed d ++ installed d
  ∧ handlers_on TMenuToggle (listeners (host s)) = [OnToggle; OnToggle]
  ∧ reported (host (step s (Click TMenuToggle inModal))) = []
  ∧ menu_open (step s (Click TMenuToggle inModal)) = menu_open s.
Proof.
  intros Hn Ht s.
  destruct (App_init_listeners (start d)) as (_ & Hl & Hd & He). fold s in Hl, Hd, He.
  rewrite start_spec in Hl, Hd, He. simpl in Hl, Hd, He. clearbody s.
  assert (Hh : handlers_on TMenuToggle (listeners (host s)) = [OnToggle; OnToggle]).
  { rewrite Hl, handlers_on_app, handlers_on_menuToggle, Hn, Ht. done. }
  split; [done|]. split; [done|].
  assert (Hclick : step s (Click TMenuToggle inModal)
    = callback Navigation.onToggleClick (callback Navigation.onToggleClick s)).
  { change (step s (Click TMenuToggle inModal)) with (click TMenuToggle inModal s).
    unfold click. rewrite (dispatch_handlers TMenuToggle TMenuToggle s), Hh.
    simpl fold_left.
    destruct inModal; [|done]. simpl andb. cbv iota.
    rewrite dispatch_handlers.
    set (s2 := invoke TMenuToggle _ OnToggle).
    assert (Hl2 : listeners (host s2) = listeners (host s)).
    { unfold s2, invoke.
      rewrite (shape_listeners _ _ (shape_callback _ _ (shape_handle OnToggle TMenuToggle))).
      by rewrite (shape_listeners _ _ (shape_callback _ s (shape_handle OnToggle TMenuToggle))). }
    rewrite Hl2, Hl, handlers_on_app, handlers_on_modal.
    destruct (present (modal d)); simpl; [|done].
    unfold invoke at 1 2. simpl handle.
    by rewrite !(onBackdropClick_elsewhere TMenuToggle). }
  set (b := negb (hasClass "is-open" nav)).
  assert (H1 : callback Navigation.onToggleClick s
    = with_document (put MenuToggle (toggled_button b toggle))
        (with_document (put MainNav (toggled_nav b nav)) s)).
  { unfold callback. by rewrite (onToggleClick_spec s nav toggle) by (by rewrite Hd). }
  rewrite Hclick, H1. clear Hclick H1.
  match goal with |- context [callback Navigation.onToggleClick ?s1] =>
    assert (H2 : callback Navigation.onToggleClick s1
      = with_document (put MenuToggle (toggled_button (negb b) (toggled_button b toggle)))
          (with_document (put MainNav (toggled_nav (negb b) (toggled_nav b nav))) s1))
  end.
  { unfold callback.
    rewrite (onToggleClick_spec _ (toggled_nav b nav) (toggled_button b toggle)) by done.
    by rewrite hasClass_toggled. }
  rewrite H2. clear H2. unfold menu_open. simpl. rewrite Hd, Hn. simpl.
  split; [exact He|].
  rewrite hasClass_toggled. unfold b. by rewrite negb_involutive.
Qed.

Lemma second_init_doubles_listeners_witness :
  let s := exec App.init (start sample_page) in
  (mainNav sample_page = Some blank
   ∧ menuToggle sample_page = Some (with_innerHTML "☰" blank))
  ∧ handlers_on TMenuToggle (listeners (host s)) = [OnToggle; OnToggle]
  ∧ menu_open (step s (Click TMenuToggle false)) = Some false
  ∧ menu_open (step (start sample_page) (Click TMenuToggle false)) = Some true.
Proof.
  intros s.
  pose proof (second_init_doubles_listeners sample_page blank (with_innerHTML "☰" blank)
                false eq_refl eq_refl) as (_ & Hh & _ & Ho).
  split; [by split|]. split; [exact Hh|].
  split; [|vm_compute; reflexivity].
  fold s in Ho. rewrite Ho. vm_compute; reflexivity.
Defined.

(** ** What a click leaves alone *)

(** If none of the listeners a click on [t] can reach changes [f], the click
    does not change [f]. *)
Lemma click_same {A} (f : State → A) d s t inModal :
  running d s →
  (∀ on l, registered_for d on l → on = t ∨ on = TModal →
           relates (same f) (handle l t)) →
  (∀ e s', f (report e s') = f s') →
  f (step s (Click t inModal)) = f s.
Proof.
  intros Hr Hh Hrep.
  set (R := λ s1 s2 : State, running d s1 → running d s2 ∧ f s2 = f s1).
  assert (Hrefl : ∀ s', R s' s') by (by intros s' H).
  assert (Htrans : ∀ s1 s2 s3, R s1 s2 → R s2 s3 → R s1 s3).
  { intros s1 s2 s3 H12 H23 H1. destruct (H12 H1) as [H2 E2].
    destruct (H23 H2) as [H3 E3]. split; [done | congruence]. }
  assert (Hd : ∀ on s', on = t ∨ on = TModal → running d s' → R s' (dispatch t on s')).
  { intros on s' Hon Hr'. apply dispatch_relates; [done..|].
    intros l s'' Hin Hr''. rewrite (running_listeners d s' Hr') in Hin.
    apply installed_registered in Hin. split.
    - eapply shape_trans; [exact Hr''|]. apply shape_callback, shape_handle.
    - apply same_callback; [by apply (Hh on) | done]. }
  simpl. unfold click.
  destruct (Hd t s (or_introl eq_refl) Hr Hr) as [Hr1 E1].
  destruct (_ && _); [|done].
  destruct (Hd TModal _ (or_intror eq_refl) Hr1 Hr1) as [Hr2 E2]. congruence.
Qed.

(** The same for a click with any path: the listeners it can reach are those
    registered on an element of the path under one of its names. *)
Lemma deliver_same {A} (f : State → A) d s path :
  running d s →
  (∀ on l names, registered_for d on l → names ∈ path → on ∈ names →
                 relates (same f) (handle l (e_target path))) →
  (∀ e s', f (report e s') = f s') →
  f (step s (ClickPath path)) = f s.
Proof.
  intros Hr Hh Hrep.
  set (R := λ s1 s2 : State, running d s1 → running d s2 ∧ f s2 = f s1).
  assert (Hrefl : ∀ s', R s' s') by (by intros s' H).
  assert (Htrans : ∀ s1 s2 s3, R s1 s2 → R s2 s3 → R s1 s3).
  { intros s1 s2 s3 H12 H23 H1. destruct (H12 H1) as [H2 E2].
    destruct (H23 H2) as [H3 E3]. split; [done | congruence]. }
  assert (Hd : ∀ names s', names ∈ path →
    R s' (dispatch_all (e_target path) names s')).
  { intros names s' Hnames Hr'. revert Hr'.
    pose proof (λ H, running_listeners d s' H) as Hl.
    change (R s' (dispatch_all (e_target path) names s')).
    intros Hr'. specialize (Hl Hr'). revert Hr'.
    change (R s' (dispatch_all (e_target path) names s')).
    apply dispatch_all_relates; [done..|].
    intros t l s'' Hin Ht Hr''. rewrite Hl in Hin.
    apply installed_registered in Hin. split.
    - eapply shape_trans; [exact Hr''|]. apply shape_callback, shape_handle.
    - apply same_callback; [by apply (Hh t l names) | done]. }
  assert (Hfold : ∀ p s', (∀ names, names ∈ p → names ∈ path) →
    R s' (fold_left (λ s'' names, dispatch_all (e_target path) names s'') p s')).
  { induction p as [|names p IH]; intros s' Hp; simpl; [done|].
    eapply Htrans; [apply Hd, Hp; by left|]. apply IH. intros n Hn. apply Hp. by right. }
  simpl. unfold deliver. by apply (Hfold path s).
Qed.

Definition amount_buttons (s : State) : list Element := amountBtns (document s).

Lemma handle_amount_buttons l t :
  (∀ i, l ≠ OnAmount i) → relates (same amount_buttons) (handle l t).
Proof.
  intros Hl. destruct l as [| | | |i| |i]; try (by destruct (Hl i));
    simpl; js_handlers; relates_same amount_buttons.
Qed.

Lemma updateCount_amount_buttons cl :
  relates (same amount_buttons) (StatsAnimation.updateCount cl).
Proof. js_stats; relates_same amount_buttons. Qed.

Lemma onIntersection_amount_buttons entries :
  relates (same amount_buttons) (StatsAnimation.onIntersection entries).
Proof. js_stats; relates_same amount_buttons. Qed.

Lemma fire_amount_buttons cb : relates (same amount_buttons) (fire cb).
Proof. destruct cb; simpl; js_handlers; relates_same amount_buttons. Qed.

Definition is_amount_button (t : Target) : bool :=
  match t with
  | TAmountBtn _ => true
  | _ => false
  end.

(** A click that lands on an amount button, or inside one. *)
Definition amount_click (ev : Event) : bool :=
  match ev with
  | Click t _ => is_amount_button t
  | ClickPath path => existsb (existsb is_amount_button) path
  | _ => false
  end.

Lemma step_amount_buttons d s ev :
  running d s → amount_click ev = false →
  amountBtns (document (step s ev)) = amountBtns (document s).
Proof.
  intros Hr Hev. destruct ev as [t inModal|path|entries| |ms].
  - apply (click_same amount_buttons d); [done| |done].
    intros on l Hreg Hon. apply handle_amount_buttons. intros i ->.
    simpl in Hreg. destruct Hreg as [-> _]. by destruct Hon as [<-|?].
  - apply (deliver_same amount_buttons d); [done| |done].
    intros on l names Hreg Hnames Hon. apply handle_amount_buttons. intros i ->.
    simpl in Hreg. destruct Hreg as [-> _]. simpl in Hev.
    assert (Ht : existsb (existsb is_amount_button) path = true); [|congruence].
    apply existsb_exists. exists names. split; [by apply list_elem_of_In|].
    apply existsb_exists. exists (TAmountBtn i). split; [by apply list_elem_of_In|done].
  - simpl. unfold intersect. destruct (observing _); [|done].
    apply (same_callback amount_buttons); [apply onIntersection_amount_buttons|done].
  - simpl. unfold frame. etrans; [apply (same_fold_left amount_buttons)|done].
    intros s' cl. apply same_callback; [apply updateCount_amount_buttons|done].
  - simpl. unfold elapse. etrans; [apply (same_fold_left amount_buttons)|done].
    intros s' tm. apply same_callback; [apply fire_amount_buttons|done].
Qed.

(** X8: only a click on an amount button changes an amount button.  Through
    any events without such a click the amount buttons stay exactly as they
    are; in particular closing and reopening the modal, or a completed payment
    simulation, leaves the selected marker where it was: opening the modal
    does not reset the selection. *)
Theorem selection_survives (d : Dom) (s : State) (evs : list Event) :
  running d s → forallb (λ ev, negb (amount_click ev)) evs = true →
  amountBtns (document (run evs s)) = amountBtns (document s)
  ∧ ∀ i, selected (run evs s) i = selected s i.
Proof.
  intros Hr Hevs.
  assert (H : amountBtns (document (run evs s)) = amountBtns (document s)).
  { revert s Hr. induction evs as [|ev evs IH]; intros s Hr; [done|].
    simpl in Hevs. apply andb_true_iff in Hevs as [Hev Hevs].
    rewrite run_cons, IH by (done || by apply running_step).
    apply (step_amount_buttons d); [done|]. by destruct (amount_click ev). }
  split; [done|]. intros i. unfold selected. by rewrite H.
Qed.

Lemma selection_survives_witness :
  let s := run [Click (TOpenButton 0) false; Click (TAmountBtn 2) true]
               (start sample_page) in
  let s' := run [Click TProcessBtn true; Elapse 2000; Click TCloseSuccessBtn true;
                 Click (TOpenButton 0) false] s in
  selected s 2 = true ∧ selected s' 2 = true
  ∧ display <$> step1 (document s') = Some "block".
Proof.
  intros s s'.
  assert (Hr : running sample_page s) by apply running_run.
  pose proof (selection_survives sample_page s
                [Click TProcessBtn true; Elapse 2000; Click TCloseSuccessBtn true;
                 Click (TOpenButton 0) false] Hr eq_refl) as [_ H].
  fold s' in H. rewrite H.
  split; [vm_compute; reflexivity|]. split; vm_compute; reflexivity.
Defined.

(** ** Closing the modal *)

Definition hide_modal (m : Element) : Element :=
  with_classList (λ cs, cs ∖ {["is-visible"]}) m.

Definition the_modal (s : State) : option Element := modal (document s).

Lemma closeModal_spec s m :
  modal (document s) = Some m →
  callback DonationModal.closeModal s = with_document (put Modal (hide_modal m)) s.
Proof. intros Hm. unfold callback. js_eval. by rewrite Hm. Qed.

Lemma handle_the_modal l t :
  l ≠ OnOpen → l ≠ OnClose → (l = OnBackdrop → t ≠ TModal) →
  relates (same the_modal) (handle l t).
Proof.
  intros Ho Hc Hb. destruct l; try done; simpl.
  - js_handlers; relates_same the_modal.
  - destruct t; try (by destruct Hb); apply (relates_ret _ (same_refl the_modal)).
  - js_handlers; relates_same the_modal.
  - js_handlers; relates_same the_modal.
  - js_handlers; relates_same the_modal.
Qed.

Lemma hide_modal_twice m : hide_modal (hide_modal m) = hide_modal m.
Proof.
  destruct m. unfold hide_modal, with_classList; simpl. f_equal.
  apply set_eq. intros x. rewrite !elem_of_difference. tauto.
Qed.

(** A fold reaches [Q] when one of its steps establishes it and the others
    keep it. *)
Lemma fold_left_reaches {A} (F : State → A → State) (Inv Q : State → Prop) l x s :
  x ∈ l → Inv s →
  (∀ s' y, y ∈ l → Inv s' → Inv (F s' y) ∧ (Q s' → Q (F s' y))) →
  (∀ s', Inv s' → Q (F s' x)) →
  Q (fold_left F l s).
Proof.
  intros Hin HI Hstep Hx.
  assert (Hkeep : ∀ l' s', (∀ y, y ∈ l' → y ∈ l) → Inv s' → Q s' → Q (fold_left F l' s')).
  { induction l' as [|y l' IH]; intros s' Hsub HI' HQ; simpl; [done|].
    destruct (Hstep s' y) as [HI'' HQ'']; [apply Hsub; by left | done |].
    apply IH; [intros z Hz; apply Hsub; by right | done | by apply HQ'']. }
  assert (Hgo : ∀ l' s', (∀ y, y ∈ l' → y ∈ l) → x ∈ l' → Inv s' → Q (fold_left F l' s')).
  { induction l' as [|y l' IH]; intros s' Hsub Hx' HI'; [by apply elem_of_nil in Hx'|].
    simpl. apply elem_of_cons in Hx' as [<-|Hx'].
    - apply Hkeep; [intros z Hz; apply Hsub; by right | | by apply Hx].
      apply (Hstep s' x); [apply Hsub; by left | done].
    - apply IH; [intros z Hz; apply Hsub; by right | done |].
      apply (Hstep s' y); [apply Hsub; by left | done]. }
  by apply Hgo.
Qed.

Definition is_trigger (t : Target) : bool :=
  match t with
  | TOpenButton _ => true
  | _ => false
  end.

(** A donation trigger lies on the path. *)
Definition opening (path : list (list Target)) : bool :=
  existsb (existsb is_trigger) path.

(** The click landed on the modal root itself, or a close control that
    exists lies on the path. *)
Definition closing (d : Dom) (path : list (list Target)) : bool :=
  bool_decide (e_target path = TModal)
  || existsb (λ names,
       bool_decide (TCloseBtn ∈ names) && present (closeBtn d)
       || bool_decide (TCloseSuccessBtn ∈ names) && present (closeSuccessBtn d)) path.

(** The modal element is as it was, or has lost the visible class. *)
Definition dims (s s' : State) : Prop :=
  the_modal s' = the_modal s ∨ the_modal s' = hide_modal <$> the_modal s.

Definition dimmed (s : State) : Prop := the_modal s = hide_modal <$> the_modal s.

Lemma dims_dimmed s s' : dims s s' → dimmed s → dimmed s'.
Proof.
  unfold dims, dimmed. intros [->| ->] Hd; [done|].
  destruct (the_modal s) as [m|]; [|done]. simpl. by rewrite hide_modal_twice.
Qed.

Lemma closeModal_dims d s :
  running d s → present (modal d) = true →
  the_modal (callback DonationModal.closeModal s) = hide_modal <$> the_modal s.
Proof.
  intros Hr Hm. pose proof (running_present d s Modal Hr) as Hp. simpl in Hp.
  rewrite Hm in Hp. unfold the_modal.
  destruct (modal (document s)) as [m|] eqn:E; [|done].
  by rewrite (closeModal_spec s m).
Qed.

(** What one listener does to the modal element when it is no trigger's. *)
Lemma callback_dims d s t l target :
  running d s → registered_for d t l → l ≠ OnOpen →
  dims s (callback (handle l target) s)
  ∧ (l = OnClose ∨ (l = OnBackdrop ∧ target = TModal) → dimmed (callback (handle l target) s)).
Proof.
  intros Hr Hreg Hopen.
  assert (Hsame : l ≠ OnClose → (l = OnBackdrop → target ≠ TModal) →
    the_modal (callback (handle l target) s) = the_modal s).
  { intros Hc Hb. apply same_callback; [by apply handle_the_modal | done]. }
  assert (Hclose : present (modal d) = true →
    the_modal (callback DonationModal.closeModal s) = hide_modal <$> the_modal s).
  { by apply closeModal_dims. }
  assert (Hdim : ∀ s', the_modal s' = hide_modal <$> the_modal s → dimmed s').
  { intros s' E. unfold dimmed. rewrite E.
    destruct (the_modal s) as [m|]; [|done]. simpl. by rewrite hide_modal_twice. }
  destruct l as [| | | |i| |i]; try done.
  - split; [left; by apply Hsame | by intros [?|[? _]]].
  - simpl in Hreg. destruct Hreg as [_ Hm]. simpl handle.
    split; [right; by apply Hclose | intros _; by apply Hdim, Hclose].
  - simpl in Hreg. destruct Hreg as [_ Hm].
    destruct (decide (target = TModal)) as [->|Hne].
    + simpl handle. split; [right; by apply Hclose | intros _; by apply Hdim, Hclose].
    + split; [left; by apply Hsame | by intros [?|[_ ?]]].
  - split; [left; by apply Hsame | by intros [?|[? _]]].
  - split; [left; by apply Hsame | by intros [?|[? _]]].
  - split; [left; by apply Hsame | by intros [?|[? _]]].
Qed.

Lemma registered_trigger d t l names path :
  registered_for d t l → l = OnOpen → t ∈ names → names ∈ path → opening path = true.
Proof.
  intros Hreg -> Ht Hn. simpl in Hreg. destruct Hreg as [(i & -> & _) _].
  apply existsb_exists. exists names. split; [by apply list_elem_of_In|].
  apply existsb_exists. exists (TOpenButton i). split; [by apply list_elem_of_In | done].
Qed.

(** The listener that closes the modal for a click with a closing path. *)
Lemma closing_listener d path :
  present (modal d) = true → closing d path = true →
  ∃ names t l, names ∈ path ∧ t ∈ names ∧ (t, l) ∈ installed d
    ∧ (l = OnClose ∨ (l = OnBackdrop ∧ e_target path = TModal)).
Proof.
  intros Hm Hc. unfold closing in Hc. apply orb_true_iff in Hc as [Hc|Hc].
  - apply bool_decide_eq_true in Hc. pose proof Hc as Hc'.
    unfold e_target in Hc. destruct path as [|names path]; [done|].
    case_bool_decide as Hin; [|done].
    exists names, TModal, OnBackdrop. split; [by left|]. split; [done|].
    split; [|by right].
    unfold installed, modal_listeners. rewrite Hm, !elem_of_app.
    do 2 right. do 3 right. left. by apply list_elem_of_singleton.
  - apply existsb_exists in Hc as (names & Hn%list_elem_of_In & Hc).
    apply orb_true_iff in Hc as [Hc|Hc]; apply andb_true_iff in Hc as [Ht%bool_decide_eq_true Hp].
    + exists names, TCloseBtn, OnClose. split; [done|]. split; [done|]. split; [|by left].
      unfold installed, modal_listeners. rewrite Hm, Hp, !elem_of_app.
      do 2 right. right. left. by apply list_elem_of_singleton.
    + exists names, TCloseSuccessBtn, OnClose. split; [done|]. split; [done|].
      split; [|by left].
      unfold installed, modal_listeners. rewrite Hm, Hp, !elem_of_app.
      do 2 right. do 2 right. left. by apply list_elem_of_singleton.
Qed.

(** X9: what a click does to the modal element, whatever its path, as long
    as no donation trigger lies on it.  On a running page with the modal, the
    modal loses the visible class when the click landed on the modal root
    itself or when a close control or success-close control that exists lies
    on the path, also when that control is at the same time a link or
    anything else; otherwise the modal element stays exactly as it is, also
    for a click inside its content, which does reach the modal's own
    listener. *)
Theorem modal_dismissal (d : Dom) (s : State) (m : Element) (path : list (list Target)) :
  running d s → modal (document s) = Some m → opening path = false →
  modal (document (step s (ClickPath path)))
  = Some (if closing d path then hide_modal m else m).
Proof.
  intros Hr Hm Hopen.
  destruct (running_present_back d s Modal m Hr Hm) as [md Hmd]. simpl in Hmd.
  assert (Hpm : present (modal d) = true) by (by rewrite Hmd).
  set (target := e_target path).
  set (inner := λ (names : list Target) (s' : State) '((t, l) : Target * Listener),
    if bool_decide (t ∈ names) then callback (handle l target) s' else s').
  assert (Hinner : ∀ names s', dispatch_all target names s'
    = fold_left (inner names) (listeners (host s')) s') by done.
  (* each listener the click reaches dims the modal or leaves it *)
  assert (Hone : ∀ names s' tl, names ∈ path → tl ∈ installed d → running d s' →
    running d (inner names s' tl) ∧ dims s' (inner names s' tl)
    ∧ (fst tl ∈ names →
       snd tl = OnClose ∨ (snd tl = OnBackdrop ∧ target = TModal) →
       dimmed (inner names s' tl))).
  { intros names s' [t l] Hn Hin Hr'. unfold inner. simpl.
    apply installed_registered in Hin.
    case_bool_decide as Ht; [|split; [done|]; split; [by left | done]].
    assert (Hno : l ≠ OnOpen).
    { intros E. pose proof (registered_trigger d t l names path Hin E Ht Hn). congruence. }
    destruct (callback_dims d s' t l target Hr' Hin Hno) as [Hd Hc].
    split; [|split; [done | intros _; apply Hc]].
    eapply shape_trans; [exact Hr'|]. apply shape_callback, shape_handle. }
  assert (Hall : ∀ names s', names ∈ path → running d s' →
    running d (dispatch_all target names s') ∧ dims s' (dispatch_all target names s')).
  { intros names s' Hn Hr'. rewrite Hinner, (running_listeners d s' Hr').
    assert (H : ∀ ls s0, (∀ tl, tl ∈ ls → tl ∈ installed d) → running d s0 →
      running d (fold_left (inner names) ls s0) ∧ dims s0 (fold_left (inner names) ls s0)).
    { induction ls as [|tl ls IH]; intros s0 Hsub Hr0; simpl; [split; [done | by left]|].
      destruct (Hone names s0 tl Hn) as (Hr1 & Hd1 & _); [apply Hsub; by left | done |].
      destruct (IH (inner names s0 tl)) as [Hr2 Hd2];
        [intros z Hz; apply Hsub; by right | done |].
      split; [done|]. unfold dims in *.
      destruct Hd1 as [E1|E1], Hd2 as [E2|E2]; rewrite E2, E1; auto.
      right. destruct (the_modal s0); [|done]. simpl. by rewrite hide_modal_twice. }
    by apply H. }
  assert (Hpath : ∀ p s', (∀ names, names ∈ p → names ∈ path) → running d s' →
    running d (fold_left (λ s'' names, dispatch_all target names s'') p s')
    ∧ dims s' (fold_left (λ s'' names, dispatch_all target names s'') p s')).
  { induction p as [|names p IH]; intros s' Hsub Hr'; simpl; [split; [done | by left]|].
    destruct (Hall names s') as [Hr1 Hd1]; [apply Hsub; by left | done |].
    destruct (IH (dispatch_all target names s')) as [Hr2 Hd2];
      [intros z Hz; apply Hsub; by right | done |].
    split; [done|]. unfold dims in *.
    destruct Hd1 as [E1|E1], Hd2 as [E2|E2]; rewrite E2, E1; auto.
    right. destruct (the_modal s'); [|done]. simpl. by rewrite hide_modal_twice. }
  destruct (Hpath path s) as [_ Hd]; [done..|].
  change (fold_left _ path s) with (step s (ClickPath path)) in Hd.
  change (modal (document (step s (ClickPath path))))
    with (the_modal (step s (ClickPath path))).
  destruct (closing d path) eqn:Hc.
  - assert (HQ : dimmed (step s (ClickPath path))).
    { destruct (closing_listener d path Hpm Hc) as (names & t & l & Hn & Ht & Hin & Hl).
      simpl. unfold deliver. fold target.
      apply (fold_left_reaches _ (running d) dimmed path names); [done..| |].
      - intros s' names' Hn' Hr'. destruct (Hall names' s' Hn' Hr') as [Hr1 Hd1].
        split; [done | by apply dims_dimmed].
      - intros s' Hr'. rewrite Hinner, (running_listeners d s' Hr').
        apply (fold_left_reaches _ (running d) dimmed (installed d) (t, l)); [done..| |].
        + intros s'' tl Htl Hr''. destruct (Hone names s'' tl Hn Htl Hr'') as (Hr1 & Hd1 & _).
          split; [done | by apply dims_dimmed].
        + intros s'' Hr''. by apply (Hone names s'' (t, l) Hn Hin Hr''). }
    assert (Hs : the_modal s = Some m) by done.
    unfold dimmed in HQ. unfold dims in Hd. rewrite Hs in Hd.
    destruct Hd as [E|E]; [|done]. rewrite HQ, E. done.
  - rewrite <- Hm.
    apply (deliver_same the_modal d); [done| |done].
    intros t l names Hreg Hn Ht. fold target. apply handle_the_modal.
    + intros E. pose proof (registered_trigger d t l names path Hreg E Ht Hn). congruence.
    + intros ->. simpl in Hreg. unfold closing in Hc.
      apply orb_false_iff in Hc as [_ Hc].
      assert (Hex : existsb (λ names,
        bool_decide (TCloseBtn ∈ names) && present (closeBtn d)
        || bool_decide (TCloseSuccessBtn ∈ names) && present (closeSuccessBtn d)) path
        = true); [|congruence].
      apply existsb_exists. exists names. split; [by apply list_elem_of_In|].
      destruct Hreg as [[[-> Hp]|[-> Hp]] _]; rewrite Hp, !andb_true_r.
      * by rewrite (bool_decide_eq_true_2 _ Ht).
      * by rewrite (bool_decide_eq_true_2 _ Ht), orb_true_r.
    + intros _ E. unfold closing in Hc. apply orb_false_iff in Hc as [Hc _].
      apply bool_decide_eq_false in Hc. done.
Qed.

(** A click on plain content: it reaches no listener but the modal's when it
    lies inside the modal, and changes nothing. *)
Lemma click_elsewhere d s inModal : running d s → step s (Click TElsewhere inModal) = s.
Proof.
  intros Hr. simpl. rewrite (click_reaches d) by (done || by apply running_listeners).
  by rewrite handlers_on_elsewhere.
Qed.

Lemma modal_dismissal_witness :
  let s := step (start sample_page) (Click (TOpenButton 0) false) in
  let after path := hasClass "is-visible" <$> modal (document (step s (ClickPath path))) in
  modal (document s) = Some (show_modal blank)
  ∧ after [[TModal]] = Some false
  ∧ after [[TCloseBtn; TLink 0]; [TModal]] = Some false
  ∧ after [[]; [TCloseSuccessBtn]; [TModal]] = Some false
  ∧ after [[TAmountBtn 1]; [TModal]] = Some true
  ∧ after [[]; [TModal]] = Some true.
Proof.
  intros s after.
  assert (Hr : running sample_page s) by apply running_step, shape_refl.
  assert (Hm : modal (document s) = Some (show_modal blank)) by (vm_compute; reflexivity).
  pose proof (λ path, modal_dismissal sample_page s _ path Hr Hm) as H.
  split; [exact Hm|]. unfold after.
  rewrite (H [[TModal]] eq_refl), (H [[TCloseBtn; TLink 0]; [TModal]] eq_refl),
    (H [[]; [TCloseSuccessBtn]; [TModal]] eq_refl),
    (H [[TAmountBtn 1]; [TModal]] eq_refl), (H [[]; [TModal]] eq_refl).
  split; [vm_compute; reflexivity|]. split; [vm_compute; reflexivity|].
  split; [vm_compute; reflexivity|]. split; vm_compute; reflexivity.
Defined.

(** ** A payment timer outlives the session that started it *)

(** X10: reopening the modal does not cancel a pending payment timer.  On a
    running page with the modal, the payment button and both steps: after a
    click on the payment button and any events that take less than 2000 ms, a
    click on an open-donation trigger resets the modal (step 1 shown, button
    enabled with its default label) but the timer is still pending; when its
    time comes it hides step 1 and shows step 2 all the same, with the button
    still enabled: the success step appears in a session in which nothing was
    confirmed. *)
Theorem stale_timer_survives_reopen (d : Dom) (s : State) (b e1 e2 : Element)
    (i : nat) (evs : list Event) (ms : nat) :
  running d s → present (modal d) = true → i < length (openButtons d) →
  processBtn (document s) = Some b →
  step1 (document s) = Some e1 → step2 (document s) = Some e2 →
  elapsed evs < 2000 ≤ elapsed evs + ms →
  let timer := (clock (host s) + 2000, ShowSuccess) in
  let s1 := run evs (step s (Click TProcessBtn true)) in
  let s2 := step s1 (Click (TOpenButton i) false) in
  let s3 := step s2 (Elapse ms) in
  (display <$> step1 (document s2) = Some "block"
   ∧ display <$> step2 (document s2) = Some "none"
   ∧ disabled <$> processBtn (document s2) = Some false
   ∧ innerText <$> processBtn (document s2) = Some "CONFIRMAR DONACIÓN"
   ∧ timer ∈ timers (host s2))
  ∧ (display <$> step1 (document s3) = Some "none"
     ∧ display <$> step2 (document s3) = Some "block"
     ∧ disabled <$> processBtn (document s3) = Some false
     ∧ innerText <$> processBtn (document s3) = Some "CONFIRMAR DONACIÓN").
Proof.
  intros Hr Hm Hi Hb H1 H2 [Hlt Hge] timer s1 s2 s3.
  set (s0 := step s (Click TProcessBtn true)) in *.
  assert (Hs0 : s0 = with_host (with_timers (λ ts, ts ++ [timer]))
                       (with_document (put ProcessBtn (processing_button b)) s))
    by (by apply (click_processBtn d)).
  assert (Hr1 : running d s1) by (by apply running_run_from, running_step).
  destruct (run_timers evs s0) as [Hc1 Hp1]. fold s1 in Hc1, Hp1.
  assert (Hin1 : timer ∈ timers (host s1)).
  { apply Hp1; rewrite Hs0; simpl; [|lia].
    apply elem_of_app. right. by apply list_elem_of_singleton. }
  destruct (step_timers s1 (Click (TOpenButton i) false)) as [Hc2 Hp2].
  fold s2 in Hc2, Hp2. simpl in Hc2, Hp2.
  assert (Hclock1 : clock (host s1) = clock (host s) + elapsed evs).
  { rewrite Hc1, Hs0. done. }
  assert (Hin2 : timer ∈ timers (host s2)) by (apply Hp2; [done | simpl; lia]).
  assert (Hpres : ∀ r e, get r (document s) = Some e → ∃ e', get r (document s1) = Some e').
  { intros r e He. destruct (running_present_back d s r e Hr He) as [ed Hed].
    by apply (running_present_Some d s1 r ed). }
  destruct (Hpres Step1 e1 H1) as [e1' H1']. destruct (Hpres Step2 e2 H2) as [e2' H2'].
  destruct (Hpres ProcessBtn b Hb) as [b' Hb'].
  destruct (running_present_Some d s1 Modal (default blank (modal d)) Hr1) as [m' Hm'].
  { simpl. by destruct (modal d). }
  simpl in H1', H2', Hb', Hm'.
  assert (Hs2 : s2 = callback DonationModal.onOpenClick s1)
    by (by apply (click_openButton d)).
  destruct (onOpenClick_spec s1 m' e1' e2' Hm' H1' H2')
    as (s2' & Hopen & _ & H1o & H2o & Hbo & _).
  assert (Hs2' : s2 = s2') by (rewrite Hs2; unfold callback; by rewrite Hopen).
  rewrite <- Hs2' in H1o, H2o, Hbo. rewrite Hb' in Hbo. simpl in Hbo.
  destruct (elapse_fires s2 ms timer (with_display "block" e1') (with_display "none" e2')
              Hin2) as (Hd1 & Hd2 & Hbf & _); [simpl; lia|done..|].
  fold s3 in Hd1, Hd2, Hbf.
  split.
  - rewrite H1o, H2o, Hbo. by repeat split.
  - rewrite Hd1, Hd2, Hbf, Hbo. by repeat split.
Qed.

Lemma stale_timer_survives_reopen_witness :
  let s1 := run [Elapse 1500; Click TCloseBtn true]
              (step (start sample_page) (Click TProcessBtn true)) in
  let s2 := step s1 (Click (TOpenButton 0) false) in
  let s3 := step s2 (Elapse 500) in
  (display <$> step1 (document s2) = Some "block"
   ∧ (2000, ShowSuccess) ∈ timers (host s2))
  ∧ display <$> step2 (document s3) = Some "block"
  ∧ disabled <$> processBtn (document s3) = Some false.
Proof.
  intros s1 s2 s3.
  assert (Hi : 0 < length (openButtons sample_page)) by (simpl; lia).
  assert (Ht : elapsed [Elapse 1500; Click TCloseBtn true] < 2000
               ≤ elapsed [Elapse 1500; Click TCloseBtn true] + 500)
    by (vm_compute; lia).
  pose proof (stale_timer_survives_reopen sample_page (start sample_page)
    (labelled "CONFIRMAR DONACIÓN") blank blank 0 [Elapse 1500; Click TCloseBtn true] 500
    (shape_refl _) eq_refl Hi eq_refl eq_refl eq_refl Ht)
    as ((H1 & _ & _ & _ & Hin) & (_ & H2 & Hd & _)).
  split; [split; [exact H1 | exact Hin]|]. split; [exact H2 | exact Hd].
Defined.

(** ** The counting animation among other events *)

(** What the animation works on: the counters and the frame queue. *)
Definition animation_state (s : State) : list Element * list Closure :=
  (counters (document s), rafQueue (host s)).

Lemma handle_animation_state l t : relates (same animation_state) (handle l t).
Proof. destruct l; simpl; js_handlers; relates_same animation_state. Qed.

Lemma fire_animation_state cb : relates (same animation_state) (fire cb).
Proof. destruct cb; simpl; js_handlers; relates_same animation_state. Qed.

Definition is_frame (ev : Event) : bool :=
  match ev with
  | AnimationFrame => true
  | _ => false
  end.

(** The number of animation frames among the events. *)
Definition frames (evs : list Event) : nat := length (filter (λ ev, is_frame ev = true) evs).

Lemma view_animation_state i s s' :
  animation_state s' = animation_state s → view i s' = view i s.
Proof. unfold animation_state, view. intros [= H1 H2]. by rewrite H1, H2. Qed.

(** Clicks and timers do not touch the animation. *)
Lemma step_animation_state s ev :
  is_frame ev = false → (∀ entries, ev ≠ Intersection entries) →
  animation_state (step s ev) = animation_state s.
Proof.
  intros Hf Hi. destruct ev as [t inModal|path|entries| |ms]; try done.
  - assert (H : ∀ on s', animation_state (dispatch t on s') = animation_state s').
    { intros on s'. unfold dispatch. apply same_fold_left. intros s'' [t' l].
      case_decide; [|done]. apply same_callback; [apply handle_animation_state|done]. }
    simpl. unfold click. destruct (_ && _); by rewrite ?H.
  - simpl. apply same_deliver; [apply handle_animation_state|done].
  - by destruct (Hi entries).
  - simpl. unfold elapse. etrans; [apply (same_fold_left animation_state)|done].
    intros s' tm. apply same_callback; [apply fire_animation_state|done].
Qed.

(** A frame with nothing queued changes nothing. *)
Lemma frame_idle s : rafQueue (host s) = [] → frame s = s.
Proof.
  intros H. unfold frame. rewrite H. simpl.
  destruct s as [d [] a n]. simpl in *. by subst.
Qed.

(** The page before the section has been seen. *)
Definition waiting (d : Dom) (s : State) : Prop :=
  running d s ∧ counters (document s) = counters d ∧ rafQueue (host s) = []
  ∧ observing (host s) = present (statsSection d) ∧ hasAnimated s = false.

Lemma waiting_start d : waiting d (start d).
Proof.
  split; [apply shape_refl|]. rewrite start_spec. simpl.
  split; [done|]. split; [done|]. by split.
Qed.

Lemma waiting_step d s ev : waiting d s → intersecting ev = false → waiting d (step s ev).
Proof.
  intros Hw Hev. pose proof Hw as (Hr & Hc & Hq & Ho & Ha).
  assert (Hrest : (∀ entries, ev ≠ Intersection entries) → is_frame ev = false →
    waiting d (step s ev)).
  { intros Hne Hf.
    pose proof (step_stats_vars s ev Hne) as [= Ea _ Eo].
    pose proof (step_animation_state s ev Hf Hne) as [= Ec Eq].
    split; [by apply running_step|].
    split; [congruence|]. split; [congruence|]. split; congruence. }
  destruct ev as [t inModal|path|entries| |ms].
  - by apply Hrest.
  - by apply Hrest.
  - simpl. unfold intersect. destruct (observing (host s)); [|done].
    rewrite (safe_callback _ _ (onIntersection_safe entries)), onIntersection_exec.
    simpl in Hev. by rewrite Hev.
  - simpl. by rewrite frame_idle.
  - by apply Hrest.
Qed.

Lemma waiting_run d evs s :
  waiting d s → existsb intersecting evs = false → waiting d (run evs s).
Proof.
  revert s. induction evs as [|ev evs IH]; intros s Hw Hevs; [done|].
  simpl in Hevs. apply orb_false_iff in Hevs as [Hev Hevs].
  rewrite run_cons. apply IH; [by apply waiting_step | done].
Qed.

(** The page once the animation has been started. *)
Definition animating (d : Dom) (i : nat) (text : string) (n : nat) (s : State) : Prop :=
  running d s ∧ observing (host s) = false
  ∧ view i s = (Some (shown (localeString d) text n), chainAt i text n).

Lemma waiting_trigger d s i e entries :
  waiting d s → present (statsSection d) = true → counters d !! i = Some e →
  triggers entries = true →
  animating d i (innerText e) 1 (step s (Intersection entries)).
Proof.
  intros (Hr & Hc & Hq & Ho & Ha) Hp He Ht.
  split; [by apply running_step|].
  simpl. unfold intersect. rewrite Ho, Hp.
  rewrite (safe_callback _ _ (onIntersection_safe entries)), onIntersection_exec.
  rewrite Ht, Ha. simpl. split; [done|].
  match goal with |- view i (with_host _ (with_hasAnimated _ ?s2)) = _ =>
    change (view i s2
            = (Some (shown (localeString d) (innerText e) 1), chainAt i (innerText e) 1))
  end.
  rewrite (view_animateCounters i s e) by (by rewrite Hc).
  unfold view. simpl. by rewrite Hq, (running_localeString d s Hr).
Qed.

Lemma animating_step d i text n s ev :
  i < length (counters d) → animating d i text n s →
  animating d i text (if is_frame ev then S n else n) (step s ev).
Proof.
  intros Hi (Hr & Ho & Hv).
  assert (Hlen : i < length (counters (document s))).
  { by rewrite (shape_counters _ _ Hr), start_spec. }
  assert (Hrest : ∀ ev', is_frame ev' = false → (∀ entries, ev' ≠ Intersection entries) →
    animating d i text n (step s ev')).
  { intros ev' Hf Hne. split; [by apply running_step|]. split.
    - pose proof (step_stats_vars s ev' Hne) as Hvars.
      unfold stats_vars in Hvars. congruence.
    - rewrite (view_animation_state i s (step s ev')); [done|].
      by apply step_animation_state. }
  destruct ev as [t inModal|path|entries| |ms]; simpl is_frame; cbv iota.
  - by apply Hrest.
  - by apply Hrest.
  - simpl. unfold intersect. rewrite Ho. by split.
  - split; [by apply running_step|]. split.
    + pose proof (step_stats_vars s AnimationFrame ltac:(done)) as Hvars.
      unfold stats_vars in Hvars. congruence.
    + rewrite <- (running_localeString d s Hr) in Hv |- *.
      by apply view_frame_next.
  - by apply Hrest.
Qed.

Lemma frames_cons ev evs :
  frames (ev :: evs) = (if is_frame ev then 1 else 0) + frames evs.
Proof.
  unfold frames. rewrite filter_cons.
  destruct (is_frame ev); case_decide; done.
Qed.

Lemma animating_run d i text n evs s :
  i < length (counters d) → animating d i text n s →
  animating d i text (n + frames evs) (run evs s).
Proof.
  intros Hi. revert n s. induction evs as [|ev evs IH]; intros n s Ha.
  - unfold frames. simpl. by rewrite Nat.add_0_r.
  - rewrite run_cons, frames_cons.
    pose proof (animating_step d i text n s ev Hi Ha) as Ha'.
    apply IH in Ha'. destruct (is_frame ev).
    + by replace (n + (1 + frames evs)) with (S n + frames evs) by lia.
    + done.
Qed.

(** X11: the counting animation among other events.  Until an intersecting
    entry is reported, no event changes a counter and no frame callback is
    queued.  From the triggering entry on, clicks (whatever their path),
    timers and further observer entries do not disturb the animation: the
    text of a counter and its pending frame callbacks are what they would be
    had the trigger been the first event and been followed by the animation
    frames alone, so that with [n] one more than the number of frames since
    the trigger the counter shows what call [n] displays. *)
Theorem animation_among_events (d : Dom) (i : nat) (e : Element)
    (pre : list Event) (entries : list Entry) (post : list Event) :
  present (statsSection d) = true → counters d !! i = Some e →
  existsb intersecting pre = false → triggers entries = true →
  let text := innerText e in
  let n := S (frames post) in
  let before := run pre (start d) in
  let s := run (pre ++ Intersection entries :: post) (start d) in
  let alone := run (Intersection entries :: repeat AnimationFrame (frames post)) (start d) in
  counters (document before) = counters d
  ∧ rafQueue (host before) = []
  ∧ view i s = view i alone
  ∧ innerText <$> counters (document s) !! i
    = Some (Spec.display (localeString d) text n).
Proof.
  intros Hp He Hpre Ht text n before s alone.
  pose proof (waiting_run d pre (start d) (waiting_start d) Hpre) as Hw.
  fold before in Hw. pose proof Hw as (_ & Hc & Hq & _).
  split; [done|]. split; [done|].
  pose proof (waiting_trigger d before i e entries Hw Hp He Ht) as Ha.
  apply (animating_run d i text 1 post) in Ha; [|by apply (lookup_lt_Some _ _ e)].
  destruct Ha as (_ & _ & Hv).
  assert (Hs : s = run post (step before (Intersection entries))).
  { unfold s, before. by rewrite run_app, run_cons. }
  rewrite <- Hs in Hv. change (1 + frames post) with n in Hv.
  pose proof (view_animation d i e entries (frames post) Hp He Ht) as Hv'.
  fold alone in Hv'. fold text in Hv'. fold n in Hv'.
  split; [by rewrite Hv, Hv'|].
  unfold view in Hv. injection Hv as Hd _. by rewrite Hd, shown_spec.
Qed.

Lemma animation_among_events_witness :
  let pre := [Click TMenuToggle false; AnimationFrame; Intersection [mkEntry false]] in
  let post := [AnimationFrame; ClickPath [[TLink 1]; [TMenuToggle]];
               Intersection [mkEntry true]; AnimationFrame; Elapse 16; AnimationFrame] in
  let s := run (pre ++ Intersection [mkEntry true] :: post) (start sample_page) in
  (existsb intersecting pre = false ∧ frames post = 3)
  ∧ innerText <$> counters (document s) !! 0 = Some "40"
  ∧ innerText <$> counters (document s) !! 1 = Some "4".
Proof.
  intros pre post s.
  pose proof (animation_among_events sample_page 0 (labelled "1,250+") pre
                [mkEntry true] post eq_refl eq_refl eq_refl eq_refl) as (_ & _ & _ & H0).
  pose proof (animation_among_events sample_page 1 (labelled "98%") pre
                [mkEntry true] post eq_refl eq_refl eq_refl eq_refl) as (_ & _ & _ & H1).
  fold s in H0, H1. rewrite H0, H1.
  split; [split; vm_compute; reflexivity|].
  split; vm_compute; reflexivity.
Defined.

(** ** Extracting the target *)

Lemma strip_non_digits_app a b :
  strip_non_digits (a +:+ b) = strip_non_digits a +:+ strip_non_digits b.
Proof.
  unfold strip_non_digits.
  assert (Happ : ∀ x y, list_ascii_of_string (x +:+ y)
                        = list_ascii_of_string x ++ list_ascii_of_string y).
  { induction x as [|c x IH]; intros y; simpl; [done | by rewrite IH]. }
  assert (Hstr : ∀ l l', string_of_list_ascii (l ++ l')
                         = string_of_list_ascii l +:+ string_of_list_ascii l').
  { induction l as [|c l IH]; intros l'; simpl; [done | by rewrite IH]. }
  by rewrite Happ, filter_app, Hstr.
Qed.

(** X13: only the digits of a counter's text count.  Stripping works piece
    by piece, and a character that is not a decimal digit (a sign, a
    grouping comma, a decimal point, a unit) can be put anywhere into the
    text without changing the target: "4.5" animates towards 45 just as "45"
    does. *)
Theorem target_ignores_non_digits (a b : string) (c : ascii) :
  is_digit c = false →
  strip_non_digits (a +:+ String c b) = strip_non_digits (a +:+ b)
  ∧ targetOf (a +:+ String c b) = targetOf (a +:+ b)
  ∧ incrementOf (a +:+ String c b) = incrementOf (a +:+ b).
Proof.
  intros Hc.
  assert (H : strip_non_digits (a +:+ String c b) = strip_non_digits (a +:+ b)).
  { rewrite !strip_non_digits_app. f_equal.
    unfold strip_non_digits. simpl. rewrite filter_cons_False; [done|].
    by rewrite Hc. }
  unfold incrementOf, targetOf. by rewrite H.
Qed.

Lemma target_ignores_non_digits_witness :
  is_digit "." = false
  ∧ targetOf "4.5" = Number_of_Z 45 ∧ targetOf "45" = Number_of_Z 45
  ∧ targetOf "-3" = Number_of_Z 3.
Proof.
  assert (Hd : is_digit "." = false) by reflexivity.
  assert (Hm : is_digit "-" = false) by reflexivity.
  pose proof (target_ignores_non_digits "4" "5" "." Hd) as (_ & H1 & _).
  pose proof (target_ignores_non_digits EmptyString "3" "-" Hm) as (_ & H2 & _).
  change ("4" +:+ String "." "5") with "4.5" in H1.
  change ("4" +:+ "5") with "45" in H1.
  change (EmptyString +:+ String "-" "3") with "-3" in H2.
  change (EmptyString +:+ "3") with "3" in H2.
  split; [exact Hd|]. rewrite H1, H2.
  split; [reflexivity|]. split; reflexivity.
Defined.

(** ** Names without a listener *)

(** Whether a listener is registered under the name [t] on page [d]. *)
Definition live (d : Dom) (t : Target) : bool :=
  match handlers_on t (installed d) with
  | [] => false
  | _ => true
  end.

Lemma live_spec d t :
  live d t
  = match t with
    | TMenuToggle => present (menuToggle d) && present (mainNav d)
    | TOpenButton i => present (modal d) && (i <? length (openButtons d))
    | TCloseBtn => present (modal d) && present (closeBtn d)
    | TCloseSuccessBtn => present (modal d) && present (closeSuccessBtn d)
    | TModal => present (modal d)
    | TAmountBtn i => present (modal d) && (i <? length (amountBtns d))
    | TProcessBtn => present (modal d) && present (processBtn d)
    | TLink i => i <? length (links d)
    | TElsewhere => false
    end.
Proof.
  unfold live. destruct t as [|i| | | |i| |i|].
  - rewrite handlers_on_menuToggle. by destruct (_ && _).
  - rewrite handlers_on_openButton. by destruct (_ && _).
  - rewrite handlers_on_closeBtn. by destruct (_ && _).
  - rewrite handlers_on_closeSuccessBtn. by destruct (_ && _).
  - rewrite handlers_on_modal. by destruct (present _).
  - rewrite handlers_on_amountBtn. by destruct (_ && _).
  - rewrite handlers_on_processBtn. by destruct (_ && _).
  - rewrite handlers_on_link. by destruct (_ <? _).
  - by rewrite handlers_on_elsewhere.
Qed.

Lemma installed_live d t l : (t, l) ∈ installed d → live d t = true.
Proof.
  intros Hin. unfold live.
  assert (H : l ∈ handlers_on t (installed d)).
  { unfold handlers_on. apply list_elem_of_omap. exists (t, l). split; [done|].
    simpl. by rewrite decide_True. }
  destruct (handlers_on t (installed d)); [by apply elem_of_nil in H | done].
Qed.

Definition live_names (d : Dom) (names : list Target) : list Target :=
  filter (λ t, live d t = true) names.

Lemma live_names_nil d names :
  (∀ t, t ∈ names → live d t = false) → live_names d names = [].
Proof.
  unfold live_names. induction names as [|t names IH]; intros H; [done|].
  rewrite filter_cons, decide_False.
  - apply IH. intros t' Ht'. apply H. by right.
  - rewrite H; [done | by left].
Qed.

Lemma dispatch_all_live d target target' names s :
  running d s →
  (present (modal d) = true → target = target') →
  dispatch_all target names s = dispatch_all target' (live_names d names) s.
Proof.
  intros Hr Htarget. unfold dispatch_all. apply fold_left_ext_in.
  intros s' [t l] Hin. rewrite (running_listeners d s Hr) in Hin.
  pose proof (installed_live d t l Hin) as Hlive.
  assert (Hh : handle l target = handle l target').
  { destruct l; try done. apply installed_registered in Hin as [_ Hm].
    by rewrite (Htarget Hm). }
  rewrite Hh. unfold live_names.
  case_bool_decide as E1; case_bool_decide as E2; try done.
  - destruct E2. by apply list_elem_of_filter.
  - apply list_elem_of_filter in E2 as [_ E2]. done.
Qed.

Lemma e_target_live d path :
  present (modal d) = true → e_target path = e_target (live_names d <$> path).
Proof.
  intros Hm. destruct path as [|names path]; [done|]. simpl. unfold live_names.
  case_bool_decide as E1; case_bool_decide as E2; try done.
  - destruct E2. apply list_elem_of_filter. split; [|done]. by rewrite live_spec.
  - apply list_elem_of_filter in E2 as [_ E2]. done.
Qed.

Lemma deliver_live d s path :
  running d s → deliver path s = deliver (live_names d <$> path) s.
Proof.
  intros Hr. unfold deliver.
  set (target := e_target path). set (target' := e_target (live_names d <$> path)).
  assert (Ht : present (modal d) = true → target = target') by apply e_target_live.
  clearbody target target'. revert s Hr.
  induction path as [|names path IH]; intros s Hr; [done|].
  simpl. rewrite <- (dispatch_all_live d target target' names s Hr Ht).
  apply IH. eapply shape_trans; [exact Hr|].
  apply (relates_dispatch_all shape shape_refl shape_trans);
    [apply shape_handle | apply shape_report].
Qed.

Lemma dispatch_all_nil target s : dispatch_all target [] s = s.
Proof.
  unfold dispatch_all. generalize (listeners (host s)). intros ls.
  induction ls as [|[t l] ls IH]; simpl in *; done.
Qed.

(** X14: the names of an element under which no listener is registered do
    not matter to a click.  On a running page a click with any path does
    what the click does whose path keeps, for each element, only the names
    with a listener; a click on whose path no name has a listener changes
    nothing at all.  A failed guard of an [init] leaves the names of its
    whole component without a listener: without the modal root those of the
    donation triggers, close controls, backdrop, amount buttons and payment
    button, and without the toggle button or the panel that of the toggle
    button.  So a donation trigger on a page without the modal root does
    nothing as a trigger, and everything it does as the link it may also
    be. *)
Theorem guarded_components_are_inert (d : Dom) (s : State) (path : list (list Target)) :
  running d s →
  step s (ClickPath path) = step s (ClickPath (live_names d <$> path))
  ∧ ((∀ names t, names ∈ path → t ∈ names → live d t = false) →
     step s (ClickPath path) = s)
  ∧ (∀ t inModal, live d t = false → step s (Click t inModal) = s)
  ∧ (modal d = None → ∀ t, modal_target t = true → live d t = false)
  ∧ (menuToggle d = None ∨ mainNav d = None → live d TMenuToggle = false).
Proof.
  intros Hr.
  assert (Hdead : ∀ p, (∀ names t, names ∈ p → t ∈ names → live d t = false) →
    step s (ClickPath p) = s).
  { intros p Hp. simpl. rewrite (deliver_live d s p Hr). unfold deliver.
    generalize (e_target (live_names d <$> p)). intros target.
    assert (Hnil : ∀ names, names ∈ p → live_names d names = []).
    { intros names Hn. apply live_names_nil. intros t Ht. by apply (Hp names). }
    clear Hp. revert s Hr. induction p as [|names p IH]; intros s Hr; [done|].
    simpl. rewrite (Hnil names) by (by left). rewrite dispatch_all_nil.
    apply IH; [|done]. intros n Hn. apply Hnil. by right. }
  split; [by apply deliver_live|]. split; [apply Hdead|].
  split.
  { intros t inModal Ht.
    change (step s (Click t inModal)) with (click t inModal s). unfold click.
    pose proof (running_listeners d s Hr) as Hl.
    assert (Hd : dispatch t t s = s).
    { rewrite (dispatch_handlers t t s), Hl. unfold live in Ht.
      by destruct (handlers_on t (installed d)). }
    rewrite Hd. destruct (inModal && _) eqn:E; [|done].
    apply (bubble_noop d); [done|].
    apply andb_true_iff in E as [_ E].
    by apply negb_true_iff, bool_decide_eq_false in E. }
  split.
  - intros Hm t Ht. rewrite live_spec. destruct t; try done; by rewrite Hm.
  - intros [E|E]; rewrite live_spec, E; [done | by rewrite andb_false_r].
Qed.

(** The sample page without the modal root. *)
Definition page_without_modal : Dom :=
  mkDom (menuToggle sample_page) (mainNav sample_page) None
        (openButtons sample_page) (closeBtn sample_page) (amountBtns sample_page)
        (processBtn sample_page) (step1 sample_page) (step2 sample_page)
        (closeSuccessBtn sample_page) (links sample_page) (statsSection sample_page)
        (counters sample_page) (selectable sample_page)
        (validSelector sample_page) (localeString sample_page).

Lemma guarded_components_are_inert_witness :
  let s := start page_without_modal in
  modal page_without_modal = None
  ∧ run [ClickPath [[TOpenButton 0]]; ClickPath [[TAmountBtn 1]; [TModal]];
         Click TProcessBtn true] s = s
  ∧ step s (ClickPath [[TOpenButton 0; TLink 1]]) = step s (ClickPath [[TLink 1]])
  ∧ step (start page_without_nav) (Click TMenuToggle false) = start page_without_nav.
Proof.
  intros s.
  assert (Hr : running page_without_modal s) by apply shape_refl.
  pose proof (λ path, guarded_components_are_inert page_without_modal s path Hr) as H.
  destruct (H []) as (_ & _ & Hclick & _ & _).
  assert (H1 : step s (ClickPath [[TOpenButton 0]]) = s).
  { apply (H [[TOpenButton 0]]). intros names t Hn Ht.
    apply list_elem_of_singleton in Hn. subst. apply list_elem_of_singleton in Ht.
    by subst. }
  assert (H2 : step s (ClickPath [[TAmountBtn 1]; [TModal]]) = s).
  { apply (H [[TAmountBtn 1]; [TModal]]). intros names t Hn Ht.
    apply elem_of_cons in Hn as [->|Hn]; [apply list_elem_of_singleton in Ht; by subst|].
    apply list_elem_of_singleton in Hn. subst. apply list_elem_of_singleton in Ht.
    by subst. }
  split; [reflexivity|]. split; [|split].
  - rewrite !run_cons. rewrite H1, H2. apply Hclick. reflexivity.
  - apply (H [[TOpenButton 0; TLink 1]]).
  - destruct (guarded_components_are_inert page_without_nav (start page_without_nav) []
                (shape_refl _)) as (_ & _ & Hc & _ & _).
    apply Hc. reflexivity.
Defined.

(** ** Calls that reach the outside *)

(** What a listener adds to the log of host calls on page [d]. *)
Definition listener_calls (d : Dom) (l : Listener) : list Effect :=
  match l with
  | OnOpen => [PreventDefault]
  | OnLink i =>
      match links d !! i with
      | Some href =>
          PreventDefault ::
          (if negb (String.eqb href "#") && bool_decide (href ∈ selectable d)
           then [ScrollIntoView href "smooth" "start"] else [])
      | None => []
      end
  | _ => []
  end.

(** What a click adds: the calls of the listeners along its path. *)
Definition path_calls (d : Dom) (path : list (list Target)) : list Effect :=
  path ≫= (λ names, listeners_at d names ≫= listener_calls d).

Definition calls_of (d : Dom) (ev : Event) : list Effect :=
  match ev with
  | Click t inModal => path_calls d (path_of_click t inModal)
  | ClickPath path => path_calls d path
  | _ => []
  end.

Definition calls (s : State) : list Effect := effects (host s).

Lemma callback_calls (c : M unit) s : calls (callback c s) = calls (exec c s).
Proof. unfold callback, exec. by destruct (c s) as [[[]|e] s']. Qed.

Lemma closeMenu_calls : relates (same calls) Navigation.closeMenu.
Proof. js_handlers; relates_same calls. Qed.

Lemma onOpenClick_calls s :
  calls (exec DonationModal.onOpenClick s) = calls s ++ [PreventDefault].
Proof.
  unfold exec, DonationModal.onOpenClick.
  unfold bind at 1, preventDefault at 1, emit at 1, modify at 1.
  match goal with |- calls (snd (?c ?s1)) = _ =>
    assert (H : relates (same calls) c) by (js_handlers; relates_same calls);
    rewrite (H s1) end.
  done.
Qed.

Lemma onLinkClick_calls href s :
  calls (exec (SmoothScroll.onLinkClick href) s)
  = calls s ++ PreventDefault ::
      (if negb (String.eqb href "#") && bool_decide (href ∈ selectable (document s))
       then [ScrollIntoView href "smooth" "start"] else []).
Proof.
  unfold exec. destruct (String.eqb href "#") eqn:E.
  - apply String.eqb_eq in E. subst href. by rewrite onLinkClick_hash.
  - apply String.eqb_neq in E. simpl. case_bool_decide as Hin.
    + rewrite onLinkClick_found by done.
      rewrite (closeMenu_calls _). unfold calls, exec. simpl. by rewrite <- app_assoc.
    + destruct (validSelector (document s) href) eqn:Hv.
      * by rewrite onLinkClick_missing.
      * by rewrite onLinkClick_invalid.
Qed.

Lemma handle_calls l t :
  l ≠ OnOpen → (∀ i, l ≠ OnLink i) → relates (same calls) (handle l t).
Proof.
  intros Ho Hl. destruct l as [| | | |i| |i]; try done; try (by destruct (Hl i));
    simpl; js_handlers; relates_same calls.
Qed.

Lemma updateCount_calls cl : relates (same calls) (StatsAnimation.updateCount cl).
Proof. js_stats; relates_same calls. Qed.

Lemma onIntersection_calls entries :
  relates (same calls) (StatsAnimation.onIntersection entries).
Proof. js_stats; relates_same calls. Qed.

Lemma fire_calls cb : relates (same calls) (fire cb).
Proof. destruct cb; simpl; js_handlers; relates_same calls. Qed.

(** One listener, on a running page. *)
Lemma invoke_calls d target s l :
  running d s →
  running d (invoke target s l)
  ∧ calls (invoke target s l) = calls s ++ listener_calls d l.
Proof.
  intros Hr. split.
  { eapply shape_trans; [exact Hr|]. apply shape_callback, shape_handle. }
  unfold invoke. destruct l as [| | | |i| |i];
    try (simpl listener_calls; rewrite app_nil_r;
         apply (same_callback calls); [by apply handle_calls | done]).
  { simpl handle. by rewrite callback_calls, onOpenClick_calls. }
  rewrite callback_calls. unfold exec. simpl handle. unfold bind, query, read. simpl.
  rewrite (running_links d s Hr).
  destruct (links d !! i) as [href|]; [|by rewrite app_nil_r].
  fold (exec (SmoothScroll.onLinkClick href) s).
  by rewrite onLinkClick_calls, (running_selectable d s Hr).
Qed.

Lemma dispatch_all_calls d target names s :
  running d s →
  running d (dispatch_all target names s)
  ∧ calls (dispatch_all target names s)
    = calls s ++ (listeners_at d names ≫= listener_calls d).
Proof.
  intros Hr. rewrite dispatch_all_named, (running_listeners d s Hr).
  fold (listeners_at d names). generalize (listeners_at d names). intros ls.
  revert s Hr. induction ls as [|l ls IH]; intros s Hr; simpl.
  - split; [done | by rewrite app_nil_r].
  - destruct (invoke_calls d target s l Hr) as [Hr1 Hc1].
    destruct (IH _ Hr1) as [Hr2 Hc2]. split; [done|].
    by rewrite Hc2, Hc1, <- app_assoc.
Qed.

Lemma deliver_calls d path s :
  running d s → calls (deliver path s) = calls s ++ path_calls d path.
Proof.
  intros Hr. unfold deliver, path_calls. generalize (e_target path). intros target.
  revert s Hr. induction path as [|names path IH]; intros s Hr; simpl.
  - by rewrite app_nil_r.
  - destruct (dispatch_all_calls d target names s Hr) as [Hr1 Hc1].
    by rewrite (IH _ Hr1), Hc1, <- app_assoc.
Qed.

Lemma step_calls d s ev :
  running d s → calls (step s ev) = calls s ++ calls_of d ev.
Proof.
  intros Hr. destruct ev as [t inModal|path|entries| |ms].
  - rewrite click_is_deliver. by apply deliver_calls.
  - by apply deliver_calls.
  - simpl. rewrite app_nil_r. unfold intersect. destruct (observing _); [|done].
    apply (same_callback calls); [apply onIntersection_calls|done].
  - simpl. rewrite app_nil_r. unfold frame.
    etrans; [apply (same_fold_left calls)|done].
    intros s' cl. apply same_callback; [apply updateCount_calls|done].
  - simpl. rewrite app_nil_r. unfold elapse.
    etrans; [apply (same_fold_left calls)|done].
    intros s' tm. apply same_callback; [apply fire_calls|done].
Qed.

(** X15: the calls the script makes to the outside are exactly these: the
    log line of [App.init], then, click by click, element by element along
    the path of the click and listener by listener in registration order,
    one [preventDefault] for the listener of a donation trigger and one for
    the listener of a fragment link, followed for the link by one smooth
    [scrollIntoView] to the top of its target when its href is not "#" and
    the target exists.  So a click on a trigger makes one [preventDefault]
    (when the modal exists), a click on a link one and maybe the scroll, a
    click on a trigger that is also a link first the link's calls and then a
    second [preventDefault], and no other event makes any such call.  A
    handler that throws has made its calls before. *)
Theorem outside_calls (d : Dom) (evs : list Event) :
  effects (host (run evs (start d)))
  = ConsoleLog "App Fundación Inicializada correctamente." :: concat (calls_of d <$> evs)
  ∧ (∀ i inModal, calls_of d (Click (TOpenButton i) inModal)
       = if present (modal d) && (i <? length (openButtons d)) then [PreventDefault] else [])
  ∧ (∀ i inModal, calls_of d (Click (TLink i) inModal) = listener_calls d (OnLink i))
  ∧ (∀ i j, calls_of d (ClickPath [[TOpenButton i; TLink j]])
       = listener_calls d (OnLink j) ++ calls_of d (Click (TOpenButton i) false))
  ∧ (∀ t inModal, (∀ i, t ≠ TOpenButton i) → (∀ i, t ≠ TLink i) →
       calls_of d (Click t inModal) = []).
Proof.
  assert (H : ∀ s, running d s →
    calls (run evs s) = calls s ++ concat (calls_of d <$> evs)).
  { induction evs as [|ev evs IH]; intros s Hr.
    - simpl. by rewrite app_nil_r.
    - rewrite run_cons, IH by (by apply running_step).
      rewrite (step_calls d) by done. simpl. by rewrite <- app_assoc. }
  specialize (H (start d) (shape_refl _)). unfold calls in H.
  assert (Hbubble : listeners_at d [TModal] ≫= listener_calls d = []).
  { rewrite listeners_at_single, handlers_on_modal. by destruct (present _). }
  assert (Hclick : ∀ t inModal, calls_of d (Click t inModal)
    = handlers_on t (installed d) ≫= listener_calls d).
  { intros t inModal. simpl. unfold path_of_click, path_calls.
    destruct (inModal && _); simpl; rewrite ?Hbubble, ?app_nil_r;
      by rewrite listeners_at_single. }
  assert (Hlink : ∀ i, handlers_on (TLink i) (installed d) ≫= listener_calls d
    = listener_calls d (OnLink i)).
  { intros i. rewrite handlers_on_link. destruct (i <? length (links d)) eqn:E; simpl.
    - by rewrite app_nil_r.
    - apply Nat.ltb_ge in E. by rewrite (lookup_ge_None_2 _ _ E). }
  split; [rewrite H, start_spec; done|].
  split.
  { intros i inModal. rewrite Hclick, handlers_on_openButton. by destruct (_ && _). }
  split; [intros i inModal; by rewrite Hclick, Hlink|].
  split.
  { intros i j. rewrite Hclick. simpl calls_of. unfold path_calls. simpl.
    rewrite app_nil_r, listeners_at_link_and by done.
    by rewrite bind_app, Hlink. }
  intros t inModal Ho Hl. rewrite Hclick.
  destruct t as [|i| | | |i| |i|]; try (by destruct (Ho i)); try (by destruct (Hl i)).
  - rewrite handlers_on_menuToggle. by destruct (_ && _).
  - rewrite handlers_on_closeBtn. by destruct (_ && _).
  - rewrite handlers_on_closeSuccessBtn. by destruct (_ && _).
  - rewrite handlers_on_modal. by destruct (present _).
  - rewrite handlers_on_amountBtn. by destruct (_ && _).
  - rewrite handlers_on_processBtn. by destruct (_ && _).
  - by rewrite handlers_on_elsewhere.
Qed.

(** ** A click on a fragment link *)

(** X16: what the listener of a fragment link does, case by case.  It
    always cancels the default navigation first.  With href "#" nothing else
    happens.  Otherwise, if the document has an element for the href, it is
    scrolled into view with behavior "smooth" and block "start", and then
    [Navigation.closeMenu] runs, on the state in which the scroll has been
    issued; if it has none and the href parses as a selector, nothing is
    scrolled, the menu is not closed and nothing is thrown; and if the href
    does not parse as a selector, the lookup throws a SyntaxError, with the
    default navigation cancelled and nothing else done.  On a running page a
    click on the link runs exactly this handler. *)
Theorem link_click (targetId : string) (s : State) :
  let s0 := exec preventDefault s in
  let s1 := exec (emit (ScrollIntoView targetId "smooth" "start")) s0 in
  effects (host s0) = effects (host s) ++ [PreventDefault]
  ∧ effects (host s1)
    = effects (host s) ++ [PreventDefault; ScrollIntoView targetId "smooth" "start"]
  ∧ (targetId = "#" → SmoothScroll.onLinkClick targetId s = (Normal tt, s0))
  ∧ (targetId ≠ "#" → targetId ∈ selectable (document s) →
     SmoothScroll.onLinkClick targetId s = Navigation.closeMenu s1)
  ∧ (targetId ≠ "#" → targetId ∉ selectable (document s) →
     SmoothScroll.onLinkClick targetId s
     = if validSelector (document s) targetId
       then (Normal tt, s0) else (Throw SyntaxError, s0))
  ∧ (∀ d i inModal, running d s → links d !! i = Some targetId →
     step s (Click (TLink i) inModal) = callback (SmoothScroll.onLinkClick targetId) s).
Proof.
  intros s0 s1. split; [done|]. split.
  { unfold s1, s0, exec, emit, preventDefault, modify. unfold_with; simpl.
    by rewrite <- app_assoc. }
  split; [intros ->; apply onLinkClick_hash|].
  split; [apply onLinkClick_found|].
  split.
  { intros Hne Hout. destruct (validSelector (document s) targetId) eqn:Hv.
    - by apply onLinkClick_missing.
    - by apply onLinkClick_invalid. }
  intros d i inModal Hr Hi. by apply (click_link d).
Qed.

Lemma link_click_witness :
  let s := step (start sample_page) (Click TMenuToggle false) in
  let s' := step s (Click (TLink 1) false) in
  (hasClass "is-open" <$> mainNav (document s) = Some true
   ∧ "#equipo" ≠ "#" ∧ "#equipo" ∈ selectable (document s))
  ∧ effects (host s')
    = effects (host s) ++ [PreventDefault; ScrollIntoView "#equipo" "smooth" "start"]
  ∧ hasClass "is-open" <$> mainNav (document s') = Some false
  ∧ step (start sample_page) (Click (TLink 0) false) = exec preventDefault (start sample_page)
  ∧ step (start sample_page) (Click (TLink 2) false) = exec preventDefault (start sample_page).
Proof.
  intros s s'.
  assert (Hne : "#equipo" ≠ "#") by discriminate.
  assert (Hne' : "#nada" ≠ "#") by discriminate.
  assert (Hin : "#equipo" ∈ selectable (document s))
    by (apply (bool_decide_unpack _); vm_compute; exact I).
  assert (Hout : "#nada" ∉ selectable (document (start sample_page)))
    by (apply (bool_decide_unpack _); vm_compute; exact I).
  assert (Hv : validSelector (document (start sample_page)) "#nada" = true)
    by (vm_compute; reflexivity).
  assert (Hopen : hasClass "is-open" <$> mainNav (document s) = Some true)
    by (vm_compute; reflexivity).
  assert (Hr : running sample_page s) by apply running_step, shape_refl.
  pose proof (link_click "#equipo" s) as (_ & _ & _ & Hfound & _ & Hstep).
  pose proof (link_click "#" (start sample_page)) as (_ & _ & Hhash & _ & _ & Hstep0).
  pose proof (link_click "#nada" (start sample_page)) as (_ & _ & _ & _ & Hnone & Hstep2).
  split; [split; [exact Hopen | split; [exact Hne | exact Hin]]|].
  unfold s'.
  rewrite (Hstep sample_page 1 false Hr eq_refl).
  rewrite (Hstep0 sample_page 0 false (shape_refl _) eq_refl).
  rewrite (Hstep2 sample_page 2 false (shape_refl _) eq_refl).
  unfold callback. rewrite (Hfound Hne Hin), (Hhash eq_refl), (Hnone Hne' Hout), Hv.
  clear. split; [vm_compute; reflexivity|]. split; [vm_compute; reflexivity|].
  split; reflexivity.
Defined.
